(** * drifting_into_nowhere: the tree core of [src/tree.py]

    A shallow embedding of the [Tree] class (a mutable node with a
    [parent] back-reference and a list of [children]), of the Newick
    parser and serializer and of the topology statistics, followed by the
    properties of the specification that concern them.

    Python objects live in a store: a node is identified by its position
    in an arena, [children] and [parent] hold such positions, and every
    method that assigns to an attribute of a node is a store transformer.
    Exceptions are values of [error]; a bound on the depth of the
    recursion stands for the interpreter's recursion limit. *)

From Stdlib Require Import ZArith QArith Qround Ascii String.
From stdpp Require Import prelude strings pretty.

Set Warnings "-register-all".

Local Open Scope char_scope.
Local Open Scope nat_scope.

(** ** Strings *)

(** A Python [str] is a sequence of characters. *)
Definition str := list ascii.

Definition lit (s : string) : str := list_ascii_of_string s.

(** [s.startswith(p)] *)
Fixpoint startswith (s p : str) {struct p} : bool :=
  match p with
  | [] => true
  | a :: p' =>
      match s with
      | [] => false
      | b :: s' => bool_decide (a = b) && startswith s' p'
      end
  end.

(** Modelled from the spec: [find] of [src/util.py], which [tree.py]
    imports and which is not among the sources. It is the position of the
    first occurrence of the character, and the length of the string when
    there is none: the reading under which [find(s, '=') < find(s, ']')]
    and [min(find(s, ','), find(s, ')'))] scan "up to the next" delimiter
    as section 4.1 of the specification says. *)
Fixpoint find (s : str) (c : ascii) : nat :=
  match s with
  | [] => 0
  | a :: s' => if bool_decide (a = c) then 0 else S (find s' c)
  end.

(** [c in s] for a character [c]. *)
Definition contains (s : str) (c : ascii) : bool := bool_decide (c ∈ s).

(** [s.partition(c)]: the parts before and after the first [c]; the whole
    string and an empty rest when there is none. *)
Definition str_partition (s : str) (c : ascii) : str * str :=
  (take (find s c) s, drop (S (find s c)) s).

(** [s.rpartition(c)]: the parts before and after the last [c]; an empty
    head and the whole string when there is none. *)
Fixpoint str_rpartition (s : str) (c : ascii) : str * str :=
  match s with
  | [] => ([], [])
  | a :: s' =>
      if contains s' c then
        let '(h, t) := str_rpartition s' c in (a :: h, t)
      else if bool_decide (a = c) then ([], s')
      else ([], a :: s')
  end.


(** [sep.join(l)] *)
Fixpoint str_join (sep : str) (l : list str) : str :=
  match l with
  | [] => []
  | [w] => w
  | w :: ws => w ++ sep ++ str_join sep ws
  end.


(** [str(i)] for a non-negative integer. *)
Definition str_of_nat (n : nat) : str := lit (pretty n).

(** ** Exceptions *)

Inductive error :=
  | AssertionError | KeyError | IndexError | ValueError | TypeError
  | AttributeError
  | RecursionError.

Inductive result (A : Type) :=
  | Ok (a : A)
  | Raise (e : error).
Arguments Ok {A} a.
Arguments Raise {A} e.

#[global] Instance result_ret : MRet result := λ A a, Ok a.
#[global] Instance result_bind : MBind result := λ A B f m,
  match m with Ok a => f a | Raise e => Raise e end.

Definition of_option {A} (e : error) (o : option A) : result A :=
  match o with Some a => Ok a | None => Raise e end.

(** [l[i]] with Python's indices: [-len(l) <= i < len(l)]. *)
Definition py_index {A} (l : list A) (i : Z) : result A :=
  if (0 <=? i)%Z then of_option IndexError (l !! Z.to_nat i)
  else if (- Z.of_nat (length l) <=? i)%Z
       then of_option IndexError (l !! Z.to_nat (Z.of_nat (length l) + i))
       else Raise IndexError.

(** [l.index(x)] *)
Fixpoint list_index `{EqDecision A} (l : list A) (x : A) : option nat :=
  match l with
  | [] => None
  | y :: l' => if decide (y = x) then Some 0 else S <$> list_index l' x
  end.

(** [l.remove(x)]: the list without the first occurrence of [x]. *)
Fixpoint list_remove `{EqDecision A} (l : list A) (x : A) : option (list A) :=
  match l with
  | [] => None
  | y :: l' => if decide (y = x) then Some l' else (y ::.) <$> list_remove l' x
  end.

(** ** What the module takes from outside

    Floating-point numbers with their addition, [float(s)] and the text
    [str.format] gives a number, and shapely's [Polygon]. *)
Class Extern := {
  num : Type;
  num_zero : num;
  num_add : num → num → num;
  float : str → option num;
  str_of_num : num → str;
  polygon : Type;
  Polygon : list (num * num) → result polygon;
}.

(** ** The data model *)

(** An object reference: the position of the node in the store. *)
Abbreviation ref := nat.

Section Model.
Context {E : Extern}.

(** An attribute value: what [parse_value] returns. *)
Inductive value :=
  | Number (x : num)
  | Text (s : str).

(** A dict with string keys, in insertion order. *)
Definition dict := list (str * value).

Fixpoint dict_get (d : dict) (k : str) : option value :=
  match d with
  | [] => None
  | (k', v) :: d' => if decide (k' = k) then Some v else dict_get d' k
  end.

Definition dict_mem (d : dict) (k : str) : bool :=
  match dict_get d k with Some _ => true | None => false end.

(** [d[k] = v] *)
Fixpoint dict_set (d : dict) (k : str) (v : value) : dict :=
  match d with
  | [] => [(k, v)]
  | (k', v') :: d' =>
      if decide (k' = k) then (k, v) :: d' else (k', v') :: dict_set d' k v
  end.

End Model.

Module Tree.
(** The attributes of a [Tree] object. *)
Record t {E : Extern} := Node {
  length : num;
  name : str;
  children : list ref;
  parent : option ref;
  attributes : dict;
  _location : option (value * value);
  alignment : list Z;
}.
Arguments t : clear implicits.
Arguments t {E}.
Arguments Node {E} _ _ _ _ _ _ _.
End Tree.

(** The store: the objects, by position. *)
Abbreviation heap := (list Tree.t).

Section Store.
Context {E : Extern}.

(** Store transformers that may raise. *)
Definition M (A : Type) : Type := heap → result (A * heap).

#[global] Instance M_ret : MRet M := λ A a h, Ok (a, h).
#[global] Instance M_bind : MBind M := λ A B f m h,
  match m h with Ok (a, h') => f a h' | Raise e => Raise e end.

Definition raise {A} (e : error) : M A := λ _, Raise e.
Definition lift {A} (r : result A) : M A := λ h,
  match r with Ok a => Ok (a, h) | Raise e => Raise e end.

(** Reading an object; a reference outside the store has no attributes. *)
Definition get (r : ref) : M Tree.t := λ h,
  match h !! r with Some n => Ok (n, h) | None => Raise AttributeError end.

Definition modify (r : ref) (f : Tree.t → Tree.t) : M unit := λ h,
  match h !! r with
  | Some n => Ok (tt, <[r := f n]> h)
  | None => Raise AttributeError
  end.

(** A new object takes the next free position. *)
Definition alloc (n : Tree.t) : M ref := λ h, Ok (length h, h ++ [n]).

(** [for x in l: body(x)] over a list that the body does not replace. *)
Fixpoint for_each {A} (l : list A) (body : A → M unit) : M unit :=
  match l with
  | [] => mret tt
  | x :: l' => body x ;; for_each l' body
  end.

Definition set_length (x : num) (n : Tree.t) : Tree.t :=
  Tree.Node x (Tree.name n) (Tree.children n) (Tree.parent n)
            (Tree.attributes n) (Tree._location n) (Tree.alignment n).
Definition set_children (cs : list ref) (n : Tree.t) : Tree.t :=
  Tree.Node (Tree.length n) (Tree.name n) cs (Tree.parent n)
            (Tree.attributes n) (Tree._location n) (Tree.alignment n).
Definition set_parent (p : option ref) (n : Tree.t) : Tree.t :=
  Tree.Node (Tree.length n) (Tree.name n) (Tree.children n) p
            (Tree.attributes n) (Tree._location n) (Tree.alignment n).
Definition set_location (l : option (value * value)) (n : Tree.t) : Tree.t :=
  Tree.Node (Tree.length n) (Tree.name n) (Tree.children n) (Tree.parent n)
            (Tree.attributes n) l (Tree.alignment n).

End Store.

(** ** The methods of [Tree] *)

Section Methods.
Context {E : Extern}.

Definition node_at (h : heap) (r : ref) : result Tree.t :=
  of_option AttributeError (h !! r).

Fixpoint foldM {A B} (f : B → A → result B) (b : B) (l : list A) : result B :=
  match l with
  | [] => Ok b
  | x :: l' => b' ← f b x; foldM f b' l'
  end.

(** [Tree.__init__]: [children or []], [attributes or {}] and
    [alignment or [0]], then every child is given the new node as its
    parent. An absent argument is the empty list. *)
Definition Tree_init (length : num) (name : str) (children : list ref)
    (parent : option ref) (attributes : dict)
    (location : option (value * value)) (alignment : list Z) : M ref :=
  self ← alloc (Tree.Node length name children parent attributes location
                  (match alignment with [] => [0%Z] | _ => alignment end));
  for_each children (λ child, modify child (set_parent (Some self)));;
  mret self.

(** [Tree.get_subtree] *)
Fixpoint get_subtree (h : heap) (self : ref) (subtree_path : list Z)
    : result ref :=
  match subtree_path with
  | [] => Ok self
  | c_idx :: c_subtree_path =>
      n ← node_at h self;
      c ← py_index (Tree.children n) c_idx;
      get_subtree h c c_subtree_path
  end.

(** [Tree.__getitem__] *)
Definition getitem (n : Tree.t) (key : str) : result value :=
  of_option KeyError (dict_get (Tree.attributes n) key).

(** [Tree.get_location_from_attributes]; the two keys are
    [location_key % 1] and [location_key % 2] once ['%i'] is appended.
    This is what the code computes for a [location_key] without ['%'],
    as the default ['location'] is: there ['%i'] is the only conversion
    of the format and the key is the text followed by the digit. A
    ['%'] in [location_key] is read by the ['%'] operator as a
    conversion of its own, which the model does not follow; the
    properties of the functions that take a key are stated for keys
    without it. *)
Definition get_location_from_attributes (n : Tree.t) (location_key : str)
    : result (option (value * value)) :=
  let key i := location_key ++ str_of_nat i in
  let median_key i := location_key ++ str_of_nat i ++ lit "_median" in
  if dict_mem (Tree.attributes n) (key 1) then
    x ← getitem n (key 1); y ← getitem n (key 2); Ok (Some (x, y))
  else if dict_mem (Tree.attributes n) (median_key 1) then
    x ← getitem n (median_key 1); y ← getitem n (median_key 2);
    Ok (Some (x, y))
  else Ok None.

(** The property [Tree.location] *)
Definition location (n : Tree.t) : result (option (value * value)) :=
  match Tree._location n with
  | Some l => Ok (Some l)
  | None => get_location_from_attributes n (lit "location")
  end.

(** [Tree.tree_size], with a bound on the depth of the recursion. *)
Fixpoint tree_size_rec (fuel : nat) (h : heap) (self : ref) : result nat :=
  match fuel with
  | 0 => Raise RecursionError
  | S f =>
      n ← node_at h self;
      foldM (λ size c, s ← tree_size_rec f h c; Ok (size + s)) 1
            (Tree.children n)
  end.

(** No path of a tree in a store of [length h] objects is longer than
    that, so the bound is reached only when the recursion does not end. *)
Definition tree_size (h : heap) (self : ref) : result nat :=
  tree_size_rec (S (length h)) h self.

(** [Tree.add_child] *)
Definition add_child (self child : ref) : M unit :=
  n ← get self;
  modify self (set_children (Tree.children n ++ [child]));;
  modify child (set_parent (Some self)).







(** [Tree.iter_edges], as the list of the pairs the generator yields. *)
Fixpoint iter_edges_rec (fuel : nat) (h : heap) (self : ref)
    : result (list (ref * ref)) :=
  match fuel with
  | 0 => Raise RecursionError
  | S f =>
      n ← node_at h self;
      foldM (λ acc c, es ← iter_edges_rec f h c; Ok (acc ++ (self, c) :: es))
            [] (Tree.children n)
  end.

Definition iter_edges (h : heap) (self : ref) : result (list (ref * ref)) :=
  iter_edges_rec (S (length h)) h self.

(** [Tree.copy_other_node] *)
Definition copy_other_node (self other : ref) : M unit :=
  o ← get other;
  modify self (λ n, Tree.Node (Tree.length o) (Tree.name o) (Tree.children n)
                      (Tree.parent o) (Tree.attributes o) (Tree._location o)
                      (Tree.alignment o));;
  modify self (set_children []);;
  o' ← get other;
  for_each (Tree.children o') (add_child self).

(** [Tree.remove_nodes_by_name]; the loop runs over a copy of the list of
    children, read before the first removal. *)
Fixpoint remove_nodes_by_name_rec (fuel : nat) (self : ref) (names : list str)
    : M unit :=
  match fuel with
  | 0 => raise RecursionError
  | S f =>
      n ← get self;
      let was_leaf := bool_decide (length (Tree.children n) = 0) in
      for_each (Tree.children n) (λ c,
        cn ← get c;
        if bool_decide (Tree.name cn ∈ names) then
          s ← get self;
          cs ← lift (of_option ValueError (list_remove (Tree.children s) c));
          modify self (set_children cs)
        else remove_nodes_by_name_rec f c names);;
      if was_leaf then mret tt
      else
        s ← get self;
        match Tree.children s with
        | [] =>
            p ← lift (of_option AttributeError (Tree.parent s));
            pn ← get p;
            cs ← lift (of_option ValueError
                         (list_remove (Tree.children pn) self));
            modify p (set_children cs)
        | [c] =>
            match Tree.parent s with
            | None => copy_other_node self c
            | Some p =>
                pn ← get p;
                self_idx ← lift (of_option ValueError
                                   (list_index (Tree.children pn) self));
                modify p (set_children (<[self_idx := c]> (Tree.children pn)))
            end;;
            cn ← get c;
            s' ← get self;
            modify c (set_length (num_add (Tree.length cn) (Tree.length s')))
        | _ => mret tt
        end
  end.

Definition remove_nodes_by_name (self : ref) (names : list str) : M unit :=
  λ h, remove_nodes_by_name_rec (S (length h)) self names h.

(** ['%s' % v] for an attribute value. *)
Definition str_of_value (v : value) : str :=
  match v with
  | Number x => str_of_num x
  | Text s => s
  end.

(** [Tree.to_newick] *)
Fixpoint to_newick_rec (fuel : nat) (h : heap) (self : ref)
    (write_attributes : bool) : result str :=
  match fuel with
  | 0 => Raise RecursionError
  | S f =>
      n ← node_at h self;
      core ← match Tree.children n with
             | [] => Ok (Tree.name n)
             | cs =>
                 children ← mapM (λ c, to_newick_rec f h c write_attributes) cs;
                 Ok (lit "(" ++ str_join (lit ",") children ++ lit ")")
             end;
      let attr_str :=
        match Tree.attributes n with
        | [] => []
        | kvs =>
            if write_attributes then
              lit "[&" ++ str_join (lit ",")
                (map (λ kv, kv.1 ++ lit "=" ++ str_of_value kv.2) kvs)
              ++ lit "]"
            else []
        end in
      Ok (core ++ attr_str ++ lit ":" ++ str_of_num (Tree.length n))
  end.

Definition to_newick (h : heap) (self : ref) (write_attributes : bool)
    : result str :=
  to_newick_rec (S (length h)) h self write_attributes.

(** [Tree.binarize]. The loop runs over [self.children], which the calls
    on the children do not assign. *)
Fixpoint binarize_rec (fuel : nat) (self : ref) : M unit :=
  match fuel with
  | 0 => raise RecursionError
  | S f =>
      n ← get self;
      (if bool_decide (2 < length (Tree.children n)) then
         let new_grandchildren := drop 1 (Tree.children n) in
         loc ← lift (location n);
         new_child ← Tree_init num_zero [] new_grandchildren (Some self)
                       (Tree.attributes n) loc (Tree.alignment n);
         n' ← get self;
         c0 ← lift (of_option IndexError (Tree.children n' !! 0));
         modify self (set_children [c0; new_child])
       else mret tt);;
      n ← get self;
      for_each (Tree.children n) (binarize_rec f)
  end.

Definition binarize (self : ref) : M unit :=
  λ h, binarize_rec (S (length h)) self h.

End Methods.

(** ** The functions of the module *)

Section Functions.
Context {E : Extern}.

(** [node_imbalance]. The sizes are integers, [size / 2] is a true
    division and [np.ceil] its ceiling; the quotient is computed here in
    the rationals, which the floating-point division rounds. *)
Definition node_imbalance (h : heap) (node : ref) : result Q :=
  n ← node_at h node;
  if bool_decide (2 < length (Tree.children n)) then Raise AssertionError
  else if bool_decide (length (Tree.children n) < 2) then Ok 0%Q
  else
    size0 ← tree_size h node;
    if bool_decide (size0 < 4) then Ok 0%Q
    else
      match Tree.children n with
      | [c1; c2] =>
          size ← tree_size h node;
          s1 ← tree_size h c1;
          s2 ← tree_size h c2;
          let bigger := Z.of_nat (s1 `max` s2) in
          let m := Qceiling (inject_Z (Z.of_nat size) / 2) in
          Ok ((inject_Z bigger - inject_Z m)
              / (inject_Z (Z.of_nat size) - inject_Z m - 1))%Q
      | _ => Raise ValueError
      end.

(** [parse_value] *)
Definition parse_value (s : str) : value :=
  match float s with
  | Some x => Number x
  | None => Text s
  end.

(** [parse_length] *)
Definition parse_length (s : str) : result (num * str) :=
  if startswith s (lit ";") then Ok (num_zero, s)
  else if negb (startswith s (lit ":")) then Raise AssertionError
  else
    let s := drop 1 s in
    let end_ := find s "," `min` find s ")" in
    length ← of_option ValueError (float (take end_ s));
    Ok (length, drop end_ s).

(** The [while] loop of [parse_attributes]; every iteration shortens
    [s], which bounds their number. *)
Fixpoint parse_attributes_loop (fuel : nat) (attrs : dict) (k1 s : str)
    : result (dict * str * str) :=
  match fuel with
  | 0 => Raise RecursionError
  | S f =>
      if bool_decide (find s "=" < find s "]") then
        let '(v1_k2, s) := str_partition s "=" in
        let '(v1, k2) := str_rpartition v1_k2 "," in
        parse_attributes_loop f (dict_set attrs k1 (parse_value v1)) k2 s
      else Ok (attrs, k1, s)
  end.

(** [parse_attributes] *)
Definition parse_attributes (s : str) : result (dict * str) :=
  if negb (startswith s (lit "[&")) then Ok ([], s)
  else
    let s := drop 2 s in
    let '(k1, s) := str_partition s "=" in
    '(attrs, k1, s) ← parse_attributes_loop (S (length s)) [] k1 s;
    let '(v1, s) := str_partition s "]" in
    Ok (dict_set attrs k1 (parse_value v1), s).

(** Where the name of a node stops. *)
Definition name_stop (s : str) (with_attributes : bool) : nat :=
  if with_attributes then find s "[" `min` find s ":" else find s ":".

(** The [while] loop of [parse_tree] over the children of an inner node;
    [parse] is the recursive call, [k] bounds the number of children. *)
Fixpoint children_loop (parse : str → M (ref * str)) (k : nat) (s : str)
    (children : list ref) : M (list ref * str) :=
  match k with
  | 0 => raise RecursionError
  | S k' =>
      if startswith s (lit "(") || startswith s (lit ",") then
        '(child, s) ← parse (drop 1 s);
        children_loop parse k' s (children ++ [child])
      else mret (children, s)
  end.

(** The end of [parse_tree], once the name and the children are read:
    the attributes, the length, the node and its location. *)
Definition build_node (name : str) (children : list ref) (s : str)
    (location_key : str) (swap_xy with_attributes : bool) : M (ref * str) :=
  '(attributes, s) ←
    (if with_attributes then lift (parse_attributes s)
     else mret ([], s));
  '(length, s) ← lift (parse_length s);
  tree ← Tree_init length name children None attributes None [];
  n ← get tree;
  loc ← lift (get_location_from_attributes n location_key);
  modify tree (set_location loc);;
  (if swap_xy then
     n ← get tree;
     match Tree._location n with
     | Some (x, y) => modify tree (set_location (Some (y, x)))
     | None => raise TypeError
     end
   else mret tt);;
  mret (tree, s).

(** [parse_tree]. The bound is on the depth of the recursion and on the
    number of children read by the loop. *)
Fixpoint parse_tree_rec (fuel : nat) (s : str) (location_key : str)
    (swap_xy with_attributes : bool) : M (ref * str) :=
  match fuel with
  | 0 => raise RecursionError
  | S f =>
      '(name, children, s) ←
        (if startswith s (lit "(") then
           '(children, s) ←
             children_loop
               (λ s, parse_tree_rec f s location_key swap_xy with_attributes)
               f s [];
           if negb (startswith s (lit ")")) then raise AssertionError
           else
             let s := drop 1 s in
             match s with
             | [] => raise IndexError
             | c :: _ =>
                 if contains (lit ":[);") c then mret ([], children, s)
                 else
                   let stop := name_stop s with_attributes in
                   mret (take stop s, children, drop stop s)
             end
         else
           let stop := name_stop s with_attributes in
           mret (take stop s, [], drop stop s));
      build_node name children s location_key swap_xy with_attributes
  end.

Definition parse_tree (s : str) (location_key : str)
    (swap_xy with_attributes : bool) : M (ref * str) :=
  parse_tree_rec (S (length s)) s location_key swap_xy with_attributes.

End Functions.

(** ** Trees in the store

    The shape of the part of the store that is reachable from a node,
    when that part is a tree: the reference of the node and the shapes
    under its children, in their order. *)

Inductive rtree := RT (r : ref) (cs : list rtree).

Definition root (t : rtree) : ref := match t with RT r _ => r end.
Definition subtrees (t : rtree) : list rtree := match t with RT _ cs => cs end.

Fixpoint size (t : rtree) : nat :=
  match t with RT _ cs => S (sum_list (size <$> cs)) end.

Fixpoint depth (t : rtree) : nat :=
  match t with RT _ cs => S (max_list (depth <$> cs)) end.

(** The nodes in the order of [iter_descendants]. *)
Fixpoint refs (t : rtree) : list ref :=
  match t with RT r cs => r :: concat (refs <$> cs) end.

(** The edges, depth first. *)
Fixpoint edges (t : rtree) : list (ref * ref) :=
  match t with
  | RT r cs => concat ((λ c, (r, root c) :: edges c) <$> cs)
  end.

(** Every node has at most two children. *)
Fixpoint binary (t : rtree) : Prop :=
  match t with
  | RT _ cs => length cs ≤ 2 ∧ foldr (λ c P, binary c ∧ P) True cs
  end.

Section Shapes.
Context {E : Extern}.

(** The store holds [t]: every node of [t] is an object whose children
    are the roots of the subtrees, in their order. *)
Inductive shape (h : heap) : rtree → Prop :=
  | shape_node r n cs :
      h !! r = Some n →
      Tree.children n = root <$> cs →
      Forall (shape h) cs →
      shape h (RT r cs).

(** A tree: no object occurs twice. *)
Definition is_tree (h : heap) (t : rtree) : Prop :=
  shape h t ∧ NoDup (refs t).

(** The invariant of the data model: every child of a node of [t] has
    that node as its parent. *)
Inductive parents_ok (h : heap) : rtree → Prop :=
  | parents_ok_node r cs :
      Forall (λ c, ∃ n, h !! root c = Some n ∧ Tree.parent n = Some r) cs →
      Forall (parents_ok h) cs →
      parents_ok h (RT r cs).

(** No reference dangles. *)
Definition closed (h : heap) : Prop :=
  ∀ r n c, h !! r = Some n → c ∈ Tree.children n → c < length h.

(** Python's bounds of the index [i] of a list of [len] elements, and the
    position it denotes. *)
Definition in_bounds (i : Z) (len : nat) : Prop :=
  (- Z.of_nat len ≤ i < Z.of_nat len)%Z.

Definition position (i : Z) (len : nat) : nat :=
  Z.to_nat (i `mod` Z.of_nat len).

(** Every index of the path is within the bounds of the list of children
    it is applied to. *)
Fixpoint path_in_bounds (h : heap) (n : ref) (path : list Z) : Prop :=
  match path with
  | [] => True
  | i :: rest =>
      ∃ node c, h !! n = Some node
        ∧ in_bounds i (length (Tree.children node))
        ∧ Tree.children node !! position i (length (Tree.children node)) = Some c
        ∧ path_in_bounds h c rest
  end.

End Shapes.

(** ** What [binarize] does to a shape

    [Bin n t t' n']: [binarize] turns the shape [t] into [t'] when the
    next free position of the store is [n], and leaves [n'] as the next
    free position. A node with more than two children keeps the first
    and gets the new node [n], over the other children, as the second. *)
Inductive Bin : nat → rtree → rtree → nat → Prop :=
  | Bin_leaf r n : Bin n (RT r []) (RT r []) n
  | Bin_one r c c' n n' :
      Bin n c c' n' → Bin n (RT r [c]) (RT r [c']) n'
  | Bin_two r c1 c2 c1' c2' n n1 n2 :
      Bin n c1 c1' n1 → Bin n1 c2 c2' n2 →
      Bin n (RT r [c1; c2]) (RT r [c1'; c2']) n2
  | Bin_more r c0 rest c0' s' n n1 n2 :
      2 ≤ length rest →
      Bin (S n) c0 c0' n1 → Bin n1 (RT n rest) s' n2 →
      Bin n (RT r (c0 :: rest)) (RT r [c0'; s']) n2.

(** The subtrees of a shape, itself first. *)
Fixpoint nodes (t : rtree) : list rtree :=
  match t with RT r cs => RT r cs :: concat (nodes <$> cs) end.

(** The shape with every node at a position from [fresh] on merged into
    its parent: its children take its place. *)
Fixpoint contract (fresh : nat) (t : rtree) : rtree :=
  match t with
  | RT r cs =>
      RT r (concat ((λ c, if decide (fresh ≤ root c)
                          then subtrees (contract fresh c)
                          else [contract fresh c]) <$> cs))
  end.

Section Binarized.
Context {E : Extern}.

(** Two objects that differ at most in their children and parent. *)
Definition same_data (n n' : Tree.t) : Prop :=
  set_children [] (set_parent None n) = set_children [] (set_parent None n').

(** What [binarize] needs of a node with more than two children: its
    location can be read. *)
Definition loc_cond (n : Tree.t) : Prop :=
  2 < length (Tree.children n) → ∃ l, location n = Ok l.

Definition locs_ok (h : heap) (t : rtree) : Prop :=
  ∀ x n, x ∈ refs t → h !! x = Some n → loc_cond n.

(** The node [m] that [binarize] puts under the node [pn]. *)
Definition inherits (pn m : Tree.t) : Prop :=
  Tree.length m = num_zero ∧ Tree.name m = [] ∧
  Tree.attributes m = Tree.attributes pn ∧
  location m = location pn ∧
  Tree.alignment m
  = match Tree.alignment pn with [] => [0%Z] | _ => Tree.alignment pn end.

(** Every node of [t] at a position from [a] on is as [binarize] makes
    it from its parent. *)
Definition synth_ok (a : nat) (h : heap) (t : rtree) : Prop :=
  ∀ s c, s ∈ nodes t → c ∈ subtrees s → a ≤ root c →
    ∃ pn m, h !! root s = Some pn ∧ h !! root c = Some m ∧ inherits pn m.

(** How [binarize] changes the store when it is called at the root of
    [t]: the objects keep their data, those outside [t] are as they
    were, and the root keeps its parent. *)
Definition evolves (h : heap) (t : rtree) (h' : heap) : Prop :=
  ∀ x n, h !! x = Some n →
    ∃ n', h' !! x = Some n' ∧ same_data n n' ∧
      (x ∉ refs t → n' = n) ∧
      (x = root t → Tree.parent n' = Tree.parent n).

Definition bin_post (h : heap) (t : rtree) (h' : heap) (t' : rtree) : Prop :=
  Bin (length h) t t' (length h') ∧ shape h' t' ∧ evolves h t h' ∧
  synth_ok (length h) h' t' ∧ (parents_ok h t → parents_ok h' t').

(** What is shown of [binarize_rec] with the bound [f]. *)
Definition bin_spec (f : nat) : Prop :=
  ∀ t h, size t ≤ f → shape h t → NoDup (refs t) → locs_ok h t →
    ∃ h' t', binarize_rec f (root t) h = Ok (tt, h') ∧ bin_post h t h' t'.

End Binarized.

(** ** What the serializer writes and the parser builds *)

Section Newick.
Context {E : Extern}.

(** The text of [to_newick] without attributes, by the shape. *)
Fixpoint render (h : heap) (t : rtree) : str :=
  match t with
  | RT r cs =>
      match h !! r with
      | Some n =>
          match cs with
          | [] => Tree.name n
          | _ => lit "(" ++ str_join (lit ",") (render h <$> cs) ++ lit ")"
          end ++ lit ":" ++ str_of_num (Tree.length n)
      | None => []
      end
  end.

(** The name of every leaf can be read back: it holds no [':'] and no
    ['['] and does not start with ['(']. *)
Definition name_ok (name : str) : Prop :=
  (":" ∉ name) ∧ ("[" ∉ name) ∧ ¬ ∃ s, name = "(" :: s.

Definition names_ok (h : heap) (t : rtree) : Prop :=
  ∀ s n, s ∈ nodes t → subtrees s = [] → h !! root s = Some n →
    name_ok (Tree.name n).

(** The text of every length can be read back. *)
Definition num_ok (x : num) : Prop :=
  float (str_of_num x) = Some x
  ∧ ("," ∉ str_of_num x) ∧ (")" ∉ str_of_num x).

Definition nums_ok (h : heap) (t : rtree) : Prop :=
  ∀ x n, x ∈ refs t → h !! x = Some n → num_ok (Tree.length n).

(** [t'] in [h'] has the topology and the lengths of [t] in [h], and no
    attributes. *)
Inductive mirrors (h : heap) (h' : heap) : rtree → rtree → Prop :=
  | mirrors_node r cs n r' cs' n' :
      h !! r = Some n → h' !! r' = Some n' →
      Tree.length n' = Tree.length n →
      Tree.attributes n' = [] →
      Forall2 (mirrors h h') cs cs' →
      mirrors h h' (RT r cs) (RT r' cs').

(** What parsing the text of [t] builds from the store [h0]. *)
Definition built (h : heap) (t : rtree) (h0 h0' : heap) (t' : rtree) : Prop :=
  (∀ x, x < length h0 → h0' !! x = h0 !! x) ∧
  shape h0' t' ∧ NoDup (refs t') ∧
  Forall (λ x, length h0 ≤ x < length h0') (refs t') ∧
  mirrors h h0' t t' ∧ parents_ok h0' t'.

End Newick.

(** Where a number stops: at the end of the text, at a comma or at a
    closing parenthesis. *)
Definition delimited (rest : str) : Prop :=
  rest = [] ∨ ∃ r, rest = "," :: r ∨ rest = ")" :: r.

(** ** The rest of the module *)

Section Traversal.
Context {E : Extern}.

(** The property [Tree.height], with a bound on the depth of the
    recursion along the parents. *)
Fixpoint height_rec (fuel : nat) (h : heap) (self : ref) : result num :=
  match fuel with
  | 0 => Raise RecursionError
  | S f =>
      n ← node_at h self;
      match Tree.parent n with
      | None => Ok (Tree.length n)
      | Some p => hp ← height_rec f h p; Ok (num_add hp (Tree.length n))
      end
  end.

Definition height (h : heap) (self : ref) : result num :=
  height_rec (S (length h)) h self.

(** [Tree.is_leaf] *)
Definition is_leaf (n : Tree.t) : bool :=
  bool_decide (length (Tree.children n) = 0).

(** [Tree.n_leafs] *)
Fixpoint n_leafs_rec (fuel : nat) (h : heap) (self : ref) : result nat :=
  match fuel with
  | 0 => Raise RecursionError
  | S f =>
      n ← node_at h self;
      foldM (λ size c, s ← n_leafs_rec f h c; Ok (size + s))
            (if is_leaf n then 1 else 0) (Tree.children n)
  end.

Definition n_leafs (h : heap) (self : ref) : result nat :=
  n_leafs_rec (S (length h)) h self.

(** [Tree.iter_descendants], as the list of the nodes the generator
    yields. *)
Fixpoint iter_descendants_rec (fuel : nat) (h : heap) (self : ref)
    : result (list ref) :=
  match fuel with
  | 0 => Raise RecursionError
  | S f =>
      n ← node_at h self;
      foldM (λ acc c, ds ← iter_descendants_rec f h c; Ok (acc ++ ds))
            [self] (Tree.children n)
  end.

Definition iter_descendants (h : heap) (self : ref) : result (list ref) :=
  iter_descendants_rec (S (length h)) h self.

(** [Tree.iter_leafs] *)
Fixpoint iter_leafs_rec (fuel : nat) (h : heap) (self : ref)
    : result (list ref) :=
  match fuel with
  | 0 => Raise RecursionError
  | S f =>
      n ← node_at h self;
      foldM (λ acc c, ls ← iter_leafs_rec f h c; Ok (acc ++ ls))
            (if is_leaf n then [self] else []) (Tree.children n)
  end.

Definition iter_leafs (h : heap) (self : ref) : result (list ref) :=
  iter_leafs_rec (S (length h)) h self.

(** [min(l, key=key)] and [max(l, key=key)] once the first element is
    read: a later element replaces the best one only when its key is
    strictly smaller (larger), so the first of the best ones is
    returned. *)
Fixpoint min_by (key : ref → result nat) (best : ref) (kbest : nat)
    (l : list ref) : result ref :=
  match l with
  | [] => Ok best
  | c :: l' =>
      k ← key c;
      if bool_decide (k < kbest) then min_by key c k l'
      else min_by key best kbest l'
  end.

Fixpoint max_by (key : ref → result nat) (best : ref) (kbest : nat)
    (l : list ref) : result ref :=
  match l with
  | [] => Ok best
  | c :: l' =>
      k ← key c;
      if bool_decide (kbest < k) then max_by key c k l'
      else max_by key best kbest l'
  end.

(** [Tree.small_child]; [min] of an empty list is a [ValueError]. *)
Definition small_child (h : heap) (self : ref) : result ref :=
  n ← node_at h self;
  match Tree.children n with
  | [] => Raise ValueError
  | c :: cs => k ← tree_size h c; min_by (tree_size h) c k cs
  end.

(** [Tree.big_child] *)
Definition big_child (h : heap) (self : ref) : result ref :=
  n ← node_at h self;
  match Tree.children n with
  | [] => Raise ValueError
  | c :: cs => k ← tree_size h c; max_by (tree_size h) c k cs
  end.

End Traversal.

Section Statistics.
Context {E : Extern}.

(** The list [[node_imbalance(n) for n in root.iter_descendants()]]: the
    comprehension takes a node from the generator and computes its
    imbalance before it takes the next one. *)
Fixpoint node_imbalances_rec (fuel : nat) (h : heap) (self : ref)
    : result (list Q) :=
  match fuel with
  | 0 => Raise RecursionError
  | S f =>
      q ← node_imbalance h self;
      n ← node_at h self;
      foldM (λ acc c, qs ← node_imbalances_rec f h c; Ok (acc ++ qs))
            [q] (Tree.children n)
  end.

(** [sum(qs)] in the rationals. *)
Definition Qsum (qs : list Q) : Q := foldr Qplus 0%Q qs.

(** [tree_imbalance]: [np.mean] of the list, computed here in the
    rationals as [node_imbalance] is. *)
Definition tree_imbalance (h : heap) (root : ref) : result Q :=
  node_imbalances ← node_imbalances_rec (S (length h)) h root;
  Ok (Qsum node_imbalances / inject_Z (Z.of_nat (length node_imbalances)))%Q.

End Statistics.

(** The leaves of a shape, in the order of [iter_leafs]. *)
Fixpoint leaves (t : rtree) : list ref :=
  match t with
  | RT r cs => (match cs with [] => [r] | _ => [] end) ++ concat (leaves <$> cs)
  end.

Section Leaves.
Context {E : Extern}.

(** The object at [x] is a leaf. *)
Definition leaf_at (h : heap) (x : ref) : bool :=
  match h !! x with Some n => is_leaf n | None => false end.

End Leaves.

Section Attributes.
Context {E : Extern}.

(** The text [to_newick] writes for the attributes of a node. *)
Definition attr_str (kvs : dict) : str :=
  match kvs with
  | [] => []
  | _ =>
      lit "[&" ++ str_join (lit ",")
        (map (λ kv, kv.1 ++ lit "=" ++ str_of_value kv.2) kvs)
      ++ lit "]"
  end.

(** A key that [parse_attributes] reads back: it holds none of ['='],
    [']'] and [',']. *)
Definition key_ok (k : str) : Prop := ("=" ∉ k) ∧ ("]" ∉ k) ∧ ("," ∉ k).

(** A value that [parse_attributes] reads back: its text holds neither
    ['='] nor [']'], and [parse_value] of the text is the value. *)
Definition value_ok (v : value) : Prop :=
  ("=" ∉ str_of_value v) ∧ ("]" ∉ str_of_value v) ∧
  parse_value (str_of_value v) = v.

Definition attrs_ok (kvs : dict) : Prop :=
  NoDup kvs.*1 ∧ Forall key_ok kvs.*1 ∧ Forall value_ok kvs.*2.

End Attributes.

Section Parsed.
Context {E : Extern}.

(** A node as [parse_tree] leaves it: the default alignment, no
    attributes when they are not parsed, and the location read from the
    attributes, with its axes exchanged under [swap_xy], which needs a
    location. *)
Definition node_parsed (key : str) (swap_xy wa : bool) (n : Tree.t) : Prop :=
  Tree.alignment n = [0%Z] ∧ (wa = false → Tree.attributes n = []) ∧
  ∃ loc, get_location_from_attributes n key = Ok loc ∧
    Tree._location n = (if swap_xy then prod_swap <$> loc else loc) ∧
    (swap_xy = true → loc ≠ None).

(** What [parse_tree] builds from the store [h0], whatever the text. *)
Definition parsed (key : str) (swap_xy wa : bool) (h0 h0' : heap)
    (t' : rtree) : Prop :=
  (∀ x, x < length h0 → h0' !! x = h0 !! x) ∧
  shape h0' t' ∧ NoDup (refs t') ∧
  Forall (λ x, length h0 ≤ x < length h0') (refs t') ∧
  parents_ok h0' t' ∧
  (∀ x n, x ∈ refs t' → h0' !! x = Some n → node_parsed key swap_xy wa n).

End Parsed.

(** ** What [remove_nodes_by_name] does where it has nothing to
    collapse

    The shape without the subtrees whose root is not kept. *)
Fixpoint prune (keep : ref → bool) (t : rtree) : rtree :=
  match t with
  | RT r cs =>
      RT r (omap (λ c, if keep (root c) then Some (prune keep c) else None) cs)
  end.

(** No kept node is left with one child or, having had children,
    without any. *)
Fixpoint prunable (keep : ref → bool) (t : rtree) : Prop :=
  match t with
  | RT r cs =>
      (cs = [] ∨ 2 ≤ length (filter (λ c, keep (root c) = true) cs)) ∧
      foldr (λ c P, (keep (root c) = true → prunable keep c) ∧ P) True cs
  end.

Section Removal.
Context {E : Extern}.

(** The nodes that [remove_nodes_by_name] keeps: those whose name is not
    one of [names]. *)
Definition kept (names : list str) (h : heap) (x : ref) : bool :=
  match h !! x with
  | Some n => negb (bool_decide (Tree.name n ∈ names))
  | None => false
  end.

(** The store in which every node of [X] has lost the children that are
    not kept. *)
Definition pruned (keep : ref → bool) (X : list ref) (h : heap) : heap :=
  imap (λ x n, if bool_decide (x ∈ X)
               then set_children (filter (λ c, keep c = true) (Tree.children n)) n
               else n) h.

End Removal.

Section RoundTrip.
Context {E : Extern}.





End RoundTrip.

(** ** A concrete instance, for examples

    Numbers are the naturals written in decimal; a polygon is the list
    of its vertices. *)

Definition digit_of (c : ascii) : option nat :=
  let n := nat_of_ascii c in
  if (48 <=? n) && (n <=? 57) then Some (n - 48) else None.

Fixpoint nat_of_digits (acc : nat) (s : str) : option nat :=
  match s with
  | [] => Some acc
  | c :: s' => d ← digit_of c; nat_of_digits (10 * acc + d) s'
  end.

Definition nat_of_str (s : str) : option nat :=
  match s with [] => None | _ => nat_of_digits 0 s end.

Definition decimal : Extern := {|
  num := nat;
  num_zero := 0;
  num_add := Nat.add;
  float := nat_of_str;
  str_of_num := str_of_nat;
  polygon := list (nat * nat);
  Polygon := Ok;
|}.

(** A node without attributes, as [Tree(length, name, children)] leaves
    it once its parent is set. *)
Definition mk (length : nat) (name : string) (children : list ref)
    (parent : option ref) : Tree.t (E := decimal) :=
  Tree.Node (E := decimal) length (lit name) children parent [] None [0%Z].

(** The perfectly balanced binary tree with seven nodes. *)
Definition balanced7 : list (Tree.t (E := decimal)) :=
  [ mk 0 "" [1; 4] None;
    mk 1 "" [2; 3] (Some 0); mk 1 "a" [] (Some 1); mk 1 "b" [] (Some 1);
    mk 1 "" [5; 6] (Some 0); mk 1 "c" [] (Some 4); mk 1 "d" [] (Some 4) ].

Definition balanced7_shape : rtree :=
  RT 0 [RT 1 [RT 2 []; RT 3 []]; RT 4 [RT 5 []; RT 6 []]].

(** [(a:1,(c:3,d:4):2):0]: a root with a leaf and an inner node of two
    leaves. *)
Definition prune_inner : list (Tree.t (E := decimal)) :=
  [ mk 0 "" [1; 2] None;
    mk 1 "a" [] (Some 0);
    mk 2 "" [3; 4] (Some 0); mk 3 "c" [] (Some 2); mk 4 "d" [] (Some 2) ].

Definition prune_inner_shape : rtree :=
  RT 0 [RT 1 []; RT 2 [RT 3 []; RT 4 []]].

(** [((c:1,d:1)x:3,b:1)r:5]: a root of length 5 with an inner node of
    length 3 and a leaf. *)
Definition prune_root : list (Tree.t (E := decimal)) :=
  [ mk 5 "r" [1; 2] None;
    mk 3 "x" [3; 4] (Some 0); mk 1 "b" [] (Some 0);
    mk 1 "c" [] (Some 1); mk 1 "d" [] (Some 1) ].

Definition prune_root_shape : rtree :=
  RT 0 [RT 1 [RT 3 []; RT 4 []]; RT 2 []].

(** A root with three leaves whose attributes hold the first axis of a
    location and not the second:
    [Tree(0, children=[a, b, c], attributes={'location1': 1})]. *)
Definition half_located : list (Tree.t (E := decimal)) :=
  [ Tree.Node (E := decimal) 0 [] [1; 2; 3] None
      [(lit "location1", Number (E := decimal) 1)] None [0%Z];
    mk 1 "a" [] (Some 0); mk 1 "b" [] (Some 0); mk 1 "c" [] (Some 0) ].

(** A root with three leaves whose alignment was set to the empty
    list. *)
Definition unaligned : list (Tree.t (E := decimal)) :=
  [ Tree.Node (E := decimal) 0 [] [1; 2; 3] None [] None [];
    mk 1 "a" [] (Some 0); mk 1 "b" [] (Some 0); mk 1 "c" [] (Some 0) ].

Definition three_leaves_shape : rtree := RT 0 [RT 1 []; RT 2 []; RT 3 []].

(** [(a:1,b:1,c:1,d:1):0]: a root with four leaves. *)
Definition four_leaves : list (Tree.t (E := decimal)) :=
  [ mk 0 "" [1; 2; 3; 4] None;
    mk 1 "a" [] (Some 0); mk 1 "b" [] (Some 0); mk 1 "c" [] (Some 0);
    mk 1 "d" [] (Some 0) ].

Definition four_leaves_shape : rtree :=
  RT 0 [RT 1 []; RT 2 []; RT 3 []; RT 4 []].

(** A single leaf whose name reads as a subtree:
    [Tree(1, name='(a:1,b:2)')]. *)
Definition odd_name : list (Tree.t (E := decimal)) :=
  [ mk 1 "(a:1,b:2)" [] None ].

(** A node with one polygon of the 95% region among its attributes. *)
Definition with_hpd : list (Tree.t (E := decimal)) :=
  [ Tree.Node (E := decimal) 0 [] [] None
      [ (lit "location1_95%hpd_1", Text (E := decimal) (lit "{0,0,10,10}"));
        (lit "location2_95%hpd_1", Text (E := decimal) (lit "{0,10,10,0}")) ]
      None [0%Z] ].


(** Two trees in one store: [(a:1)r:0] and [(b:1)s:2]. *)
Definition forest : list (Tree.t (E := decimal)) :=
  [ mk 0 "r" [1] None; mk 1 "a" [] (Some 0);
    mk 2 "s" [3] None; mk 1 "b" [] (Some 2) ].



(** * Properties *)

Section Properties.
Context {E : Extern}.

Lemma rtree_ind' (P : rtree → Prop) :
  (∀ r cs, Forall P cs → P (RT r cs)) → ∀ t, P t.
Proof.
  intros IH. fix go 1. intros [r cs]. apply IH.
  induction cs as [|c cs IHcs]; constructor; [apply go | exact IHcs].
Qed.

Lemma result_bind_ok {A B} (m : result A) (f : A → result B) a :
  m = Ok a → (m ≫= f) = f a.
Proof. by intros ->. Qed.

Lemma shape_lookup h t :
  shape h t → ∃ n, h !! root t = Some n ∧ Tree.children n = root <$> subtrees t.
Proof. destruct 1; eauto. Qed.

Lemma shape_subtrees h t : shape h t → Forall (shape h) (subtrees t).
Proof. by destruct 1. Qed.

Lemma refs_lt h t : shape h t → Forall (λ r, r < length h) (refs t).
Proof.
  induction t as [r cs IH] using rtree_ind'. inversion 1; subst. simpl.
  constructor; [by eapply lookup_lt_Some|].
  apply Forall_concat, Forall_fmap.
  rewrite Forall_forall in IH. rewrite Forall_forall in *. intros c Hc.
  simpl. apply IH; auto.
Qed.

Lemma length_refs t : length (refs t) = size t.
Proof.
  induction t as [r cs IH] using rtree_ind'. simpl. f_equal.
  induction IH as [|c cs Hc _ IHcs]; csimpl; [done|].
  rewrite length_app, Hc, IHcs. done.
Qed.

Lemma size_pos t : 0 < size t.
Proof. destruct t. simpl. lia. Qed.

Lemma depth_le_size t : depth t ≤ size t.
Proof.
  induction t as [r cs IH] using rtree_ind'. simpl.
  apply le_n_S. induction IH as [|c cs Hc _ IHcs]; csimpl; lia.
Qed.

Lemma size_le_heap h t : is_tree h t → size t ≤ length h.
Proof.
  intros [Hs Hnd]. rewrite <- length_refs.
  transitivity (length (seq 0 (length h))); [|by rewrite length_seq].
  apply submseteq_length, NoDup_submseteq; [done|].
  intros x Hx. apply elem_of_seq.
  apply refs_lt in Hs. rewrite Forall_forall in Hs. apply Hs in Hx. lia.
Qed.

Lemma depth_lt_heap h t : is_tree h t → depth t < S (length h).
Proof.
  intros Ht. apply size_le_heap in Ht. pose proof (depth_le_size t). lia.
Qed.

(** *** Reading a tree: [tree_size] and [iter_edges] *)

Lemma node_at_shape h t :
  shape h t →
  ∃ n, node_at h (root t) = Ok n ∧ Tree.children n = root <$> subtrees t.
Proof.
  intros (n & Hn & Hcs)%shape_lookup. exists n. unfold node_at. by rewrite Hn.
Qed.

Lemma foldM_sizes (g : ref → result nat) cs acc :
  Forall (λ c, g (root c) = Ok (size c)) cs →
  foldM (λ size c, s ← g c; Ok (size + s)) acc (root <$> cs)
  = Ok (acc + sum_list (size <$> cs)).
Proof.
  intros Hcs. revert acc. induction Hcs as [|c cs Hc _ IH]; intros acc; csimpl.
  - f_equal. lia.
  - rewrite Hc. simpl. rewrite IH. f_equal. lia.
Qed.

Lemma tree_size_rec_ok h t fuel :
  shape h t → depth t ≤ fuel → tree_size_rec fuel h (root t) = Ok (size t).
Proof.
  revert fuel. induction t as [r cs IH] using rtree_ind'.
  intros [|f] Hs Hd; [simpl in Hd; lia|].
  destruct (node_at_shape _ _ Hs) as (n & Hn & Hcs).
  apply shape_subtrees in Hs. simpl in *. rewrite Hn. simpl. rewrite Hcs.
  apply le_S_n in Hd. rewrite foldM_sizes; [done|].
  rewrite Forall_forall in *. intros c Hc. apply IH; auto.
  assert (depth c ≤ max_list (depth <$> cs)); [|lia].
  apply max_list_elem_of_le. by apply list_elem_of_fmap_2.
Qed.

Lemma tree_size_ok h t : is_tree h t → tree_size h (root t) = Ok (size t).
Proof.
  intros Ht. apply tree_size_rec_ok; [apply Ht|].
  apply depth_lt_heap in Ht. lia.
Qed.

Lemma foldM_edges (g : ref → result (list (ref * ref))) r cs acc :
  Forall (λ c, g (root c) = Ok (edges c)) cs →
  foldM (λ acc c, es ← g c; Ok (acc ++ (r, c) :: es)) acc (root <$> cs)
  = Ok (acc ++ edges (RT r cs)).
Proof.
  intros Hcs. revert acc. induction Hcs as [|c cs Hc _ IH]; intros acc; csimpl.
  - by rewrite app_nil_r.
  - rewrite Hc. simpl. rewrite IH. simpl. by rewrite <- !app_assoc.
Qed.

Lemma depth_subtree c cs : c ∈ cs → depth c ≤ max_list (depth <$> cs).
Proof. intros. apply max_list_elem_of_le. by apply list_elem_of_fmap_2. Qed.

Lemma iter_edges_rec_ok h t fuel :
  shape h t → depth t ≤ fuel → iter_edges_rec fuel h (root t) = Ok (edges t).
Proof.
  revert fuel. induction t as [r cs IH] using rtree_ind'.
  intros [|f] Hs Hd; [simpl in Hd; lia|].
  destruct (node_at_shape _ _ Hs) as (n & Hn & Hcs).
  apply shape_subtrees in Hs. simpl in Hs, Hd, Hn, Hcs.
  apply le_S_n in Hd. simpl iter_edges_rec. rewrite Hn. simpl. rewrite Hcs.
  rewrite foldM_edges; [done|].
  rewrite Forall_forall in *. intros c Hc. apply IH; auto.
  pose proof (depth_subtree _ _ Hc). lia.
Qed.

Lemma refs_root_tail t : refs t = root t :: tail (refs t).
Proof. by destruct t. Qed.

Lemma edges_snd t : (edges t).*2 = tail (refs t).
Proof.
  induction t as [r cs IH] using rtree_ind'. simpl.
  induction IH as [|c cs Hc _ IHcs]; csimpl; [done|].
  rewrite fmap_app. csimpl. rewrite Hc, IHcs. by rewrite (refs_root_tail c) at 2.
Qed.

Lemma elem_of_concat {A} (x : A) (ls : list (list A)) :
  x ∈ concat ls ↔ ∃ l, x ∈ l ∧ l ∈ ls.
Proof.
  induction ls as [|l ls IH]; simpl.
  - split; [by intros ?%elem_of_nil|]. by intros (? & _ & ?%elem_of_nil).
  - rewrite elem_of_app, IH. split.
    + intros [?|(l' & ? & ?)]; [exists l|exists l']; split; auto; by constructor.
    + intros (l' & ? & [->|?]%elem_of_cons); eauto.
Qed.

Lemma edges_sound h t p c :
  shape h t → (p, c) ∈ edges t →
  p ∈ refs t ∧ ∃ n, h !! p = Some n ∧ c ∈ Tree.children n.
Proof.
  induction t as [r cs IH] using rtree_ind'. inversion 1; subst. simpl.
  rewrite elem_of_cons.
  intros (l & Hin & (c' & -> & Hc')%list_elem_of_fmap)%elem_of_concat.
  apply elem_of_cons in Hin as [[= -> ->]|Hin].
  - split; [by left|]. exists n. split; [done|]. rewrite H3.
    by apply list_elem_of_fmap_2.
  - rewrite Forall_forall in IH. rewrite Forall_forall in H4.
    destruct (IH c' Hc' (H4 c' Hc') Hin) as [Hp Hn]. split; [|done].
    right. apply elem_of_concat. exists (refs c'). split; [done|].
    by apply list_elem_of_fmap_2.
Qed.

Lemma edges_complete h t p n c :
  shape h t → p ∈ refs t → h !! p = Some n → c ∈ Tree.children n →
  (p, c) ∈ edges t.
Proof.
  induction t as [r cs IH] using rtree_ind'. inversion 1; subst. simpl.
  rewrite elem_of_cons. intros [->|Hin] Hn Hc.
  - assert (n = n0) as -> by congruence. rewrite H3 in Hc.
    apply list_elem_of_fmap in Hc as (c' & -> & Hc').
    apply elem_of_concat. exists ((r, root c') :: edges c').
    split; [by left|]. by apply (list_elem_of_fmap_2 (λ c, (r, root c) :: edges c)).
  - apply elem_of_concat in Hin as (l & Hp & (c' & -> & Hc')%list_elem_of_fmap).
    rewrite Forall_forall in IH. rewrite Forall_forall in H4.
    apply elem_of_concat. exists ((r, root c') :: edges c').
    split; [right; by apply IH; auto|].
    by apply (list_elem_of_fmap_2 (λ c, (r, root c) :: edges c)).
Qed.

(** C10: on a tree, [iter_edges] yields [tree_size - 1] pairs of a node
    and one of its children, in the order of a depth-first traversal
    (the second components are the nodes after the root in the order of
    [iter_descendants]), and every child of every node is the second
    component of exactly one pair. *)
Theorem iter_edges_tree h t :
  is_tree h t →
  ∃ es sz,
    iter_edges h (root t) = Ok es ∧ tree_size h (root t) = Ok sz ∧
    length es = sz - 1 ∧
    (∀ p c, (p, c) ∈ es →
       p ∈ refs t ∧ ∃ n, h !! p = Some n ∧ c ∈ Tree.children n) ∧
    es = edges t ∧ es.*2 = tail (refs t) ∧
    NoDup es.*2 ∧
    (∀ p n c, p ∈ refs t → h !! p = Some n → c ∈ Tree.children n →
       (p, c) ∈ es).
Proof.
  intros Ht. exists (edges t), (size t).
  pose proof (depth_lt_heap _ _ Ht) as Hd. destruct Ht as [Hs Hnd].
  split; [apply iter_edges_rec_ok; [done|lia]|].
  split; [by apply tree_size_ok|].
  split.
  { rewrite <- (length_fmap snd), edges_snd, <- length_refs.
    rewrite (refs_root_tail t) at 2. simpl. lia. }
  split; [intros p c; by apply edges_sound|].
  split; [done|]. split; [apply edges_snd|].
  split.
  { rewrite edges_snd. rewrite refs_root_tail in Hnd.
    by apply NoDup_cons in Hnd as [_ ?]. }
  intros p n c. by apply edges_complete.
Qed.

(** *** [get_subtree] *)

Lemma py_index_ok {A} (l : list A) i c :
  py_index l i = Ok c ↔
  in_bounds i (length l) ∧ l !! position i (length l) = Some c.
Proof.
  unfold py_index, in_bounds, position.
  destruct (Z.leb_spec 0 i) as [Hi|Hi].
  - destruct (l !! Z.to_nat i) as [x|] eqn:Hx; simpl.
    + apply lookup_lt_Some in Hx as Hlt.
      rewrite Z.mod_small by lia. rewrite Hx. split; [intros [= ->]|intros [_ [= ->]]]; [|done].
      split; [lia|done].
    + split; [done|]. intros [Hb Hc]. rewrite Z.mod_small in Hc by lia. congruence.
  - destruct (Z.leb_spec (- Z.of_nat (length l)) i) as [Hl|Hl].
    + assert (i `mod` Z.of_nat (length l) = Z.of_nat (length l) + i)%Z as ->.
      { symmetry. apply (Z.mod_unique _ _ (-1)); lia. }
      destruct (l !! _) as [x|]; simpl; split; try done.
      * intros [= ->]. split; [lia|done].
      * by intros [_ [= ->]].
      * by intros [_ ?].
    + split; [done|]. lia.
Qed.

Lemma py_index_out {A} (l : list A) i :
  ¬ in_bounds i (length l) → py_index l i = Raise IndexError.
Proof.
  intros Hb. destruct (py_index l i) as [c|e] eqn:Hi.
  - apply py_index_ok in Hi as [? _]. done.
  - revert Hi. unfold py_index.
    repeat case_match; try destruct (l !! _); simpl; congruence.
Qed.

Lemma get_subtree_defined h n path :
  (∃ r, get_subtree h n path = Ok r) ↔ path_in_bounds h n path.
Proof.
  revert n. induction path as [|i rest IH]; intros n; simpl.
  - split; eauto.
  - unfold node_at. destruct (h !! n) as [node|]; simpl.
    + destruct (py_index (Tree.children node) i) as [c|e] eqn:Hi; simpl.
      * apply py_index_ok in Hi as [Hb Hc]. rewrite IH. split.
        -- intros ?. exists node, c. done.
        -- intros (node' & c' & [= <-] & _ & Hc' & ?). congruence.
      * split; [by intros [? ?]|].
        intros (node' & c' & [= <-] & Hb & Hc' & ?).
        assert (py_index (Tree.children node) i = Ok c') by by apply py_index_ok.
        congruence.
    + split; [by intros [? ?]|]. by intros (? & ? & ? & _).
Qed.

(** C9: [get_subtree] of the empty path is the node itself; of a path
    [i :: rest] it is [get_subtree rest] of the child at index [i]; and
    it returns a node exactly when every index of the path is within
    the bounds of the list of children it indexes (Python's bounds:
    [-len <= i < len], a negative index counting from the end). *)
Theorem get_subtree_spec h n :
  get_subtree h n [] = Ok n ∧
  (∀ i rest node c,
     h !! n = Some node →
     in_bounds i (length (Tree.children node)) →
     Tree.children node !! position i (length (Tree.children node)) = Some c →
     get_subtree h n (i :: rest) = get_subtree h c rest) ∧
  (∀ i rest node,
     h !! n = Some node →
     ¬ in_bounds i (length (Tree.children node)) →
     get_subtree h n (i :: rest) = Raise IndexError) ∧
  (∀ path, (∃ r, get_subtree h n path = Ok r) ↔ path_in_bounds h n path).
Proof.
  split; [done|]. split; [|split].
  - intros i rest node c Hn Hb Hc. simpl. unfold node_at. rewrite Hn. simpl.
    assert (py_index (Tree.children node) i = Ok c) as -> by by apply py_index_ok.
    done.
  - intros i rest node Hn Hb. simpl. unfold node_at. rewrite Hn. simpl.
    by rewrite py_index_out.
  - intros path. apply get_subtree_defined.
Qed.

(** *** [node_imbalance] *)

Lemma is_tree_subtree h t c : is_tree h t → c ∈ subtrees t → is_tree h c.
Proof.
  intros [Hs Hnd] Hc. destruct t as [r cs]. simpl in *.
  apply shape_subtrees in Hs. simpl in Hs. rewrite Forall_forall in Hs.
  split; [by apply Hs|].
  apply NoDup_cons in Hnd as [_ Hnd]. clear -Hnd Hc.
  induction cs as [|c' cs IH]; [by apply elem_of_nil in Hc|].
  csimpl in Hnd. apply NoDup_app in Hnd as (? & _ & ?).
  apply elem_of_cons in Hc as [->|Hc]; auto.
Qed.

Lemma tree_size_child h t c :
  is_tree h t → c ∈ subtrees t → tree_size h (root c) = Ok (size c).
Proof. intros Ht Hc. eapply tree_size_ok, is_tree_subtree; eauto. Qed.

Lemma Qceiling_half z : Qceiling (inject_Z z / 2) = ((z + 1) / 2)%Z.
Proof.
  unfold Qceiling, Qfloor, Qdiv, Qmult, Qinv, Qopp, inject_Z. simpl.
  rewrite Z.mul_1_r. Z.div_mod_to_equations. lia.
Qed.

Lemma inj_sub a b : (inject_Z a - inject_Z b == inject_Z (a - b))%Q.
Proof. unfold Z.sub. by rewrite inject_Z_plus, inject_Z_opp. Qed.

Lemma inj_sub1 a : (inject_Z a - 1 == inject_Z (a - 1))%Q.
Proof. apply (inj_sub a 1). Qed.

(** The value of the quotient for a node of [sz] nodes whose children
    have [s1] and [s2]. *)
Lemma imbalance_bounds (sz s1 s2 : nat) :
  sz = 1 + s1 + s2 → 0 < s1 → 0 < s2 → 4 ≤ sz →
  let q := ((inject_Z (Z.of_nat (s1 `max` s2))
             - inject_Z (Qceiling (inject_Z (Z.of_nat sz) / 2)))
            / (inject_Z (Z.of_nat sz)
               - inject_Z (Qceiling (inject_Z (Z.of_nat sz) / 2)) - 1))%Q in
  (-1 <= q ∧ q <= 1)%Q ∧
  (s1 = s2 → (q == -1 / inject_Z (Z.of_nat s1 - 1))%Q ∧ (q < 0)%Q).
Proof.
  intros HS H1 H2 H4 q. subst q. rewrite Qceiling_half.
  set (m := ((Z.of_nat sz + 1) / 2)%Z).
  assert (Hm : (2 * m - 1 <= Z.of_nat sz <= 2 * m)%Z).
  { subst m. Z.div_mod_to_equations. lia. }
  clearbody m.
  remember (Z.of_nat (s1 `max` s2)) as B eqn:HB.
  rewrite !inj_sub, inj_sub1.
  assert (Hd : (0 < inject_Z (Z.of_nat sz - m - 1))%Q).
  { change 0%Q with (inject_Z 0). rewrite <- Zlt_Qlt. lia. }
  split; [split|].
  - apply Qle_shift_div_l; [exact Hd|]. change (-1)%Q with (inject_Z (-1)).
    rewrite <- inject_Z_mult, <- Zle_Qle. lia.
  - apply Qle_shift_div_r; [exact Hd|]. change 1%Q with (inject_Z 1).
    rewrite <- inject_Z_mult, <- Zle_Qle. lia.
  - intros ->. assert (B = Z.of_nat s2) as -> by lia.
    assert (m = Z.of_nat s2 + 1)%Z as -> by lia.
    assert (Z.of_nat sz = 2 * Z.of_nat s2 + 1)%Z as -> by lia.
    split.
    + replace (Z.of_nat s2 - (Z.of_nat s2 + 1))%Z with (-1)%Z by lia.
      by replace (2 * Z.of_nat s2 + 1 - (Z.of_nat s2 + 1) - 1)%Z
        with (Z.of_nat s2 - 1)%Z by lia.
    + apply Qlt_shift_div_r.
      * change 0%Q with (inject_Z 0). rewrite <- Zlt_Qlt. lia.
      * rewrite Qmult_0_l. change 0%Q with (inject_Z 0).
        rewrite <- Zlt_Qlt. lia.
Qed.

(** [node_imbalance] at a node with two children and at least four
    nodes. *)
Lemma node_imbalance_two h r t1 t2 :
  is_tree h (RT r [t1; t2]) → 4 ≤ size (RT r [t1; t2]) →
  node_imbalance h r
  = Ok ((inject_Z (Z.of_nat (size t1 `max` size t2))
         - inject_Z (Qceiling (inject_Z (Z.of_nat (size (RT r [t1; t2]))) / 2)))
        / (inject_Z (Z.of_nat (size (RT r [t1; t2])))
           - inject_Z (Qceiling (inject_Z (Z.of_nat (size (RT r [t1; t2]))) / 2))
           - 1))%Q.
Proof.
  intros Ht Hsz. pose proof (tree_size_ok _ _ Ht) as Hsize.
  pose proof Ht as [(n & Hn & Hcs)%shape_lookup _].
  unfold node_imbalance, node_at. simpl root in *. rewrite Hn. simpl.
  rewrite Hcs. simpl length. simpl bool_decide. cbv iota.
  rewrite Hsize. simpl mbind. simpl in Hsz. rewrite bool_decide_false by lia. simpl fmap.
  rewrite (tree_size_child _ _ t1 Ht) by (simpl; set_solver).
  rewrite (tree_size_child _ _ t2 Ht) by (simpl; set_solver).
  done.
Qed.

(** C4: at a node with exactly two children and a subtree of at least
    four nodes, [node_imbalance] is [(bigger - m) / (size - m - 1)] with
    [size = tree_size(n)], [bigger] the larger of the sizes of the two
    children and [m = ceil(size / 2)]; it is 0 at a node with fewer than
    two children or with a subtree of fewer than four nodes; its
    assertion fails at a node with more than two children. *)
Theorem node_imbalance_spec h t node :
  is_tree h t → h !! root t = Some node →
  ∃ size,
    tree_size h (root t) = Ok size ∧
    (length (Tree.children node) < 2 ∨ size < 4 →
       node_imbalance h (root t) = Ok 0%Q) ∧
    (∀ c1 c2, Tree.children node = [c1; c2] → 4 ≤ size →
       ∃ s1 s2,
         tree_size h c1 = Ok s1 ∧ tree_size h c2 = Ok s2 ∧
         let bigger := Z.of_nat (s1 `max` s2) in
         let m := Qceiling (inject_Z (Z.of_nat size) / 2) in
         node_imbalance h (root t)
         = Ok ((inject_Z bigger - inject_Z m)
               / (inject_Z (Z.of_nat size) - inject_Z m - 1))%Q) ∧
    (2 < length (Tree.children node) →
       node_imbalance h (root t) = Raise AssertionError).
Proof.
  intros Ht Hn. exists (size t). pose proof (tree_size_ok _ _ Ht) as Hsz.
  split; [done|].
  pose proof Ht as [(n' & Hn' & Hcs)%shape_lookup _].
  assert (n' = node) as -> by congruence. clear Hn'.
  unfold node_imbalance, node_at. rewrite Hn. simpl. rewrite Hsz. simpl.
  split; [|split].
  - intros [Hlt|Hlt].
    + rewrite bool_decide_false by lia. by rewrite bool_decide_true.
    + destruct t as [r cs]. simpl in *. rewrite Hcs, length_fmap.
      destruct cs as [|t1 [|t2 [|t3 cs]]]; csimpl in *; try done.
      * by rewrite bool_decide_true by lia.
      * pose proof (size_pos t1). pose proof (size_pos t2).
        pose proof (size_pos t3). lia.
  - intros c1 c2 Hc Hsize. rewrite Hc. simpl.
    rewrite bool_decide_false by lia.
    destruct t as [r cs]. simpl in Hcs. rewrite Hc in Hcs.
    destruct cs as [|t1 [|t2 [|t3 cs]]]; try done. injection Hcs as -> ->.
    exists (size t1), (size t2).
    rewrite (tree_size_child _ _ t1 Ht) by (simpl; set_solver).
    rewrite (tree_size_child _ _ t2 Ht) by (simpl; set_solver).
    done.
  - intros Hlt. by rewrite bool_decide_true.
Qed.

(** C2, as the code has it: at a node with exactly two children and a
    subtree of at least four nodes, [node_imbalance] lies in [-1, 1];
    where the two children have subtrees of the same size [s], it is
    [-1 / (s - 1)], which is negative (so it is not 0 at the inner nodes
    of a perfectly balanced binary tree of seven nodes or more). *)
Theorem node_imbalance_range h t node c1 c2 :
  is_tree h t → h !! root t = Some node → Tree.children node = [c1; c2] →
  (∃ sz, tree_size h (root t) = Ok sz ∧ 4 ≤ sz) →
  ∃ q s1 s2,
    node_imbalance h (root t) = Ok q ∧
    tree_size h c1 = Ok s1 ∧ tree_size h c2 = Ok s2 ∧
    (-1 <= q ∧ q <= 1)%Q ∧
    (s1 = s2 → (q == -1 / inject_Z (Z.of_nat s1 - 1))%Q ∧ (q < 0)%Q).
Proof.
  intros Ht Hn Hc (sz & Hsz & H4).
  rewrite (tree_size_ok _ _ Ht) in Hsz. injection Hsz as <-.
  pose proof Ht as [(n' & Hn' & Hcs)%shape_lookup _].
  assert (n' = node) as -> by congruence. clear Hn'.
  destruct t as [r cs]. simpl in Hcs. rewrite Hc in Hcs.
  destruct cs as [|t1 [|t2 [|t3 cs]]]; try done. injection Hcs as -> ->.
  eexists _, (size t1), (size t2).
  split; [by apply node_imbalance_two|].
  split; [apply (tree_size_child _ _ t1 Ht); simpl; set_solver|].
  split; [apply (tree_size_child _ _ t2 Ht); simpl; set_solver|].
  apply imbalance_bounds; [simpl; lia|apply size_pos..|done].
Qed.

(** *** [parse_length] *)

Lemma find_not_in (w : str) c : c ∉ w → find w c = length w.
Proof.
  induction w as [|a w IH]; [done|]. intros [Hne Hw]%not_elem_of_cons. simpl.
  rewrite bool_decide_false by done. by rewrite IH.
Qed.

Lemma find_app_cons (w r : str) c : c ∉ w → find (w ++ c :: r) c = length w.
Proof.
  induction w as [|a w IH]; simpl.
  - intros _. by rewrite bool_decide_true.
  - intros [Hne Hw]%not_elem_of_cons.
    rewrite bool_decide_false by done. by rewrite IH.
Qed.

Lemma find_app_ge (w r : str) c : c ∉ w → length w ≤ find (w ++ r) c.
Proof.
  induction w as [|a w IH]; simpl; [lia|].
  intros [Hne Hw]%not_elem_of_cons.
  rewrite bool_decide_false by done. apply IH in Hw. lia.
Qed.

Lemma find_le (s : str) c : find s c ≤ length s.
Proof. induction s; simpl; [done|]. case_bool_decide; lia. Qed.

Lemma number_end (w rest : str) :
  "," ∉ w → ")" ∉ w → delimited rest →
  find (w ++ rest) "," `min` find (w ++ rest) ")" = length w.
Proof.
  intros Hc Hp [->|(r & [->| ->])].
  - rewrite app_nil_r, !find_not_in by done. lia.
  - rewrite find_app_cons by done.
    pose proof (find_app_ge w ("," :: r) ")" Hp). lia.
  - rewrite (find_app_cons _ _ ")") by done.
    pose proof (find_app_ge w (")" :: r) "," Hc). lia.
Qed.

Lemma parse_length_number (w rest : str) :
  "," ∉ w → ")" ∉ w → delimited rest →
  parse_length (":" :: w ++ rest)
  = match float w with Some x => Ok (x, rest) | None => Raise ValueError end.
Proof.
  intros Hc Hp Hr. unfold parse_length. simpl. rewrite drop_0.
  rewrite number_end by done.
  rewrite take_app_length, drop_app_length. by destruct (float w).
Qed.

Lemma number_split (s : str) :
  ∃ w rest, s = w ++ rest ∧ ("," ∉ w) ∧ (")" ∉ w) ∧ delimited rest.
Proof.
  induction s as [|a s (w & rest & -> & Hc & Hp & Hr)].
  - exists [], []. repeat split; try apply not_elem_of_nil. by left.
  - destruct (decide (a = ",")) as [->|Hac].
    { exists [], ("," :: w ++ rest).
      repeat split; try apply not_elem_of_nil. right. eauto. }
    destruct (decide (a = ")")) as [->|Hap].
    { exists [], (")" :: w ++ rest).
      repeat split; try apply not_elem_of_nil. right. eauto. }
    exists (a :: w), rest. repeat split; try done; by apply not_elem_of_cons.
Qed.

(** C7: before [';'] the length is 0.0 and nothing is consumed; without
    a leading [':'] the assertion fails; after [':'] the text up to the
    next [','] or [')'] (or to the end) is converted by [float], whose
    failure is a [ValueError], and the rest is returned. *)
Theorem parse_length_spec (s : str) :
  (∀ s', s = ";" :: s' → parse_length s = Ok (num_zero, s)) ∧
  (s = [] ∨ (∃ c s', s = c :: s' ∧ c ≠ ";" ∧ c ≠ ":") →
     parse_length s = Raise AssertionError) ∧
  (∀ s', s = ":" :: s' →
     ∃ w rest, s' = w ++ rest ∧ ("," ∉ w) ∧ (")" ∉ w) ∧ delimited rest ∧
       parse_length s
       = match float w with
         | Some x => Ok (x, rest)
         | None => Raise ValueError
         end) ∧
  (∀ w rest, s = ":" :: w ++ rest → "," ∉ w → ")" ∉ w → delimited rest →
     parse_length s
     = match float w with Some x => Ok (x, rest) | None => Raise ValueError end).
Proof.
  split; [by intros s' ->|]. split; [|split].
  - intros [->|(c & s' & -> & Hs & Hc)]; [done|].
    unfold parse_length. simpl. by rewrite !bool_decide_false by done.
  - intros s' ->. destruct (number_split s') as (w & rest & -> & Hc & Hp & Hr).
    exists w, rest. repeat split; try done. by apply parse_length_number.
  - intros w rest -> Hc Hp Hr. by apply parse_length_number.
Qed.

(** *** [get_hpd] *)










(** *** [binarize] on shapes *)

Lemma Bin_root n t t' n' : Bin n t t' n' → root t' = root t.
Proof. by destruct 1. Qed.

Lemma Bin_next n t t' n' : Bin n t t' n' → n ≤ n'.
Proof. induction 1; lia. Qed.

Lemma Bin_refs n t t' n' x :
  Bin n t t' n' → x ∈ refs t' ↔ x ∈ refs t ∨ n ≤ x < n'.
Proof.
  intros HB. revert x. induction HB as
    [r n|r c c' n n' HB IH|r c1 c2 c1' c2' n n1 n2 HB1 IH1 HB2 IH2
    |r c0 rest c0' s' n n1 n2 Hlen HB0 IH0 HBs IHs]; intros x; simpl in *.
  - rewrite !elem_of_cons. split; [auto|]. intros [?|?]; [done|lia].
  - rewrite !app_nil_r, !elem_of_cons, IH. tauto.
  - apply Bin_next in HB1, HB2.
    rewrite !app_nil_r, !elem_of_cons, !elem_of_app, IH1, IH2.
    split; [intros [?|[[?|?]|[?|?]]]; (tauto || (right; lia))|].
    intros [[?|[?|?]]|?]; try tauto.
    destruct (decide (x < n1)); [right; left; right; lia|].
    right; right; right; lia.
  - apply Bin_next in HB0, HBs.
    rewrite !app_nil_r, !elem_of_cons, !elem_of_app, IH0, IHs.
    rewrite !elem_of_cons.
    split; [intros [?|[[?|?]|[[?|?]|?]]]; (tauto || (right; lia))|].
    intros [[?|[?|?]]|?]; try tauto.
    destruct (decide (x = n)); [tauto|].
    destruct (decide (x < n1)); [right; left; right; lia|].
    right; right; right; lia.
Qed.

Lemma NoDup_app3 {A} (l1 l2 : list A) :
  NoDup l1 → NoDup l2 → (∀ x, x ∈ l1 → x ∉ l2) → NoDup (l1 ++ l2).
Proof. intros. by apply NoDup_app. Qed.

Lemma Bin_NoDup n t t' n' :
  Bin n t t' n' → Forall (λ x, x < n) (refs t) → NoDup (refs t) →
  NoDup (refs t').
Proof.
  intros HB. induction HB as
    [r n|r c c' n n' HB IH|r c1 c2 c1' c2' n n1 n2 HB1 IH1 HB2 IH2
    |r c0 rest c0' s' n n1 n2 Hlen HB0 IH0 HBs IHs]; simpl;
    rewrite ?app_nil_r; intros Hlt Hnd; [done|..].
  - apply Forall_cons in Hlt as [Hr Hlt]. apply NoDup_cons in Hnd as [Hrc Hnd].
    apply NoDup_cons. split; [|auto].
    rewrite (Bin_refs _ _ _ _ r HB). intros [?|?]; [done|lia].
  - apply Forall_cons in Hlt as [Hr Hlt]. apply Forall_app in Hlt as [Hlt1 Hlt2].
    apply NoDup_cons in Hnd as [Hrc Hnd].
    apply NoDup_app in Hnd as (Hnd1 & Hdisj & Hnd2).
    pose proof (Bin_next _ _ _ _ HB1). pose proof (Bin_next _ _ _ _ HB2).
    rewrite Forall_forall in Hlt1, Hlt2.
    assert (Forall (λ x, x < n1) (refs c2)) as Hlt2'.
    { apply Forall_forall. intros x Hx%Hlt2. lia. }
    apply NoDup_cons. split.
    + rewrite elem_of_app, (Bin_refs _ _ _ _ r HB1), (Bin_refs _ _ _ _ r HB2).
      rewrite elem_of_app in Hrc. intros [[?|?]|[?|?]]; (tauto || lia).
    + apply NoDup_app3; [apply IH1; auto; by apply Forall_forall|by apply IH2|].
      intros x. rewrite (Bin_refs _ _ _ _ x HB1), (Bin_refs _ _ _ _ x HB2).
      intros [Hx|Hx] [Hx'|Hx'].
      * by apply (Hdisj x).
      * apply Hlt1 in Hx. lia.
      * apply Hlt2 in Hx'. lia.
      * lia.
  - apply Forall_cons in Hlt as [Hr Hlt]. apply Forall_app in Hlt as [Hlt1 Hlt2].
    apply NoDup_cons in Hnd as [Hrc Hnd].
    apply NoDup_app in Hnd as (Hnd1 & Hdisj & Hnd2).
    pose proof (Bin_next _ _ _ _ HB0). pose proof (Bin_next _ _ _ _ HBs).
    rewrite Forall_forall in Hlt1, Hlt2.
    assert (Forall (λ x, x < n1) (refs (RT n rest))) as Hlts.
    { simpl. apply Forall_cons. split; [lia|].
      apply Forall_forall. intros x Hx%Hlt2. lia. }
    assert (NoDup (refs (RT n rest))) as Hnds.
    { simpl. apply NoDup_cons. split; [|done]. intros Hx%Hlt2. lia. }
    apply NoDup_cons. split.
    + rewrite elem_of_app, (Bin_refs _ _ _ _ r HB0), (Bin_refs _ _ _ _ r HBs).
      simpl. rewrite elem_of_cons. rewrite elem_of_app in Hrc.
      intros [[?|?]|[[?|?]|?]]; (tauto || lia).
    + apply NoDup_app3.
      * apply IH0; auto. apply Forall_forall. intros x Hx%Hlt1. lia.
      * by apply IHs.
      * intros x. rewrite (Bin_refs _ _ _ _ x HB0), (Bin_refs _ _ _ _ x HBs).
        simpl. rewrite elem_of_cons. intros [Hx|Hx] [[Hx'|Hx']|Hx'].
        -- apply Hlt1 in Hx. lia.
        -- by apply (Hdisj x).
        -- apply Hlt1 in Hx. lia.
        -- lia.
        -- apply Hlt2 in Hx'. lia.
        -- lia.
Qed.

Lemma Bin_binary n t t' n' : Bin n t t' n' → binary t'.
Proof. induction 1; simpl; repeat split; auto. Qed.

(** On a shape that is binary already nothing changes. *)
Lemma Bin_id n t t' n' : Bin n t t' n' → binary t → t' = t ∧ n' = n.
Proof.
  induction 1 as
    [r n|r c c' n n' HB IH|r c1 c2 c1' c2' n n1 n2 HB1 IH1 HB2 IH2
    |r c0 rest c0' s' n n1 n2 Hlen HB0 IH0 HBs IHs]; simpl.
  - done.
  - intros (_ & Hc & _). destruct (IH Hc) as [-> ->]. done.
  - intros (_ & Hc1 & Hc2 & _). destruct (IH1 Hc1) as [-> ->].
    destruct (IH2 Hc2) as [-> ->]. done.
  - intros [Hl _]. lia.
Qed.

Lemma elem_of_tail {A} (x : A) l : x ∈ tail l → x ∈ l.
Proof. destruct l; [done|]. by right. Qed.

Lemma contract_root a t : root (contract a t) = root t.
Proof. by destruct t. Qed.

Lemma contract_ext a b t :
  (∀ x, x ∈ tail (refs t) → a ≤ x ↔ b ≤ x) → contract a t = contract b t.
Proof.
  induction t as [r cs IH] using rtree_ind'. intros Hx. simpl in *. f_equal.
  f_equal. apply list_fmap_ext. intros i c Hc%list_elem_of_lookup_2.
  rewrite Forall_forall in IH.
  assert (∀ x, x ∈ refs c → x ∈ concat (refs <$> cs)) as Hsub.
  { intros x Hxc. apply elem_of_concat. exists (refs c).
    split; [done|]. by apply list_elem_of_fmap_2. }
  rewrite (IH c Hc).
  2:{ intros x Hxc. apply Hx, Hsub. rewrite refs_root_tail. by right. }
  assert (a ≤ root c ↔ b ≤ root c) by (apply Hx, Hsub; destruct c; by left).
  repeat case_decide; tauto.
Qed.

Lemma contract_old a t : Forall (λ x, x < a) (refs t) → contract a t = t.
Proof.
  induction t as [r cs IH] using rtree_ind'. simpl.
  intros [_ Hlt]%Forall_cons. f_equal.
  induction IH as [|c cs Hc _ IHcs]; csimpl in *; [done|].
  apply Forall_app in Hlt as [Hlt1 Hlt2].
  rewrite decide_False.
  - rewrite Hc by done. simpl. f_equal. by apply IHcs.
  - destruct c. simpl in *. apply Forall_cons in Hlt1 as [? _]. lia.
Qed.

(** Merging the new nodes into their parents gives the shape back. *)
Lemma Bin_contract n t t' n' :
  Bin n t t' n' → Forall (λ x, x < n) (refs t) → NoDup (refs t) →
  contract n t' = t.
Proof.
  intros HB. induction HB as
    [r n|r c c' n n' HB IH|r c1 c2 c1' c2' n n1 n2 HB1 IH1 HB2 IH2
    |r c0 rest c0' s' n n1 n2 Hlen HB0 IH0 HBs IHs]; simpl;
    rewrite ?app_nil_r; intros Hlt Hnd; [done|..].
  - apply Forall_cons in Hlt as [Hr Hlt]. apply NoDup_cons in Hnd as [_ Hnd].
    rewrite (Bin_root _ _ _ _ HB), IH by done.
    rewrite decide_False; [done|].
    destruct c; simpl in *. apply Forall_cons in Hlt as [? _]. lia.
  - apply Forall_cons in Hlt as [Hr Hlt]. apply Forall_app in Hlt as [Hlt1 Hlt2].
    apply NoDup_cons in Hnd as [_ Hnd].
    apply NoDup_app in Hnd as (Hnd1 & _ & Hnd2).
    pose proof (Bin_next _ _ _ _ HB1).
    rewrite (Bin_root _ _ _ _ HB1), (Bin_root _ _ _ _ HB2), IH1 by done.
    assert (contract n c2' = c2) as ->.
    { rewrite <- IH2; [|eapply Forall_impl; [done|]; simpl; lia|done].
      apply contract_ext. intros x Hx%elem_of_tail.
      apply (Bin_refs _ _ _ _ x HB2) in Hx.
      rewrite Forall_forall in Hlt2. destruct Hx as [Hx%Hlt2|Hx]; lia. }
    rewrite !decide_False; [done|..].
    + destruct c2; simpl in *. apply Forall_cons in Hlt2 as [? _]. lia.
    + destruct c1; simpl in *. apply Forall_cons in Hlt1 as [? _]. lia.
  - apply Forall_cons in Hlt as [Hr Hlt]. apply Forall_app in Hlt as [Hlt1 Hlt2].
    apply NoDup_cons in Hnd as [_ Hnd].
    apply NoDup_app in Hnd as (Hnd1 & _ & Hnd2).
    pose proof (Bin_next _ _ _ _ HB0).
    assert (Forall (λ x, x < n1) (refs (RT n rest))) as Hlts.
    { simpl. apply Forall_cons. split; [lia|].
      eapply Forall_impl; [done|]. simpl. lia. }
    assert (NoDup (refs (RT n rest))) as Hnds.
    { simpl. apply NoDup_cons. split; [|done].
      rewrite Forall_forall in Hlt2. intros Hx%Hlt2. lia. }
    rewrite (Bin_root _ _ _ _ HB0), (Bin_root _ _ _ _ HBs). simpl.
    assert (contract n c0' = c0) as ->.
    { rewrite <- IH0; [|eapply Forall_impl; [done|]; simpl; lia|done].
      apply contract_ext. intros x Hx%elem_of_tail.
      apply (Bin_refs _ _ _ _ x HB0) in Hx.
      rewrite Forall_forall in Hlt1. destruct Hx as [Hx%Hlt1|Hx]; lia. }
    rewrite decide_False.
    2:{ destruct c0; simpl in *. apply Forall_cons in Hlt1 as [? _]. lia. }
    rewrite decide_True by done.
    assert (contract n s' = contract n1 s') as ->.
    { apply contract_ext. intros x Hx.
      assert (x ≠ n) as Hne.
      { pose proof (Bin_NoDup _ _ _ _ HBs Hlts Hnds) as Hnd'.
        rewrite refs_root_tail, (Bin_root _ _ _ _ HBs) in Hnd'. simpl in Hnd'.
        apply NoDup_cons in Hnd' as [Hn _]. by intros ->. }
      apply elem_of_tail, (Bin_refs _ _ _ _ x HBs) in Hx. simpl in Hx.
      rewrite elem_of_cons in Hx. rewrite Forall_forall in Hlt2.
      destruct Hx as [[->|Hx%Hlt2]|Hx]; (done || lia). }
    by rewrite IHs by done.
Qed.

(** *** [binarize] in the store *)

Lemma bind_ok {A B} (m : M A) (f : A → M B) h a h1 :
  m h = Ok (a, h1) → (m ≫= f) h = f a h1.
Proof. intros Hm. unfold mbind, M_bind. by rewrite Hm. Qed.

Lemma get_ok h r n : h !! r = Some n → get r h = Ok (n, h).
Proof. intros Hn. unfold get. by rewrite Hn. Qed.

Lemma modify_ok h r n f :
  h !! r = Some n → modify r f h = Ok (tt, <[r := f n]> h).
Proof. intros Hn. unfold modify. by rewrite Hn. Qed.

Lemma lift_ok {A} (r : result A) a h : r = Ok a → lift r h = Ok (a, h).
Proof. by intros ->. Qed.

Lemma same_data_refl n : same_data n n.
Proof. done. Qed.

Lemma same_data_trans n1 n2 n3 :
  same_data n1 n2 → same_data n2 n3 → same_data n1 n3.
Proof. unfold same_data. congruence. Qed.

Lemma same_data_set_parent p n : same_data n (set_parent p n).
Proof. done. Qed.

Lemma same_data_set_children cs n : same_data n (set_children cs n).
Proof. done. Qed.

Lemma same_data_fields n n' :
  same_data n n' →
  Tree.length n' = Tree.length n ∧ Tree.name n' = Tree.name n ∧
  Tree.attributes n' = Tree.attributes n ∧
  Tree._location n' = Tree._location n ∧
  Tree.alignment n' = Tree.alignment n.
Proof. destruct n, n'. unfold same_data. simpl. by intros [= -> -> -> -> ->]. Qed.

Lemma same_data_location n n' : same_data n n' → location n' = location n.
Proof.
  intros (_ & _ & Ha & Hl & _)%same_data_fields.
  unfold location, get_location_from_attributes, getitem. by rewrite Ha, Hl.
Qed.

Lemma inherits_same_data pn m pn' m' :
  inherits pn m → same_data pn pn' → same_data m m' → inherits pn' m'.
Proof.
  intros (Hl & Hn & Ha & Hloc & Hal) Hp Hm.
  pose proof (same_data_location _ _ Hp) as Hlp.
  pose proof (same_data_location _ _ Hm) as Hlm.
  apply same_data_fields in Hp as (_ & _ & Hpa & _ & Hpal).
  apply same_data_fields in Hm as (Hml & Hmn & Hma & _ & Hmal).
  unfold inherits. rewrite Hml, Hmn, Hma, Hmal, Hpa, Hpal, Hlp, Hlm. done.
Qed.

(** The parents of the children of a new node. *)
Lemma for_each_set_parent cs p h :
  Forall (λ c, c < length h) cs →
  ∃ h', for_each cs (λ c, modify c (set_parent p)) h = Ok (tt, h') ∧
    length h' = length h ∧
    (∀ x, x ∉ cs → h' !! x = h !! x) ∧
    (∀ x, x ∈ cs → h' !! x = set_parent p <$> h !! x).
Proof.
  revert h. induction cs as [|c cs IH]; intros h Hlt.
  - exists h. repeat split; try done. by intros x ?%elem_of_nil.
  - apply Forall_cons in Hlt as [Hc Hlt].
    destruct (lookup_lt_is_Some_2 _ _ Hc) as [n Hn].
    destruct (IH (<[c := set_parent p n]> h)) as (h' & Hrun & Hlen & Hout & Hin).
    { by rewrite length_insert. }
    exists h'. split; [|split; [|split]].
    + simpl. rewrite (bind_ok _ _ _ tt (<[c := set_parent p n]> h));
        [done|by apply modify_ok].
    + by rewrite Hlen, length_insert.
    + intros x [Hxc Hx]%not_elem_of_cons.
      rewrite Hout by done. by rewrite list_lookup_insert_ne.
    + intros x Hx. destruct (decide (x ∈ cs)) as [Hxcs|Hxcs].
      * rewrite Hin by done. destruct (decide (c = x)) as [->|Hne].
        -- rewrite list_lookup_insert_eq by done. by rewrite Hn.
        -- by rewrite list_lookup_insert_ne.
      * apply elem_of_cons in Hx as [->|?]; [|done].
        rewrite Hout by done. rewrite list_lookup_insert_eq by done.
        by rewrite Hn.
Qed.

Lemma Tree_init_ok l nm cs p attrs loc al h :
  Forall (λ c, c < length h) cs →
  ∃ h', Tree_init l nm cs p attrs loc al h = Ok (length h, h') ∧
    length h' = S (length h) ∧
    h' !! length h
    = Some (Tree.Node l nm cs p attrs loc
              (match al with [] => [0%Z] | _ => al end)) ∧
    (∀ x, x < length h → x ∉ cs → h' !! x = h !! x) ∧
    (∀ x, x ∈ cs → h' !! x = set_parent (Some (length h)) <$> h !! x).
Proof.
  intros Hlt. set (new := Tree.Node l nm cs p attrs loc _).
  destruct (for_each_set_parent cs (Some (length h)) (h ++ [new]))
    as (h' & Hrun & Hlen & Hout & Hin).
  { eapply Forall_impl; [done|]. intros x Hx. rewrite length_app. simpl in *. lia. }
  exists h'. rewrite length_app in Hlen. simpl in Hlen.
  assert (length h ∉ cs) as Hnew.
  { rewrite Forall_forall in Hlt. intros ?%Hlt. lia. }
  split; [|split; [lia|split; [|split]]].
  - unfold Tree_init. rewrite (bind_ok _ _ _ (length h) (h ++ [new])) by done.
    by rewrite (bind_ok _ _ _ tt h').
  - rewrite Hout by done. by rewrite lookup_app_r, Nat.sub_diag.
  - intros x Hx Hxcs. rewrite Hout by done. by rewrite lookup_app_l.
  - intros x Hx. rewrite Hin by done. rewrite lookup_app_l; [done|].
    rewrite Forall_forall in Hlt. by apply Hlt.
Qed.

Lemma shape_ext h h' t :
  (∀ x n, x ∈ refs t → h !! x = Some n →
     ∃ n', h' !! x = Some n' ∧ Tree.children n' = Tree.children n) →
  shape h t → shape h' t.
Proof.
  induction t as [r cs IH] using rtree_ind'. intros Hx. inversion 1; subst.
  destruct (Hx r n) as (n' & Hn' & Hc); [by left|done|].
  apply shape_node with n'; [done|congruence|].
  rewrite Forall_forall in *. intros c Hc'. apply IH; auto.
  intros x m Hxc. apply Hx. simpl. right. apply elem_of_concat.
  exists (refs c). split; [done|]. by apply list_elem_of_fmap_2.
Qed.

Lemma refs_subtree c cs x : c ∈ cs → x ∈ refs c → x ∈ concat (refs <$> cs).
Proof.
  intros Hc Hx. apply elem_of_concat. exists (refs c). split; [done|].
  by apply list_elem_of_fmap_2.
Qed.

Lemma root_in_refs t : root t ∈ refs t.
Proof. destruct t. by left. Qed.

Lemma parents_ok_ext h h' t :
  (∀ x n, x ∈ tail (refs t) → h !! x = Some n →
     ∃ n', h' !! x = Some n' ∧ Tree.parent n' = Tree.parent n) →
  parents_ok h t → parents_ok h' t.
Proof.
  induction t as [r cs IH] using rtree_ind'. simpl. intros Hx.
  inversion 1 as [? ? Hp Hcs]; subst. constructor.
  - rewrite Forall_forall in *. intros c Hc.
    destruct (Hp c Hc) as (n & Hn & Hpar).
    destruct (Hx (root c) n) as (n' & Hn' & Hpar'); [|done|].
    { eapply refs_subtree; [done|apply root_in_refs]. }
    exists n'. split; [done|congruence].
  - rewrite Forall_forall in *. intros c Hc. apply IH; auto.
    intros x n Hxc. apply Hx. eapply refs_subtree; [done|].
    by apply elem_of_tail.
Qed.

Lemma locs_ok_ext h h' t :
  (∀ x n', x ∈ refs t → h' !! x = Some n' →
     ∃ n, h !! x = Some n ∧ same_data n n'
          ∧ Tree.children n' = Tree.children n) →
  locs_ok h t → locs_ok h' t.
Proof.
  intros Hx Hl x n' Hxt Hn'. destruct (Hx x n' Hxt Hn') as (n & Hn & Hd & Hc).
  intros Hlen. rewrite Hc in Hlen. destruct (Hl x n Hxt Hn Hlen) as [l Hloc].
  exists l. by rewrite (same_data_location _ _ Hd).
Qed.

Lemma locs_ok_subtree h r cs c : locs_ok h (RT r cs) → c ∈ cs → locs_ok h c.
Proof.
  intros Hl Hc x n Hx. apply Hl. simpl. right. by eapply refs_subtree.
Qed.

Lemma nodes_refs s t : s ∈ nodes t → ∀ x, x ∈ refs s → x ∈ refs t.
Proof.
  induction t as [r cs IH] using rtree_ind'. simpl.
  intros [->|(l & Hs & (c & -> & Hc)%list_elem_of_fmap)%elem_of_concat]%elem_of_cons x Hx;
    [done|].
  right. rewrite Forall_forall in IH. eapply refs_subtree; [done|].
  by apply (IH c Hc Hs).
Qed.

Lemma nodes_child_tail s c t :
  s ∈ nodes t → c ∈ subtrees s → ∀ x, x ∈ refs c → x ∈ tail (refs t).
Proof.
  induction t as [r cs IH] using rtree_ind'. simpl.
  intros [->|(l & Hs & (c' & -> & Hc')%list_elem_of_fmap)%elem_of_concat]%elem_of_cons
    Hc x Hx.
  - simpl in Hc. by eapply refs_subtree.
  - rewrite Forall_forall in IH. eapply refs_subtree; [done|].
    apply elem_of_tail. by apply (IH c' Hc' Hs Hc).
Qed.

Lemma synth_ok_evolve a h h' t :
  (∀ x n, h !! x = Some n → ∃ n', h' !! x = Some n' ∧ same_data n n') →
  synth_ok a h t → synth_ok a h' t.
Proof.
  intros Hev Hs s c Hin Hc Ha.
  destruct (Hs s c Hin Hc Ha) as (pn & m & Hpn & Hm & Hinh).
  destruct (Hev _ _ Hpn) as (pn' & Hpn' & Hdp).
  destruct (Hev _ _ Hm) as (m' & Hm' & Hdm).
  exists pn', m'. split; [done|]. split; [done|].
  by eapply inherits_same_data.
Qed.

Lemma synth_ok_threshold a b h t :
  (∀ x, x ∈ tail (refs t) → b ≤ x → a ≤ x) →
  synth_ok a h t → synth_ok b h t.
Proof.
  intros Hab Hs s c Hin Hc Hb. apply Hs; [done..|].
  apply Hab; [|done]. eapply nodes_child_tail; [done..|apply root_in_refs].
Qed.

Lemma synth_ok_node a h r cs :
  (∀ c, c ∈ cs → a ≤ root c →
     ∃ pn m, h !! r = Some pn ∧ h !! root c = Some m ∧ inherits pn m) →
  (∀ c, c ∈ cs → synth_ok a h c) →
  synth_ok a h (RT r cs).
Proof.
  intros Hr Hcs s c. simpl.
  intros [->|(l & Hs & (c' & -> & Hc')%list_elem_of_fmap)%elem_of_concat]%elem_of_cons
    Hc Ha.
  - by apply Hr.
  - by apply (Hcs c' Hc' s c).
Qed.

Lemma evolves_weaken h t h' :
  evolves h t h' →
  ∀ x n, h !! x = Some n → ∃ n', h' !! x = Some n' ∧ same_data n n'.
Proof. intros Hev x n Hn. destruct (Hev x n Hn) as (n' & ? & ? & _). eauto. Qed.

Lemma evolves_length h t h' : evolves h t h' → length h ≤ length h'.
Proof.
  intros Hev. destruct (decide (length h ≤ length h')) as [|Hlt]; [done|].
  destruct (lookup_lt_is_Some_2 h (length h')) as [n Hn]; [lia|].
  destruct (Hev _ _ Hn) as (n' & Hn'%lookup_lt_Some & _). lia.
Qed.

Lemma for_each_one {A} (g : A → M unit) a h h1 :
  g a h = Ok (tt, h1) → for_each [a] g h = Ok (tt, h1).
Proof. intros Ha. simpl. by rewrite (bind_ok _ _ _ tt h1). Qed.

Lemma for_each_two {A} (g : A → M unit) a b h h1 h2 :
  g a h = Ok (tt, h1) → g b h1 = Ok (tt, h2) →
  for_each [a; b] g h = Ok (tt, h2).
Proof.
  intros Ha Hb. simpl. rewrite (bind_ok _ _ _ tt h1) by done.
  by rewrite (bind_ok _ _ _ tt h2).
Qed.

(** A node with at most two children is left as it is. *)
Lemma binarize_rec_small f r h n :
  h !! r = Some n → length (Tree.children n) ≤ 2 →
  binarize_rec (S f) r h = for_each (Tree.children n) (binarize_rec f) h.
Proof.
  intros Hn Hlen. simpl. rewrite (bind_ok _ _ _ n h) by by apply get_ok.
  rewrite bool_decide_false by lia.
  rewrite (bind_ok _ _ _ tt h) by done.
  by rewrite (bind_ok _ _ _ n h) by by apply get_ok.
Qed.

(** A node with more than two children: the new node is made, and the
    loop runs over the first child and the new node. *)
Lemma binarize_rec_big f r h n c0 rest loc :
  h !! r = Some n → Tree.children n = c0 :: rest → 2 ≤ length rest →
  location n = Ok loc → Forall (λ c, c < length h) rest → r ∉ rest →
  ∃ h2,
    binarize_rec (S f) r h = for_each [c0; length h] (binarize_rec f) h2 ∧
    length h2 = S (length h) ∧
    h2 !! r = Some (set_children [c0; length h] n) ∧
    h2 !! length h
    = Some (Tree.Node num_zero [] rest (Some r) (Tree.attributes n) loc
              (match Tree.alignment n with
               | [] => [0%Z]
               | _ => Tree.alignment n
               end)) ∧
    (∀ x, x < length h → x ≠ r → x ∉ rest → h2 !! x = h !! x) ∧
    (∀ x, x ∈ rest → h2 !! x = set_parent (Some (length h)) <$> h !! x).
Proof.
  intros Hn Hcs Hlen Hloc Hlt Hr.
  destruct (Tree_init_ok num_zero [] rest (Some r) (Tree.attributes n) loc
              (Tree.alignment n) h Hlt) as (h1 & Hinit & Hlen1 & Hnew & Hout & Hin).
  assert (r < length h) as Hrlt by by eapply lookup_lt_Some.
  assert (h1 !! r = Some n) as Hn1 by by rewrite Hout.
  exists (<[r := set_children [c0; length h] n]> h1).
  split; [|split; [|split; [|split; [|split]]]].
  - simpl. rewrite (bind_ok _ _ _ n h) by by apply get_ok.
    rewrite Hcs. rewrite bool_decide_true by (simpl; lia).
    rewrite (bind_ok _ _ _ tt (<[r := set_children [c0; length h] n]> h1)).
    + rewrite (bind_ok _ _ _ (set_children [c0; length h] n)
                 (<[r := set_children [c0; length h] n]> h1)); [done|].
      apply get_ok. apply list_lookup_insert_eq. by eapply lookup_lt_Some.
    + rewrite (bind_ok _ _ _ loc h) by by apply lift_ok.
      simpl drop. rewrite (bind_ok _ _ _ (length h) h1) by done.
      rewrite (bind_ok _ _ _ n h1) by by apply get_ok.
      rewrite Hcs. simpl. by apply modify_ok.
  - by rewrite length_insert.
  - apply list_lookup_insert_eq. by eapply lookup_lt_Some.
  - rewrite list_lookup_insert_ne by lia. done.
  - intros x Hx Hxr Hxrest. rewrite list_lookup_insert_ne by done. by apply Hout.
  - intros x Hx. rewrite list_lookup_insert_ne by (by intros ->). by apply Hin.
Qed.

Lemma Bin_refs_away n t t' n' (X : list ref) :
  Bin n t t' n' →
  (∀ x, x ∈ refs t → x ∉ X) → Forall (λ x, x < n) X →
  ∀ x, x ∈ refs t' → x ∉ X.
Proof.
  intros HB Hdisj Hlt x [Hx|Hx]%(Bin_refs _ _ _ _ x HB); [auto|].
  rewrite Forall_forall in Hlt. intros ?%Hlt. lia.
Qed.

Lemma bin_seq2 f a b h :
  bin_spec f → size a ≤ f → size b ≤ f →
  shape h a → shape h b → NoDup (refs a ++ refs b) →
  locs_ok h a → locs_ok h b →
  ∃ h1 h2 a' b',
    binarize_rec f (root a) h = Ok (tt, h1) ∧
    binarize_rec f (root b) h1 = Ok (tt, h2) ∧
    Bin (length h) a a' (length h1) ∧ Bin (length h1) b b' (length h2) ∧
    shape h2 a' ∧ shape h2 b' ∧
    (∀ x n, h !! x = Some n →
       ∃ n', h2 !! x = Some n' ∧ same_data n n' ∧
         (x ∉ refs a → x ∉ refs b → n' = n) ∧
         (x = root a ∨ x = root b → Tree.parent n' = Tree.parent n)) ∧
    synth_ok (length h) h2 a' ∧ synth_ok (length h) h2 b' ∧
    (parents_ok h a → parents_ok h2 a') ∧ (parents_ok h b → parents_ok h2 b').
Proof.
  intros IH Hsa Hsb Hsha Hshb Hnd Hla Hlb.
  apply NoDup_app in Hnd as (Hnda & Hdisj & Hndb).
  assert (∀ x, x ∈ refs b → x ∉ refs a) as Hdisj'.
  { intros x Hb Ha. by apply (Hdisj x). }
  pose proof (refs_lt _ _ Hsha) as Hlta. pose proof (refs_lt _ _ Hshb) as Hltb.
  destruct (IH a h Hsa Hsha Hnda Hla)
    as (h1 & a' & Hrun1 & HB1 & Hsh1 & Hev1 & Hsy1 & Hpa1).
  assert (∀ x, x ∈ refs b → h1 !! x = h !! x) as Hsame1.
  { intros x Hx. rewrite Forall_forall in Hltb.
    destruct (lookup_lt_is_Some_2 h x (Hltb x Hx)) as [n Hn].
    destruct (Hev1 x n Hn) as (n' & Hn' & _ & Heq & _).
    rewrite Hn', Hn. f_equal. apply Heq. auto. }
  assert (shape h1 b) as Hshb1.
  { eapply shape_ext; [|done]. intros x n Hx Hn. exists n.
    by rewrite Hsame1. }
  assert (locs_ok h1 b) as Hlb1.
  { eapply locs_ok_ext; [|done]. intros x n' Hx Hn'. exists n'.
    by rewrite <- Hsame1. }
  destruct (IH b h1 Hsb Hshb1 Hndb Hlb1)
    as (h2 & b' & Hrun2 & HB2 & Hsh2 & Hev2 & Hsy2 & Hpa2).
  pose proof (evolves_length _ _ _ Hev1) as Hlen1.
  assert (∀ x, x ∈ refs a' → x ∉ refs b) as Haway.
  { eapply Bin_refs_away; [done|auto|done]. }
  assert (∀ x n, x ∈ refs a' → h1 !! x = Some n → h2 !! x = Some n) as Hsame2.
  { intros x n Hx Hn. destruct (Hev2 x n Hn) as (n' & Hn' & _ & Heq & _).
    rewrite Hn'. f_equal. apply Heq. auto. }
  exists h1, h2, a', b'. repeat split; try done.
  - eapply shape_ext; [|done]. intros x n Hx Hn. exists n. auto.
  - intros x n Hn. destruct (Hev1 x n Hn) as (n1 & Hn1 & Hd1 & Heq1 & Hp1).
    destruct (Hev2 x n1 Hn1) as (n2 & Hn2 & Hd2 & Heq2 & Hp2).
    exists n2. split; [done|]. split; [by eapply same_data_trans|]. split.
    + intros Hxa Hxb. rewrite Heq2, Heq1 by done. done.
    + intros [->| ->].
      * rewrite Heq2, Hp1; [done..|]. apply Hdisj, root_in_refs.
      * rewrite Hp2, Heq1; [done| |done]. apply Hdisj', root_in_refs.
  - eapply synth_ok_evolve; [|done]. by eapply evolves_weaken.
  - eapply synth_ok_threshold; [|done].
    intros x [Hx|Hx]%elem_of_tail%(Bin_refs _ _ _ _ x HB2) Hle; [|lia].
    rewrite Forall_forall in Hltb. apply Hltb in Hx. lia.
  - intros Hp%Hpa1. eapply parents_ok_ext; [|done].
    intros x n Hx%elem_of_tail Hn. exists n. auto.
  - intros Hp. apply Hpa2. eapply parents_ok_ext; [|done].
    intros x n Hx%elem_of_tail Hn. exists n. by rewrite Hsame1.
Qed.

Lemma synth_ok_old a h c :
  Forall (λ x, x < a) (refs c) → synth_ok a h c.
Proof.
  intros Hlt s c' Hs Hc Ha. rewrite Forall_forall in Hlt.
  assert (root c' < a); [|lia].
  apply Hlt. eapply elem_of_tail, nodes_child_tail; [done..|apply root_in_refs].
Qed.

Lemma refs_one r c : refs (RT r [c]) = r :: refs c.
Proof. simpl. by rewrite app_nil_r. Qed.

Lemma refs_two r a b : refs (RT r [a; b]) = r :: refs a ++ refs b.
Proof. simpl. by rewrite app_nil_r. Qed.

Lemma inherits_new n rest p l :
  location n = Ok l →
  inherits n (Tree.Node num_zero [] rest p (Tree.attributes n) l
                (match Tree.alignment n with
                 | [] => [0%Z]
                 | _ => Tree.alignment n
                 end)).
Proof.
  intros Hl. unfold inherits. simpl. repeat split. rewrite Hl.
  unfold location in *. simpl. destruct l as [v|]; [done|].
  destruct (Tree._location n); [done|]. by rewrite <- Hl.
Qed.

(** In a list of disjoint trees, a node below a root is not a root. *)
Lemma tail_not_root cs c x :
  NoDup (concat (refs <$> cs)) → c ∈ cs → x ∈ tail (refs c) →
  x ∉ root <$> cs.
Proof.
  intros Hnd Hc Hx (c' & -> & Hc')%list_elem_of_fmap.
  induction cs as [|c0 cs IH]; [by apply elem_of_nil in Hc|].
  simpl in Hnd. apply NoDup_app in Hnd as (Hnd0 & Hdisj & Hnd).
  apply elem_of_cons in Hc as [->|Hc]; apply elem_of_cons in Hc' as [->|Hc'].
  - rewrite refs_root_tail in Hnd0. by apply NoDup_cons in Hnd0 as [? _].
  - apply (Hdisj (root c')); [by apply elem_of_tail|].
    eapply refs_subtree; [done|apply root_in_refs].
  - apply (Hdisj (root c0)); [apply root_in_refs|].
    eapply refs_subtree; [done|by apply elem_of_tail].
  - by apply IH.
Qed.

Lemma binarize_rec_spec f : bin_spec f.
Proof.
  induction f as [|f IH]; intros t h Hsz Hsh Hnd Hloc.
  { pose proof (size_pos t). lia. }
  destruct t as [r cs]. inversion Hsh as [? n ? Hn Hcs Hshs]; subst.
  pose proof (refs_lt _ _ Hsh) as Hlt. simpl in Hlt, Hnd, Hsz.
  apply Forall_cons in Hlt as [Hrlt Hlt]. apply NoDup_cons in Hnd as [Hr Hnd].
  destruct cs as [|c1 [|c2 [|c3 rest]]].
  - (* no child *)
    exists h, (RT r []). cbn [root]. split.
    { rewrite (binarize_rec_small _ _ _ n) by (done || (rewrite Hcs; simpl; lia)).
      by rewrite Hcs. }
    split; [constructor|]. split; [done|]. split; [|split; [|done]].
    + intros x m Hm. exists m. done.
    + apply synth_ok_old. simpl. constructor; [done|constructor].
  - (* one child *)
    simpl in Hcs, Hsz, Hlt, Hnd, Hr. rewrite app_nil_r in Hlt, Hnd, Hr.
    apply Forall_cons in Hshs as [Hsh1 _].
    destruct (IH c1 h) as (h' & c1' & Hrun & HB & Hsh' & Hev & Hsy & Hpa);
      [lia|done|done|by eapply locs_ok_subtree; [|left]|].
    destruct (Hev r n Hn) as (n' & Hn' & _ & Heq & _).
    rewrite (Heq Hr) in Hn'. clear n' Heq.
    exists h', (RT r [c1']). cbn [root]. split.
    { rewrite (binarize_rec_small _ _ _ n) by (done || (rewrite Hcs; simpl; lia)).
      rewrite Hcs. by apply for_each_one. }
    split; [by constructor|]. split; [|split; [|split]].
    + apply shape_node with n; [done| |by constructor].
      simpl. by rewrite (Bin_root _ _ _ _ HB).
    + intros x m Hm. destruct (Hev x m Hm) as (m' & Hm' & Hd & Heq & Hp).
      exists m'. split; [done|]. split; [done|]. split.
      * rewrite refs_one. intros [_ Hx]%not_elem_of_cons. auto.
      * simpl. intros ->. by rewrite Heq.
    + apply synth_ok_node; [|by intros c ->%list_elem_of_singleton].
      intros c ->%list_elem_of_singleton Hle.
      rewrite (Bin_root _ _ _ _ HB) in Hle.
      pose proof (root_in_refs c1) as Hin. rewrite Forall_forall in Hlt.
      apply Hlt in Hin. lia.
    + inversion 1 as [? ? Hp Hcsp]; subst.
      apply Forall_cons in Hp as [(m & Hm & Hpar) _].
      apply Forall_cons in Hcsp as [Hp1 _].
      destruct (Hev _ m Hm) as (m' & Hm' & _ & _ & Hroot).
      constructor; [|by constructor; auto].
      constructor; [|done]. exists m'. rewrite (Bin_root _ _ _ _ HB).
      split; [done|]. by rewrite Hroot.
  - (* two children *)
    simpl in Hcs, Hsz, Hlt, Hnd, Hr. rewrite app_nil_r in Hlt, Hnd, Hr.
    apply Forall_cons in Hshs as [Hsh1 Hshs].
    apply Forall_cons in Hshs as [Hsh2 _].
    destruct (bin_seq2 f c1 c2 h IH)
      as (h1 & h2 & c1' & c2' & Hrun1 & Hrun2 & HB1 & HB2 & Hs1 & Hs2
          & Hev & Hsy1 & Hsy2 & Hpa1 & Hpa2);
      [lia|lia|done|done|done
      |eapply locs_ok_subtree; [done|set_solver]
      |eapply locs_ok_subtree; [done|set_solver]|].
    apply not_elem_of_app in Hr as [Hr1 Hr2].
    apply Forall_app in Hlt as [Hlt1 Hlt2].
    destruct (Hev r n Hn) as (n' & Hn' & _ & Heq & _).
    rewrite (Heq Hr1 Hr2) in Hn'. clear n' Heq.
    exists h2, (RT r [c1'; c2']). cbn [root]. split.
    { rewrite (binarize_rec_small _ _ _ n) by (done || (rewrite Hcs; simpl; lia)).
      rewrite Hcs. by eapply for_each_two. }
    split; [by econstructor|]. split; [|split; [|split]].
    + apply shape_node with n; [done| |by repeat constructor].
      simpl. by rewrite (Bin_root _ _ _ _ HB1), (Bin_root _ _ _ _ HB2).
    + intros x m Hm. destruct (Hev x m Hm) as (m' & Hm' & Hd & Heq & Hp).
      exists m'. split; [done|]. split; [done|]. split.
      * rewrite refs_two.
        intros [_ [? ?]%not_elem_of_app]%not_elem_of_cons. auto.
      * simpl. intros ->. by rewrite Heq.
    + apply synth_ok_node.
      * rewrite Forall_forall in Hlt1, Hlt2.
        intros c [->| ->%list_elem_of_singleton]%elem_of_cons Hle.
        -- rewrite (Bin_root _ _ _ _ HB1) in Hle.
           pose proof (Hlt1 _ (root_in_refs c1)). lia.
        -- rewrite (Bin_root _ _ _ _ HB2) in Hle.
           pose proof (Hlt2 _ (root_in_refs c2)). lia.
      * by intros c [->| ->%list_elem_of_singleton]%elem_of_cons.
    + inversion 1 as [? ? Hp Hcsp]; subst.
      apply Forall_cons in Hp as [(m1 & Hm1 & Hpar1) Hp].
      apply Forall_cons in Hp as [(m2 & Hm2 & Hpar2) _].
      apply Forall_cons in Hcsp as [Hp1 Hcsp].
      apply Forall_cons in Hcsp as [Hp2 _].
      destruct (Hev _ m1 Hm1) as (m1' & Hm1' & _ & _ & Hroot1).
      destruct (Hev _ m2 Hm2) as (m2' & Hm2' & _ & _ & Hroot2).
      constructor; [|by repeat constructor; auto].
      repeat constructor.
      * exists m1'. rewrite (Bin_root _ _ _ _ HB1).
        split; [done|]. rewrite Hroot1; auto.
      * exists m2'. rewrite (Bin_root _ _ _ _ HB2).
        split; [done|]. rewrite Hroot2; auto.
  - (* more than two children: the first, and the others under a new node *)
    assert (2 ≤ length (c2 :: c3 :: rest)) as Hlen by (simpl; lia).
    remember (c2 :: c3 :: rest) as rs eqn:Hrs. clear Hrs c2 c3 rest.
    assert (Tree.children n = root c1 :: (root <$> rs)) as Hcs' by exact Hcs.
    assert (size c1 + sum_list (size <$> rs) ≤ f) as Hsz' by exact (le_S_n _ _ Hsz).
    assert (Forall (λ x, x < length h) (refs c1 ++ concat (refs <$> rs)))
      as Hlt' by exact Hlt.
    assert (NoDup (refs c1 ++ concat (refs <$> rs))) as Hnd' by exact Hnd.
    assert (r ∉ refs c1 ++ concat (refs <$> rs)) as Hr' by exact Hr.
    clear Hcs Hsz Hlt Hnd Hr.
    rename Hcs' into Hcs, Hsz' into Hsz, Hlt' into Hlt, Hnd' into Hnd, Hr' into Hr.
    apply Forall_cons in Hshs as [Hsh1 Hshs].
    apply Forall_app in Hlt as [Hlt1 Hlts].
    apply NoDup_app in Hnd as (Hnd1 & Hdisj & Hnds).
    apply not_elem_of_app in Hr as [Hr1 Hrs].
    set (nc := length h).
    assert (∀ x, x ∈ root <$> rs → x ∈ concat (refs <$> rs)) as Hroots.
    { intros x (c & -> & Hc)%list_elem_of_fmap.
      eapply refs_subtree; [done|apply root_in_refs]. }
    destruct (Hloc r n) as [l Hl]; [by left|done| |].
    { rewrite Hcs. simpl. rewrite length_fmap. lia. }
    destruct (binarize_rec_big f r h n (root c1) (root <$> rs) l)
      as (h2 & Hrun0 & Hlen2 & Hr2 & Hnc2 & Hout2 & Hin2);
      [done|done|by rewrite length_fmap|done| |by intros ?%Hroots|].
    { apply Forall_forall. intros x Hx%Hroots.
      rewrite Forall_forall in Hlts. auto. }
    fold nc in Hrun0, Hr2, Hnc2, Hin2.
    set (new := Tree.Node num_zero [] (root <$> rs) (Some r)
                  (Tree.attributes n) l _) in Hnc2.
    assert (∀ x m, h !! x = Some m →
              ∃ m', h2 !! x = Some m' ∧ same_data m m' ∧
                (x ≠ r → Tree.children m' = Tree.children m) ∧
                (x ∉ root <$> rs → Tree.parent m' = Tree.parent m) ∧
                (x ≠ r → x ∉ root <$> rs → m' = m)) as Hstep.
    { intros x m Hm. destruct (decide (x = r)) as [->|Hxr].
      { assert (m = n) as -> by congruence. eexists. split; [done|].
        repeat split; done. }
      destruct (decide (x ∈ root <$> rs)) as [Hx|Hx].
      { exists (set_parent (Some nc) m). rewrite Hin2, Hm by done.
        repeat split; done. }
      exists m. rewrite Hout2; [done|by eapply lookup_lt_Some|done..]. }
    assert (∀ c, (∀ x, x ∈ refs c → x ≠ r) → shape h c → shape h2 c) as Hshape2.
    { intros c Hc. apply shape_ext. intros x m Hx Hm.
      destruct (Hstep x m Hm) as (m' & Hm' & _ & Hch & _).
      exists m'. split; [done|]. apply Hch. auto. }
    assert (∀ c, (∀ x, x ∈ refs c → x ≠ r) → Forall (λ x, x < length h) (refs c) →
              locs_ok h c → locs_ok h2 c) as Hlocs2.
    { intros c Hc Hltc. apply locs_ok_ext. intros x m' Hx Hm'.
      rewrite Forall_forall in Hltc.
      destruct (lookup_lt_is_Some_2 h x (Hltc x Hx)) as [m Hm].
      destruct (Hstep x m Hm) as (m'' & Hm'' & Hd & Hch & _).
      assert (m'' = m') as -> by congruence.
      exists m. split; [done|]. split; [done|]. apply Hch. auto. }
    assert (shape h2 c1) as Hsh12.
    { apply Hshape2; [|done]. intros x Hx ->. done. }
    assert (Forall (shape h2) rs) as Hshs2.
    { rewrite Forall_forall in *. intros c Hc. apply Hshape2; [|auto].
      intros x Hx ->. apply Hrs. by eapply refs_subtree. }
    assert (shape h2 (RT nc rs)) as Hshn2 by by eapply shape_node.
    assert (nc ∉ concat (refs <$> rs)) as Hncrs.
    { rewrite Forall_forall in Hlts. intros ?%Hlts. unfold nc in *. lia. }
    assert (NoDup (refs c1 ++ refs (RT nc rs))) as Hnd2.
    { simpl. apply NoDup_app. split; [done|]. split.
      - intros x Hx [->|Hx']%elem_of_cons; [|by apply (Hdisj x)].
        rewrite Forall_forall in Hlt1. apply Hlt1 in Hx. unfold nc in *. lia.
      - by apply NoDup_cons. }
    assert (locs_ok h2 c1) as Hloc12.
    { apply Hlocs2; [by intros x Hx ->|done|].
      eapply locs_ok_subtree; [done|by left]. }
    assert (locs_ok h2 (RT nc rs)) as Hlocn2.
    { intros x m'. simpl. intros [->|Hx]%elem_of_cons Hm'.
      - assert (m' = new) as -> by congruence. intros _. exists l.
        destruct (inherits_new n (root <$> rs) (Some r) l Hl)
          as (_ & _ & _ & Hln & _).
        transitivity (location n); [exact Hln|done].
      - apply elem_of_concat in Hx as (lc & Hx & (c & -> & Hc)%list_elem_of_fmap).
        refine (Hlocs2 c _ _ _ x m' Hx Hm').
        + intros y Hy ->. apply Hrs. by eapply refs_subtree.
        + rewrite Forall_forall in *. intros y Hy. apply Hlts.
          by eapply refs_subtree.
        + eapply locs_ok_subtree; [done|by right]. }
    pose proof (size_pos c1) as Hpos.
    destruct (bin_seq2 f c1 (RT nc rs) h2 IH)
      as (h3 & h4 & c1' & s' & Hrun1 & Hrun2 & HB1 & HB2 & Hs1 & Hs2
          & Hev & Hsy1 & Hsy2 & Hpa1 & Hpa2);
      [lia|simpl; lia|done..|].
    rewrite Hlen2 in HB1. fold nc in HB1. cbn [root] in Hrun2.
    assert (r ≠ nc) as Hrnc by (unfold nc; lia).
    assert (r ∉ refs (RT nc rs)) as Hrn.
    { simpl. by intros [?|?]%elem_of_cons. }
    destruct (Hev r _ Hr2) as (n4 & Hn4 & _ & Heq4 & _).
    rewrite (Heq4 Hr1 Hrn) in Hn4. clear n4 Heq4.
    assert (NoDup (refs s')) as Hnds'.
    { apply (Bin_NoDup _ _ _ _ HB2); [|simpl; by apply NoDup_cons].
      eapply Forall_impl; [apply (refs_lt _ _ Hshn2)|].
      intros x Hx. simpl in Hx. pose proof (Bin_next _ _ _ _ HB1). lia. }
    exists h4, (RT r [c1'; s']). cbn [root]. split.
    { rewrite Hrun0. by eapply for_each_two. }
    split; [by apply (Bin_more _ _ _ _ _ _ (length h3))|].
    split; [|split; [|split]].
    + eapply shape_node; [exact Hn4| |by repeat constructor].
      simpl. by rewrite (Bin_root _ _ _ _ HB1), (Bin_root _ _ _ _ HB2).
    + intros x m Hm.
      destruct (Hstep x m Hm) as (m2 & Hm2 & Hd2 & _ & Hp2 & Heq2).
      destruct (Hev x m2 Hm2) as (m4 & Hm4 & Hd4 & Heq4 & _).
      exists m4. split; [done|]. split; [by eapply same_data_trans|].
      assert (x ≠ nc) as Hxnc.
      { apply lookup_lt_Some in Hm. unfold nc. lia. }
      split.
      * intros Hx. change (x ∉ r :: (refs c1 ++ concat (refs <$> rs))) in Hx.
        apply not_elem_of_cons in Hx as [Hxr [Hx1 Hxs]%not_elem_of_app].
        rewrite Heq4, Heq2; [done|done|by intros ?%Hroots|done|].
        simpl. by intros [?|?]%elem_of_cons.
      * simpl. intros ->. rewrite Heq4 by done. apply Hp2. by intros ?%Hroots.
    + apply synth_ok_node.
      * intros c [->| ->%list_elem_of_singleton]%elem_of_cons Hle.
        -- rewrite (Bin_root _ _ _ _ HB1) in Hle. rewrite Forall_forall in Hlt1.
           pose proof (Hlt1 _ (root_in_refs c1)). lia.
        -- destruct (Hev nc new Hnc2) as (m & Hm & Hd & _).
           exists (set_children [root c1; nc] n), m.
           rewrite (Bin_root _ _ _ _ HB2). cbn [root].
           split; [done|]. split; [done|].
           eapply inherits_same_data;
             [apply (inherits_new n (root <$> rs) (Some r) l Hl)
             |apply same_data_set_children|done].
      * intros c [->| ->%list_elem_of_singleton]%elem_of_cons.
        -- eapply synth_ok_threshold; [|exact Hsy1].
           intros x [Hx|Hx]%elem_of_tail%(Bin_refs _ _ _ _ x HB1) Hle; [|lia].
           rewrite Forall_forall in Hlt1. apply Hlt1 in Hx. lia.
        -- eapply synth_ok_threshold; [|exact Hsy2].
           intros x Hx Hle. assert (x ≠ nc); [|lia]. intros ->.
           rewrite refs_root_tail, (Bin_root _ _ _ _ HB2) in Hnds'.
           by apply NoDup_cons in Hnds' as [? _].
    + inversion 1 as [? ? Hp Hcsp]; subst.
      apply Forall_cons in Hp as [(m1 & Hm1 & Hpar1) Hp].
      apply Forall_cons in Hcsp as [Hp1 Hcsp].
      assert (parents_ok h2 c1) as Hp12.
      { eapply parents_ok_ext; [|exact Hp1].
        intros x m Hx%elem_of_tail Hm.
        destruct (Hstep x m Hm) as (m' & Hm' & _ & _ & Hpar & _).
        exists m'. split; [done|]. apply Hpar.
        intros ?%Hroots. by apply (Hdisj x). }
      assert (parents_ok h2 (RT nc rs)) as Hpn2.
      { constructor.
        - apply Forall_forall. intros c Hc. rewrite Forall_forall in Hp.
          destruct (Hp c Hc) as (m & Hm & _).
          exists (set_parent (Some nc) m).
          rewrite Hin2 by (by apply list_elem_of_fmap_2). by rewrite Hm.
        - rewrite Forall_forall in Hcsp |- *. intros c Hc.
          eapply parents_ok_ext; [|by apply Hcsp]. intros x m Hx Hm.
          destruct (Hstep x m Hm) as (m' & Hm' & _ & _ & Hpar & _).
          exists m'. split; [done|]. apply Hpar. by eapply tail_not_root. }
      constructor; [|repeat constructor; auto].
      repeat constructor.
      * destruct (Hstep _ m1 Hm1) as (m2 & Hm2 & _ & _ & Hpar2 & _).
        destruct (Hev _ m2 Hm2) as (m4 & Hm4 & _ & _ & Hroot).
        exists m4. rewrite (Bin_root _ _ _ _ HB1). split; [done|].
        rewrite Hroot by auto. rewrite Hpar2; [done|].
        intros ?%Hroots. apply (Hdisj (root c1)); [apply root_in_refs|done].
      * destruct (Hev nc new Hnc2) as (m4 & Hm4 & _ & _ & Hroot).
        exists m4. rewrite (Bin_root _ _ _ _ HB2). split; [done|].
        rewrite Hroot; [done|by right].
Qed.

Lemma shape_nodes h t s :
  shape h t → s ∈ nodes t →
  ∃ n, h !! root s = Some n ∧ Tree.children n = root <$> subtrees s.
Proof.
  induction t as [r cs IH] using rtree_ind'. intros Hsh. simpl.
  intros [->|(l & Hs & (c & -> & Hc)%list_elem_of_fmap)%elem_of_concat]%elem_of_cons.
  - by apply shape_lookup.
  - apply shape_subtrees in Hsh. simpl in Hsh.
    rewrite Forall_forall in IH, Hsh. by apply (IH c Hc); [apply Hsh|].
Qed.

Lemma nodes_self t : t ∈ nodes t.
Proof. destruct t. by left. Qed.

Lemma nodes_subtree s c cs r : c ∈ cs → s ∈ nodes c → s ∈ nodes (RT r cs).
Proof.
  intros Hc Hs. simpl. right. apply elem_of_concat. exists (nodes c).
  split; [done|]. by apply list_elem_of_fmap_2.
Qed.

Lemma nodes_inv s r cs :
  s ∈ nodes (RT r cs) → s = RT r cs ∨ ∃ c, c ∈ cs ∧ s ∈ nodes c.
Proof.
  simpl.
  intros [->|(l & Hs & (c & -> & Hc)%list_elem_of_fmap)%elem_of_concat]%elem_of_cons;
    eauto.
Qed.

(** A node with more than two children keeps the first one, and its
    second child is a new node. *)
Lemma Bin_kept n t t' n' s c0 rest :
  Bin n t t' n' → s ∈ nodes t → subtrees s = c0 :: rest → 2 ≤ length rest →
  ∃ s' c0' nt, s' ∈ nodes t' ∧ root s' = root s ∧ subtrees s' = [c0'; nt] ∧
    root c0' = root c0 ∧ n ≤ root nt < n'.
Proof.
  intros HB. revert s c0 rest. induction HB as
    [r n|r c c' n n' HB IH|r c1 c2 c1' c2' n n1 n2 HB1 IH1 HB2 IH2
    |r c1 rs c1' s1' n n1 n2 Hlen HB0 IH0 HBs IHs];
    intros s c0 rest Hs Hsub Hrest.
  - apply nodes_inv in Hs as [->|(c & []%elem_of_nil & _)]. done.
  - apply nodes_inv in Hs as [->|(c0' & ->%list_elem_of_singleton & Hs)].
    { injection Hsub as <- <-. simpl in Hrest. lia. }
    destruct (IH _ _ _ Hs Hsub Hrest) as (s' & c0'' & nt & Hs' & ?).
    exists s', c0'', nt. split; [|done]. eapply nodes_subtree; [|done]. by left.
  - pose proof (Bin_next _ _ _ _ HB1). pose proof (Bin_next _ _ _ _ HB2).
    apply nodes_inv in Hs
      as [->|(c & [->| ->%list_elem_of_singleton]%elem_of_cons & Hs)].
    { injection Hsub as <- <-. simpl in Hrest. lia. }
    + destruct (IH1 _ _ _ Hs Hsub Hrest) as (s' & c0'' & nt & Hs' & ? & ? & ? & ?).
      exists s', c0'', nt. split; [eapply nodes_subtree; [|done]; by left|].
      repeat split; (done || lia).
    + destruct (IH2 _ _ _ Hs Hsub Hrest) as (s' & c0'' & nt & Hs' & ? & ? & ? & ?).
      exists s', c0'', nt.
      split; [eapply nodes_subtree; [|done]; by right; left|].
      repeat split; (done || lia).
  - pose proof (Bin_next _ _ _ _ HB0). pose proof (Bin_next _ _ _ _ HBs).
    apply nodes_inv in Hs as [->|(c & [->|Hc]%elem_of_cons & Hs)].
    + injection Hsub as <- <-. exists (RT r [c1'; s1']), c1', s1'.
      split; [apply nodes_self|]. rewrite (Bin_root _ _ _ _ HB0).
      rewrite (Bin_root _ _ _ _ HBs). simpl. repeat split; (done || lia).
    + destruct (IH0 _ _ _ Hs Hsub Hrest) as (s' & c0'' & nt & Hs' & ? & ? & ? & ?).
      exists s', c0'', nt. split; [eapply nodes_subtree; [|done]; by left|].
      repeat split; (done || lia).
    + destruct (IHs s c0 rest) as (s' & c0'' & nt & Hs' & ? & ? & ? & ?);
        [by eapply nodes_subtree|done..|].
      exists s', c0'', nt.
      split; [eapply nodes_subtree; [|done]; by right; left|].
      repeat split; (done || lia).
Qed.

(** A new node is the second of two children, after a node that was
    there before, and has two children itself. *)
Lemma Bin_new n t t' n' s c :
  Bin n t t' n' → Forall (λ x, x < n) (refs t) → NoDup (refs t) →
  s ∈ nodes t' → c ∈ subtrees s → n ≤ root c →
  ∃ c0, subtrees s = [c0; c] ∧ root c0 < n ∧ length (subtrees c) = 2.
Proof.
  intros HB. revert s c. induction HB as
    [r n|r c1 c1' n n' HB IH|r c1 c2 c1' c2' n n1 n2 HB1 IH1 HB2 IH2
    |r c1 rs c1' s1' n n1 n2 Hlen HB0 IH0 HBs IHs];
    intros s c Hlt Hnd Hs Hc Hle; rewrite ?refs_one, ?refs_two in Hlt, Hnd.
  - apply nodes_inv in Hs as [->|(c' & []%elem_of_nil & _)].
    by apply elem_of_nil in Hc.
  - apply Forall_cons in Hlt as [_ Hlt]. apply NoDup_cons in Hnd as [_ Hnd].
    apply nodes_inv in Hs as [->|(c0' & ->%list_elem_of_singleton & Hs)];
      [|by apply IH].
    apply list_elem_of_singleton in Hc as ->.
    rewrite (Bin_root _ _ _ _ HB) in Hle. rewrite Forall_forall in Hlt.
    pose proof (Hlt _ (root_in_refs c1)). lia.
  - apply Forall_cons in Hlt as [_ [Hlt1 Hlt2]%Forall_app].
    apply NoDup_cons in Hnd as [_ (Hnd1 & _ & Hnd2)%NoDup_app].
    pose proof (Bin_next _ _ _ _ HB1) as Hn1.
    apply nodes_inv in Hs
      as [->|(c' & [->| ->%list_elem_of_singleton]%elem_of_cons & Hs)].
    + rewrite Forall_forall in Hlt1, Hlt2.
      pose proof (Hlt1 _ (root_in_refs c1)). pose proof (Hlt2 _ (root_in_refs c2)).
      apply elem_of_cons in Hc as [->| ->%list_elem_of_singleton].
      * rewrite (Bin_root _ _ _ _ HB1) in Hle. lia.
      * rewrite (Bin_root _ _ _ _ HB2) in Hle. lia.
    + by apply IH1.
    + assert (Forall (λ x, x < n1) (refs c2)) as Hlt2'.
      { eapply Forall_impl; [done|]. simpl. lia. }
      assert (n1 ≤ root c) as Hle'.
      { pose proof (nodes_child_tail _ _ _ Hs Hc _ (root_in_refs c)) as Hin.
        apply elem_of_tail, (Bin_refs _ _ _ _ _ HB2) in Hin as [Hin|?]; [|lia].
        rewrite Forall_forall in Hlt2. apply Hlt2 in Hin. lia. }
      destruct (IH2 s c Hlt2' Hnd2 Hs Hc Hle') as (c0 & Hsub & Hc0 & ?).
      exists c0. repeat split; try done.
      assert (root c0 ∈ refs c2') as Hin.
      { eapply elem_of_tail, nodes_child_tail; [done| |apply root_in_refs].
        rewrite Hsub. by left. }
      apply (Bin_refs _ _ _ _ _ HB2) in Hin as [Hin|?]; [|lia].
      rewrite Forall_forall in Hlt2. by apply Hlt2.
  - change (refs (RT r (c1 :: rs))) with (r :: refs c1 ++ concat (refs <$> rs))
      in Hlt, Hnd.
    apply Forall_cons in Hlt as [_ [Hlt1 Hlts]%Forall_app].
    apply NoDup_cons in Hnd as [_ (Hnd1 & _ & Hnds)%NoDup_app].
    pose proof (Bin_next _ _ _ _ HB0) as Hn1.
    assert (Forall (λ x, x < n1) (refs (RT n rs))) as Hlts'.
    { simpl. apply Forall_cons. split; [lia|].
      eapply Forall_impl; [done|]. simpl. lia. }
    assert (NoDup (refs (RT n rs))) as Hnds'.
    { simpl. apply NoDup_cons. split; [|done].
      rewrite Forall_forall in Hlts. intros ?%Hlts. lia. }
    apply nodes_inv in Hs
      as [->|(c' & [->| ->%list_elem_of_singleton]%elem_of_cons & Hs)].
    + apply elem_of_cons in Hc as [->| ->%list_elem_of_singleton].
      * rewrite (Bin_root _ _ _ _ HB0) in Hle. rewrite Forall_forall in Hlt1.
        pose proof (Hlt1 _ (root_in_refs c1)). lia.
      * exists c1'. split; [done|]. split.
        -- rewrite (Bin_root _ _ _ _ HB0). rewrite Forall_forall in Hlt1.
           apply Hlt1, root_in_refs.
        -- inversion HBs; subst; simpl in *; (done || lia).
    + assert (Forall (λ x, x < S n) (refs c1)) as Hlt1'.
      { eapply Forall_impl; [done|]. simpl. lia. }
      assert (S n ≤ root c) as Hle'.
      { pose proof (nodes_child_tail _ _ _ Hs Hc _ (root_in_refs c)) as Hin.
        apply elem_of_tail, (Bin_refs _ _ _ _ _ HB0) in Hin as [Hin|?]; [|lia].
        rewrite Forall_forall in Hlt1. apply Hlt1 in Hin. lia. }
      destruct (IH0 s c Hlt1' Hnd1 Hs Hc Hle') as (c0 & Hsub & Hc0 & ?).
      exists c0. repeat split; try done.
      assert (root c0 ∈ refs c1') as Hin.
      { eapply elem_of_tail, nodes_child_tail; [done| |apply root_in_refs].
        rewrite Hsub. by left. }
      apply (Bin_refs _ _ _ _ _ HB0) in Hin as [Hin|?]; [|lia].
      rewrite Forall_forall in Hlt1. by apply Hlt1.
    + pose proof (Bin_NoDup _ _ _ _ HBs Hlts' Hnds') as Hnd'.
      rewrite refs_root_tail, (Bin_root _ _ _ _ HBs) in Hnd'. simpl in Hnd'.
      apply NoDup_cons in Hnd' as [Hn _].
      assert (∀ x, x ∈ tail (refs s1') → x < n ∨ n1 ≤ x) as Hold.
      { intros x Hx. assert (x ≠ n) by by intros ->.
        apply elem_of_tail, (Bin_refs _ _ _ _ _ HBs) in Hx as [Hx|?]; [|lia].
        simpl in Hx. apply elem_of_cons in Hx as [?|Hx]; [done|].
        rewrite Forall_forall in Hlts. left. by apply Hlts. }
      assert (n1 ≤ root c) as Hle'.
      { pose proof (nodes_child_tail _ _ _ Hs Hc _ (root_in_refs c)) as Hin.
        apply Hold in Hin. lia. }
      destruct (IHs s c Hlts' Hnds' Hs Hc Hle') as (c0 & Hsub & Hc0 & ?).
      exists c0. repeat split; try done.
      assert (root c0 ∈ tail (refs s1')) as Hin.
      { eapply nodes_child_tail; [done| |apply root_in_refs].
        rewrite Hsub. by left. }
      apply Hold in Hin. lia.
Qed.

Lemma nodes_child s c t : s ∈ nodes t → c ∈ subtrees s → c ∈ nodes t.
Proof.
  induction t as [r cs IH] using rtree_ind'.
  intros [->|(c' & Hc' & Hs)]%nodes_inv Hc.
  - eapply nodes_subtree; [done|apply nodes_self].
  - rewrite Forall_forall in IH. eapply nodes_subtree; [done|]. by apply IH.
Qed.

(** On a binary tree [binarize] changes nothing. *)
Lemma binarize_rec_binary f h t :
  shape h t → binary t → size t ≤ f → binarize_rec f (root t) h = Ok (tt, h).
Proof.
  revert f. induction t as [r cs IH] using rtree_ind'.
  intros [|f] Hsh [Hlen Hbin] Hsz; [simpl in Hsz; lia|].
  inversion Hsh as [? n ? Hn Hcs Hshs]; subst. simpl in Hsz.
  cbn [root].
  rewrite (binarize_rec_small _ _ _ n) by (done || by rewrite Hcs, length_fmap).
  rewrite Hcs. apply le_S_n in Hsz. clear Hlen Hcs Hn Hsh.
  induction cs as [|c cs IHcs]; [done|].
  apply Forall_cons in IH as [IHc IH]. apply Forall_cons in Hshs as [Hc Hshs].
  destruct Hbin as [Hbc Hbin]. csimpl in Hsz. csimpl.
  rewrite (bind_ok _ _ _ tt h) by (apply IHc; (done || lia)).
  apply IHcs; (done || lia).
Qed.

(** C6, as the code has it. On a tree in which the location of every
    node with more than two children can be read, [binarize] returns and
    leaves a tree in which every node has at most two children. The
    objects keep their data; merging the new nodes into their parents
    gives the tree back. A node that had more than two children keeps
    its first child, and its second child is a new node. A new node is
    the second of the two children of its parent, has length 0, the
    attributes and the location of its parent, the alignment of its
    parent or [[0]] where that is empty, and two children. A consistent
    parent relation stays consistent. On a tree that is binary already
    the store is left as it is, as it is by a second call. *)
Theorem binarize_spec h t :
  is_tree h t → locs_ok h t →
  ∃ h' t',
    binarize (root t) h = Ok (tt, h') ∧
    is_tree h' t' ∧ root t' = root t ∧ binary t' ∧
    (∀ x n, h !! x = Some n → ∃ n', h' !! x = Some n' ∧ same_data n n') ∧
    contract (length h) t' = t ∧
    (∀ s c0 rest,
       s ∈ nodes t → subtrees s = c0 :: rest → 2 ≤ length rest →
       ∃ n' nc, h' !! root s = Some n' ∧
         Tree.children n' = [root c0; nc] ∧ length h ≤ nc < length h') ∧
    (∀ s c,
       s ∈ nodes t' → c ∈ subtrees s → length h ≤ root c →
       ∃ pn m c0, h' !! root s = Some pn ∧ h' !! root c = Some m ∧
         Tree.children pn = [c0; root c] ∧ c0 < length h ∧
         inherits pn m ∧ length (Tree.children m) = 2) ∧
    (parents_ok h t → parents_ok h' t') ∧
    (binary t → h' = h ∧ t' = t) ∧
    binarize (root t') h' = Ok (tt, h').
Proof.
  intros Ht Hloc. pose proof (size_le_heap _ _ Ht) as Hsz.
  destruct Ht as [Hsh Hnd]. pose proof (refs_lt _ _ Hsh) as Hlt.
  destruct (binarize_rec_spec (S (length h)) t h)
    as (h' & t' & Hrun & HB & Hsh' & Hev & Hsy & Hpa); [lia|done..|].
  pose proof (Bin_NoDup _ _ _ _ HB Hlt Hnd) as Hnd'.
  assert (is_tree h' t') as Ht' by done.
  exists h', t'. split; [done|]. split; [done|].
  split; [by eapply Bin_root|]. split; [by eapply Bin_binary|].
  split; [by eapply evolves_weaken|]. split; [by eapply Bin_contract|].
  split; [|split; [|split; [done|split]]].
  - intros s c0 rest Hs Hsub Hrest.
    destruct (Bin_kept _ _ _ _ _ _ _ HB Hs Hsub Hrest)
      as (s' & c0' & nt & Hs' & Hroot & Hsub' & Hc0 & Hnt).
    destruct (shape_nodes _ _ _ Hsh' Hs') as (n' & Hn' & Hcs).
    exists n', (root nt). rewrite <- Hroot, Hcs, Hsub'. simpl.
    by rewrite Hc0.
  - intros s c Hs Hc Hle.
    destruct (Bin_new _ _ _ _ _ _ HB Hlt Hnd Hs Hc Hle) as (c0 & Hsub & Hc0 & Hlen).
    destruct (Hsy s c Hs Hc Hle) as (pn & m & Hpn & Hm & Hinh).
    destruct (shape_nodes _ _ _ Hsh' Hs) as (pn' & Hpn' & Hcs).
    destruct (shape_nodes _ _ c Hsh') as (m' & Hm' & Hcm);
      [by eapply nodes_child|].
    assert (pn' = pn) as -> by congruence. assert (m' = m) as -> by congruence.
    exists pn, m, (root c0). split; [done|]. split; [done|].
    split; [by rewrite Hcs, Hsub|]. split; [done|]. split; [done|].
    by rewrite Hcm, length_fmap.
  - intros Hbin. destruct (Bin_id _ _ _ _ HB Hbin) as [-> _].
    unfold binarize in Hrun.
    rewrite (binarize_rec_binary _ _ _ Hsh Hbin) in Hrun by lia.
    by injection Hrun as <-.
  - unfold binarize. apply binarize_rec_binary; [done|by eapply Bin_binary|].
    pose proof (size_le_heap _ _ Ht'). lia.
Qed.

(** *** [to_newick] and [parse_tree] *)

Lemma mapM_render (g : ref → result str) h cs :
  Forall (λ c, g (root c) = Ok (render h c)) cs →
  mapM g (root <$> cs) = Ok (render h <$> cs).
Proof.
  induction 1 as [|c cs Hc _ IH]; [done|].
  unfold mapM in *. csimpl. rewrite Hc. simpl. by rewrite IH.
Qed.

Lemma to_newick_rec_render h t fuel :
  shape h t → depth t ≤ fuel →
  to_newick_rec fuel h (root t) false = Ok (render h t).
Proof.
  revert fuel. induction t as [r cs IH] using rtree_ind'.
  intros [|f] Hs Hd; [simpl in Hd; lia|].
  inversion Hs as [? n ? Hn Hcs Hshs]; subst. simpl in Hd. apply le_S_n in Hd.
  cbn [root to_newick_rec render]. unfold node_at. rewrite Hn. cbn [of_option].
  assert (mapM (λ c, to_newick_rec f h c false) (root <$> cs)
          = Ok (render h <$> cs)) as Hmap.
  { apply mapM_render. rewrite Forall_forall in *. intros c Hc.
    apply IH; auto. pose proof (depth_subtree _ _ Hc). lia. }
  rewrite (result_bind_ok _ _ n) by done. cbn beta.
  rewrite Hcs. destruct cs as [|c cs].
  - simpl. by destruct (Tree.attributes n).
  - rewrite fmap_cons in Hmap |- *. rewrite Hmap. simpl.
    by destruct (Tree.attributes n).
Qed.

Lemma parse_attributes_none (s : str) :
  parse_attributes (":" :: s) = Ok ([], ":" :: s).
Proof. done. Qed.

Lemma location_no_attributes n key :
  Tree.attributes n = [] → get_location_from_attributes n key = Ok None.
Proof. intros Ha. unfold get_location_from_attributes. by rewrite Ha. Qed.

(** The end of [parse_tree] on [:length], for a node without
    attributes. *)
Lemma build_node_ok name rs x (rest : str) key wa h1 :
  num_ok x → delimited rest → Forall (λ c, c < length h1) rs →
  ∃ h2,
    build_node name rs (":" :: str_of_num x ++ rest) key false wa h1
    = Ok ((length h1, rest), h2) ∧
    length h2 = S (length h1) ∧
    h2 !! length h1 = Some (Tree.Node x name rs None [] None [0%Z]) ∧
    (∀ y, y < length h1 → y ∉ rs → h2 !! y = h1 !! y) ∧
    (∀ y, y ∈ rs → h2 !! y = set_parent (Some (length h1)) <$> h1 !! y).
Proof.
  intros (Hf & Hc & Hp) Hrest Hlt.
  destruct (Tree_init_ok x name rs None [] None [] h1 Hlt)
    as (h2 & Hinit & Hlen & Hnew & Hout & Hin).
  exists h2. split; [|done].
  unfold build_node.
  rewrite (bind_ok _ _ _ (([] : dict), ":" :: str_of_num x ++ rest) h1)
    by by destruct wa.
  cbn beta iota.
  rewrite (bind_ok _ _ _ (x, rest) h1).
  2:{ apply lift_ok. rewrite parse_length_number by done. by rewrite Hf. }
  cbn beta iota. rewrite (bind_ok _ _ _ (length h1) h2) by done.
  rewrite (bind_ok _ _ _ _ h2) by (apply get_ok; exact Hnew).
  rewrite (bind_ok _ _ _ None h2) by by apply lift_ok, location_no_attributes.
  rewrite (bind_ok _ _ _ tt h2).
  2:{ rewrite (modify_ok _ _ _ _ Hnew). f_equal. f_equal.
      by apply list_insert_id. }
  by rewrite (bind_ok _ _ _ tt h2).
Qed.

Lemma mirrors_ext h h1 h2 t t' :
  (∀ x n, x ∈ refs t' → h1 !! x = Some n →
     ∃ n', h2 !! x = Some n' ∧ same_data n n') →
  mirrors h h1 t t' → mirrors h h2 t t'.
Proof.
  revert t'. induction t as [r cs IH] using rtree_ind'. intros t' Hx.
  inversion 1 as [? ? n r' cs' n' Hn Hn' Hlen Hattr Hcs]; subst.
  destruct (Hx r' n') as (n'' & Hn'' & Hd); [by left|done|].
  apply same_data_fields in Hd as (Hl & _ & Ha & _).
  apply mirrors_node with n n''; [done || congruence..|].
  assert (∀ c' x m, c' ∈ cs' → x ∈ refs c' → h1 !! x = Some m →
            ∃ m', h2 !! x = Some m' ∧ same_data m m') as Hx'.
  { intros c' x m Hc' Hxc. apply Hx. simpl. right. by eapply refs_subtree. }
  clear -IH Hcs Hx'. induction Hcs as [|c c' cs cs' Hc _ IHcs]; [done|].
  apply Forall_cons in IH as [IHc IH]. constructor.
  - apply IHc; [|done]. intros x m Hxc. apply (Hx' c'); [by left|done].
  - apply IHcs; [done|]. intros c'' x m Hc''. apply Hx'. by right.
Qed.

Lemma built_length h t h0 h0' t' : built h t h0 h0' t' → length h0 < length h0'.
Proof.
  intros (_ & _ & _ & Hb & _). rewrite Forall_forall in Hb.
  pose proof (Hb _ (root_in_refs t')). lia.
Qed.

(** What holds of a tree in a store holds in a store that agrees with it
    below its length. *)
Lemma built_frame h t h0 h1 h2 t' :
  built h t h0 h1 t' →
  (∀ x, x < length h1 → h2 !! x = h1 !! x) → length h1 ≤ length h2 →
  built h t h0 h2 t'.
Proof.
  intros (Hfr & Hsh & Hnd & Hb & Hm & Hp) Hfr2 Hlen.
  pose proof (built_length _ _ _ _ _ (conj Hfr (conj Hsh (conj Hnd (conj Hb (conj Hm Hp)))))).
  rewrite Forall_forall in Hb.
  assert (∀ x n, x ∈ refs t' → h1 !! x = Some n → h2 !! x = Some n) as Hsame.
  { intros x n Hx%Hb Hn. rewrite Hfr2; [done|lia]. }
  split; [|split; [|split; [done|split; [|split]]]].
  - intros x Hx. rewrite Hfr2 by lia. by apply Hfr.
  - eapply shape_ext; [|done]. intros x n Hx Hn. exists n. auto.
  - apply Forall_forall. intros x Hx%Hb. lia.
  - eapply mirrors_ext; [|done]. intros x n Hx Hn. exists n. split; [auto|done].
  - eapply parents_ok_ext; [|done]. intros x n Hx%elem_of_tail Hn. exists n. auto.
Qed.

Lemma str_join_cons (sep w w2 : str) ws :
  str_join sep (w :: w2 :: ws) = w ++ sep ++ str_join sep (w2 :: ws).
Proof. done. Qed.

Lemma children_loop_step P k (s : str) acc :
  children_loop P (S k) s acc
  = if startswith s (lit "(") || startswith s (lit ",")
    then '(child, s') ← P (drop 1 s); children_loop P k s' (acc ++ [child])
    else mret (acc, s).
Proof. done. Qed.

Lemma startswith_sep sep (s : str) :
  sep = "(" ∨ sep = "," →
  startswith (sep :: s) (lit "(") || startswith (sep :: s) (lit ",") = true.
Proof. by intros [-> | ->]. Qed.

(** The loop over the children of an inner node, on their texts. *)
Lemma children_loop_render P h cs :
  cs ≠ [] →
  Forall (λ c, ∀ (rest : str) h0, delimited rest →
     ∃ h0' t', P (render h c ++ rest) h0 = Ok ((root t', rest), h0') ∧
       built h c h0 h0' t') cs →
  ∀ k sep acc (tail : str) h0, sep = "(" ∨ sep = "," → length cs < k →
  ∃ h0' cs',
    children_loop P k
      (sep :: str_join (lit ",") (render h <$> cs) ++ ")" :: tail) acc h0
    = Ok ((acc ++ (root <$> cs'), ")" :: tail), h0') ∧
    (∀ x, x < length h0 → h0' !! x = h0 !! x) ∧
    length h0 ≤ length h0' ∧
    Forall (shape h0') cs' ∧ NoDup (concat (refs <$> cs')) ∧
    Forall (λ x, length h0 ≤ x < length h0') (concat (refs <$> cs')) ∧
    Forall2 (mirrors h h0') cs cs' ∧ Forall (parents_ok h0') cs'.
Proof.
  induction cs as [|c cs IH]; [done|]. intros _ [Hc HP]%Forall_cons.
  intros [|k] sep acc tail h0 Hsep Hk; [lia|].
  rewrite children_loop_step, startswith_sep by done. cbn [drop].
  destruct cs as [|c2 cs].
  - (* the last child *)
    destruct (Hc (")" :: tail) h0) as (h1 & t' & Hrun & Hb); [right; eauto|].
    pose proof (built_length _ _ _ _ _ Hb) as Hlen.
    destruct Hb as (Hfr & Hsh & Hnd & Hbd & Hm & Hp).
    exists h1, [t']. simpl in Hk. destruct k as [|k]; [lia|].
    split; [|split; [done|split; [lia|]]].
    { cbn [fmap list_fmap str_join].
      rewrite (bind_ok _ _ _ (root t', ")" :: tail) h1) by done.
      done. }
    simpl. rewrite app_nil_r. repeat split; try done; by repeat constructor.
  - (* a child followed by others *)
    rewrite fmap_cons, fmap_cons, str_join_cons, <- fmap_cons.
    rewrite <- !app_assoc. cbn [lit list_ascii_of_string app].
    destruct (Hc ("," :: str_join [","] (render h <$> c2 :: cs) ++ ")" :: tail) h0)
      as (h1 & t' & Hrun & Hb); [right; eauto|].
    pose proof (built_length _ _ _ _ _ Hb) as Hlen.
    destruct (IH ltac:(done) HP k "," (acc ++ [root t']) tail h1)
      as (h2 & cs' & Hrun2 & Hfr2 & Hlen2 & Hshs & Hnds & Hbds & Hms & Hps);
      [by right|simpl in *; lia|].
    pose proof (built_frame _ _ _ _ _ _ Hb Hfr2 Hlen2)
      as (Hfr & Hsh & Hnd & Hbd & Hm & Hp).
    destruct Hb as (_ & _ & _ & Hbd1 & _).
    exists h2, (t' :: cs').
    split; [|split; [done|split; [lia|]]].
    { rewrite (bind_ok _ _ _ (root t', _) h1) by exact Hrun.
      cbn beta iota. change (lit ",") with [","] in Hrun2. rewrite Hrun2.
      by rewrite <- app_assoc. }
    rewrite fmap_cons. simpl concat.
    split; [by constructor|]. split; [|split; [|split; by constructor]].
    + apply NoDup_app. split; [done|]. split; [|done].
      rewrite Forall_forall in Hbd1, Hbds. intros x Hx1%Hbd1 Hx2%Hbds. lia.
    + apply Forall_app. split; [done|].
      eapply Forall_impl; [done|]. simpl. lia.
Qed.

Lemma startswith_name (name x : str) :
  name_ok name → startswith (name ++ ":" :: x) (lit "(") = false.
Proof.
  intros (_ & _ & Hp). destruct name as [|a name]; [done|]. simpl.
  rewrite bool_decide_false; [done|]. intros <-. apply Hp. eauto.
Qed.

Lemma name_stop_name (name x : str) wa :
  name_ok name → name_stop (name ++ ":" :: x) wa = length name.
Proof.
  intros (Hc & Hb & _). unfold name_stop. rewrite find_app_cons by done.
  destruct wa; [|done]. pose proof (find_app_ge name (":" :: x) "[" Hb). lia.
Qed.

Lemma length_le_sizes cs : length cs ≤ sum_list (size <$> cs).
Proof.
  induction cs as [|c cs IH]; csimpl; [done|]. pose proof (size_pos c). lia.
Qed.

Lemma size_subtree c cs : c ∈ cs → size c ≤ sum_list (size <$> cs).
Proof.
  induction 1 as [c cs|c c' cs _ IH]; csimpl; lia.
Qed.

Lemma names_ok_subtree h r cs c : names_ok h (RT r cs) → c ∈ cs → names_ok h c.
Proof.
  intros Hn Hc s n Hs. apply Hn. by eapply nodes_subtree.
Qed.

Lemma nums_ok_subtree h r cs c : nums_ok h (RT r cs) → c ∈ cs → nums_ok h c.
Proof.
  intros Hn Hc x n Hx. apply Hn. simpl. right. by eapply refs_subtree.
Qed.

(** Parsing the text of a tree builds a tree of the same topology and
    lengths, whatever follows the text after a delimiter. *)
Lemma parse_render h t :
  shape h t → names_ok h t → nums_ok h t →
  ∀ f (rest key : str) wa h0, delimited rest → size t < f →
  ∃ h0' t',
    parse_tree_rec f (render h t ++ rest) key false wa h0
    = Ok ((root t', rest), h0') ∧ built h t h0 h0' t'.
Proof.
  induction t as [r cs IH] using rtree_ind'.
  intros Hsh Hnames Hnums [|f] rest key wa h0 Hrest Hsz; [lia|].
  inversion Hsh as [? n ? Hn Hcs Hshs]; subst.
  destruct (Hnums r n) as (Hf & Hc & Hp); [by left|done|].
  cbn [render]. rewrite Hn. cbn [parse_tree_rec].
  destruct cs as [|c cs].
  - (* a leaf *)
    assert (name_ok (Tree.name n)) as Hname.
    { apply (Hnames (RT r [])); [apply nodes_self|done..]. }
    rewrite <- !app_assoc. cbn [lit list_ascii_of_string app].
    rewrite startswith_name, name_stop_name by done.
    rewrite take_app_length, drop_app_length.
    rewrite (bind_ok _ _ _ (Tree.name n, [], ":" :: str_of_num (Tree.length n) ++ rest) h0)
      by done.
    cbn beta iota.
    destruct (build_node_ok (Tree.name n) [] (Tree.length n) rest key wa h0)
      as (h2 & Hrun & Hlen & Hnew & Hout & Hin); [done..|].
    exists h2, (RT (length h0) []). split; [done|].
    split; [|split; [|split; [|split; [|split]]]].
    + intros x Hx. apply Hout; [done|]. apply not_elem_of_nil.
    + by eapply shape_node.
    + simpl. apply NoDup_singleton.
    + simpl. repeat constructor; lia.
    + by eapply mirrors_node.
    + by repeat constructor.
  - (* an inner node *)
    rewrite <- !app_assoc. cbn [lit list_ascii_of_string app].
    set (tail := ":" :: str_of_num (Tree.length n) ++ rest).
    assert (sum_list (size <$> c :: cs) < f) as Hsum
      by (apply Nat.succ_lt_mono; exact Hsz).
    destruct (children_loop_render
                (λ s, parse_tree_rec f s key false wa) h (c :: cs)) with
      (k := f) (sep := "(") (acc := @nil ref) (tail := tail) (h0 := h0)
      as (h1 & cs' & Hrun & Hfr & Hlen & Hshs' & Hnds & Hbds & Hms & Hps);
      [done| |by left|pose proof (length_le_sizes (c :: cs)); lia|].
    { rewrite Forall_forall in IH, Hshs. apply Forall_forall.
      intros c' Hc' rest' h0' Hrest'. apply IH; [done|by apply Hshs| | |done|].
      - by eapply names_ok_subtree.
      - by eapply nums_ok_subtree.
      - pose proof (size_subtree _ _ Hc'). lia. }
    assert (Forall (λ x, x < length h1) (root <$> cs')) as Hroots.
    { apply Forall_forall. intros x (c' & -> & Hc')%list_elem_of_fmap.
      rewrite Forall_forall in Hbds.
      assert (root c' ∈ concat (refs <$> cs')) as Hin%Hbds; [|lia].
      eapply refs_subtree; [done|apply root_in_refs]. }
    rewrite (bind_ok _ _ _ (([] : str), root <$> cs', tail) h1).
    2:{ change (lit "(") with ["("]. change (lit ",") with [","] in Hrun.
        cbn [startswith]. rewrite bool_decide_true by done.
        cbn [andb]. rewrite (bind_ok _ _ _ _ h1) by exact Hrun. done. }
    cbn beta iota.
    destruct (build_node_ok [] (root <$> cs') (Tree.length n) rest key wa h1)
      as (h2 & Hrun2 & Hlen2 & Hnew & Hout & Hin); [done..|].
    exists h2, (RT (length h1) cs'). split; [done|].
    assert (∀ y m, h1 !! y = Some m →
              ∃ m', h2 !! y = Some m' ∧ same_data m m' ∧
                Tree.children m' = Tree.children m ∧
                (y ∉ root <$> cs' → m' = m)) as Hstep.
    { intros y m Hm. destruct (decide (y ∈ root <$> cs')) as [Hy|Hy].
      - exists (set_parent (Some (length h1)) m). rewrite Hin, Hm by done.
        done.
      - exists m. rewrite Hout; [done|by eapply lookup_lt_Some|done]. }
    rewrite Forall_forall in Hbds.
    split; [|split; [|split; [|split; [|split]]]].
    + intros x Hx. rewrite Hout; [by apply Hfr|lia|].
      intros (c' & -> & Hc')%list_elem_of_fmap.
      assert (root c' ∈ concat (refs <$> cs')) as Hin'%Hbds; [|lia].
      eapply refs_subtree; [done|apply root_in_refs].
    + eapply shape_node; [done..|].
      eapply Forall_impl; [exact Hshs'|]. intros c'. apply shape_ext.
      intros x m _ Hm. destruct (Hstep x m Hm) as (m' & ? & _ & ? & _). eauto.
    + simpl. apply NoDup_cons. split; [|done]. intros ?%Hbds. lia.
    + simpl. apply Forall_cons. split; [lia|].
      apply Forall_forall. intros x ?%Hbds. lia.
    + eapply mirrors_node; [done..|].
      eapply Forall2_impl; [exact Hms|]. intros c0 c'. apply mirrors_ext.
      intros x m _ Hm. destruct (Hstep x m Hm) as (m' & ? & ? & _). eauto.
    + constructor.
      * apply Forall_forall. intros c' Hc'.
        rewrite Forall_forall in Hshs'.
        destruct (shape_lookup _ _ (Hshs' c' Hc')) as (m & Hm & _).
        exists (set_parent (Some (length h1)) m).
        rewrite Hin by by apply list_elem_of_fmap_2. by rewrite Hm.
      * rewrite Forall_forall in Hps. apply Forall_forall. intros c' Hc'.
        eapply parents_ok_ext; [|by apply Hps]. intros x m Hx Hm.
        destruct (Hstep x m Hm) as (m' & Hm' & _ & _ & Heq).
        exists m'. split; [done|]. rewrite Heq; [done|].
        by eapply tail_not_root.
Qed.

Lemma length_str_join (sep : str) ws :
  sum_list (length <$> ws) ≤ length (str_join sep ws).
Proof.
  induction ws as [|w [|w2 ws] IH]; csimpl in *; [done|lia|].
  rewrite !length_app. lia.
Qed.

Lemma length_render h t : shape h t → size t ≤ length (render h t).
Proof.
  induction t as [r cs IH] using rtree_ind'.
  inversion 1 as [? n ? Hn Hcs Hshs]; subst. cbn [render size]. rewrite Hn.
  rewrite length_app, length_app. cbn [lit list_ascii_of_string length].
  assert (sum_list (size <$> cs) ≤ sum_list (length <$> (render h <$> cs))) as Hle.
  { clear Hcs Hn H. induction cs as [|c cs IHcs]; [done|].
    apply Forall_cons in IH as [IHc IH]. apply Forall_cons in Hshs as [Hc Hshs].
    csimpl. specialize (IHc Hc). specialize (IHcs IH Hshs). lia. }
  destruct cs as [|c cs]; [simpl; lia|].
  rewrite !length_app. cbn [lit list_ascii_of_string length].
  pose proof (length_str_join [","] (render h <$> c :: cs)). lia.
Qed.

(** C5, as the code has it: for a tree whose leaf names hold no [':']
    and no ['['] and do not start with ['('], and with lengths whose text
    [float] reads back and that holds no [','] and no [')'], parsing the
    text of [to_newick] without attributes, with a location key that
    holds no ['%'] (as the default ['location']), consumes it all and
    builds, above the objects of the store, a tree with the same numbers
    of children in the same order, the same lengths and no attributes
    (and with a consistent parent relation). The key matters although no
    node has attributes: the parser asks every node it builds for its
    location, and that formats the key with ['%']. *)
Theorem newick_round_trip h t (key : str) wa h0 :
  "%" ∉ key →
  is_tree h t → names_ok h t → nums_ok h t →
  ∃ s r' h0' t',
    to_newick h (root t) false = Ok s ∧
    parse_tree s key false wa h0 = Ok ((r', []), h0') ∧
    root t' = r' ∧ is_tree h0' t' ∧ mirrors h h0' t t' ∧
    parents_ok h0' t' ∧
    (∀ x, x < length h0 → h0' !! x = h0 !! x).
Proof.
  intros _ Ht Hnames Hnums. pose proof (depth_lt_heap _ _ Ht) as Hd.
  destruct Ht as [Hsh Hnd].
  destruct (parse_render h t Hsh Hnames Hnums
              (S (length (render h t))) [] key wa h0)
    as (h0' & t' & Hrun & Hfr & Hsh' & Hnd' & _ & Hm & Hp).
  { by left. }
  { pose proof (length_render _ _ Hsh). lia. }
  rewrite app_nil_r in Hrun.
  exists (render h t), (root t'), h0', t'.
  split; [apply to_newick_rec_render; [done|lia]|]. done.
Qed.

(** ** The rest of the module *)

(** *** [iter_descendants], [iter_leafs] and [n_leafs] *)

Lemma foldM_app {A} (g : ref → result (list A)) (f : rtree → list A) cs acc :
  Forall (λ c, g (root c) = Ok (f c)) cs →
  foldM (λ acc c, ds ← g c; Ok (acc ++ ds)) acc (root <$> cs)
  = Ok (acc ++ concat (f <$> cs)).
Proof.
  intros Hcs. revert acc. induction Hcs as [|c cs Hc _ IH]; intros acc; csimpl.
  - by rewrite app_nil_r.
  - rewrite Hc. simpl. rewrite IH. by rewrite <- app_assoc.
Qed.

Lemma iter_descendants_rec_ok h t fuel :
  shape h t → depth t ≤ fuel → iter_descendants_rec fuel h (root t) = Ok (refs t).
Proof.
  revert fuel. induction t as [r cs IH] using rtree_ind'.
  intros [|f] Hs Hd; [simpl in Hd; lia|].
  destruct (node_at_shape _ _ Hs) as (n & Hn & Hcs).
  apply shape_subtrees in Hs. simpl in Hs, Hd, Hn, Hcs.
  apply le_S_n in Hd. simpl iter_descendants_rec. rewrite Hn. simpl. rewrite Hcs.
  rewrite (foldM_app _ refs); [done|].
  rewrite Forall_forall in *. intros c Hc. apply IH; auto.
  pose proof (depth_subtree _ _ Hc). lia.
Qed.

Lemma is_leaf_shape h t n :
  shape h t → h !! root t = Some n →
  is_leaf n = match subtrees t with [] => true | _ => false end.
Proof.
  intros (n' & Hn' & Hcs)%shape_lookup Hn.
  assert (n' = n) as -> by congruence.
  unfold is_leaf. rewrite Hcs, length_fmap. by destruct (subtrees t).
Qed.

Lemma iter_leafs_rec_ok h t fuel :
  shape h t → depth t ≤ fuel → iter_leafs_rec fuel h (root t) = Ok (leaves t).
Proof.
  revert fuel. induction t as [r cs IH] using rtree_ind'.
  intros [|f] Hs Hd; [simpl in Hd; lia|].
  destruct (node_at_shape _ _ Hs) as (n & Hn & Hcs).
  pose proof (shape_lookup _ _ Hs) as (n' & Hn' & _).
  assert (n' = n) as ->.
  { unfold node_at in Hn. rewrite Hn' in Hn. by injection Hn. }
  pose proof (is_leaf_shape _ _ _ Hs Hn') as Hleaf.
  apply shape_subtrees in Hs. simpl in Hs, Hd, Hn, Hcs, Hleaf.
  apply le_S_n in Hd. simpl iter_leafs_rec. rewrite Hn. simpl. rewrite Hcs, Hleaf.
  rewrite (foldM_app _ leaves).
  - by destruct cs.
  - rewrite Forall_forall in *. intros c Hc. apply IH; auto.
    pose proof (depth_subtree _ _ Hc). lia.
Qed.

Lemma foldM_counts (g : ref → result nat) (f : rtree → nat) cs acc :
  Forall (λ c, g (root c) = Ok (f c)) cs →
  foldM (λ size c, s ← g c; Ok (size + s)) acc (root <$> cs)
  = Ok (acc + sum_list (f <$> cs)).
Proof.
  intros Hcs. revert acc. induction Hcs as [|c cs Hc _ IH]; intros acc; csimpl.
  - f_equal. lia.
  - rewrite Hc. simpl. rewrite IH. f_equal. lia.
Qed.

Lemma length_concat_fmap {A} (f : rtree → list A) cs :
  length (concat (f <$> cs)) = sum_list ((λ c, length (f c)) <$> cs).
Proof. induction cs; csimpl; [done|]. rewrite length_app. lia. Qed.

Lemma n_leafs_rec_ok h t fuel :
  shape h t → depth t ≤ fuel →
  n_leafs_rec fuel h (root t) = Ok (length (leaves t)).
Proof.
  revert fuel. induction t as [r cs IH] using rtree_ind'.
  intros [|f] Hs Hd; [simpl in Hd; lia|].
  destruct (node_at_shape _ _ Hs) as (n & Hn & Hcs).
  pose proof (shape_lookup _ _ Hs) as (n' & Hn' & _).
  assert (n' = n) as ->.
  { unfold node_at in Hn. rewrite Hn' in Hn. by injection Hn. }
  pose proof (is_leaf_shape _ _ _ Hs Hn') as Hleaf.
  apply shape_subtrees in Hs. simpl in Hs, Hd, Hn, Hcs, Hleaf.
  apply le_S_n in Hd. simpl n_leafs_rec. rewrite Hn. simpl. rewrite Hcs, Hleaf.
  rewrite (foldM_counts _ (λ c, length (leaves c))).
  - simpl. rewrite length_app, length_concat_fmap. by destruct cs.
  - rewrite Forall_forall in *. intros c Hc. apply IH; auto.
    pose proof (depth_subtree _ _ Hc). lia.
Qed.

Lemma leaves_filter h t :
  is_tree h t → leaves t = filter (λ x, leaf_at h x = true) (refs t).
Proof.
  induction t as [r cs IH] using rtree_ind'. intros Ht.
  pose proof Ht as [Hs _].
  pose proof (shape_lookup _ _ Hs) as (n & Hn & _).
  pose proof (is_leaf_shape _ _ _ Hs Hn) as Hleaf. simpl in Hn, Hleaf.
  assert (leaf_at h r = match cs with [] => true | _ => false end) as Hr.
  { unfold leaf_at. by rewrite Hn. }
  cbn [leaves refs]. rewrite filter_cons.
  assert (concat (leaves <$> cs)
          = filter (λ x, leaf_at h x = true) (concat (refs <$> cs))) as ->.
  { assert (∀ c, c ∈ cs → is_tree h c) as Hcs.
    { intros c Hc. by apply (is_tree_subtree h (RT r cs)). }
    clear -IH Hcs. induction IH as [|c cs Hc _ IHcs]; csimpl; [done|].
    rewrite filter_app, Hc, IHcs; [done|..].
    - intros ??. apply Hcs. by right.
    - apply Hcs. by left. }
  destruct cs; [by rewrite decide_True|]. rewrite decide_False; [done|].
  by rewrite Hr.
Qed.

Lemma leaves_nonempty t : 0 < length (leaves t).
Proof.
  induction t as [r cs IH] using rtree_ind'. simpl. rewrite length_app.
  destruct IH as [|c cs Hc _]; csimpl; [lia|]. rewrite length_app. lia.
Qed.

(** X1: on a tree, [iter_descendants] yields every node exactly once, the
    node it is called on first and each child list in its order; the
    number of nodes it yields is [tree_size], and the second components
    of the pairs of [iter_edges] are the nodes it yields after the
    first. *)
Theorem iter_descendants_tree h t :
  is_tree h t →
  ∃ ds es,
    iter_descendants h (root t) = Ok ds ∧ ds = refs t ∧
    head ds = Some (root t) ∧ NoDup ds ∧
    tree_size h (root t) = Ok (length ds) ∧
    iter_edges h (root t) = Ok es ∧ es.*2 = tail ds ∧
    (∀ x n c, x ∈ ds → h !! x = Some n → c ∈ Tree.children n → c ∈ ds).
Proof.
  intros Ht. exists (refs t), (edges t).
  pose proof (depth_lt_heap _ _ Ht) as Hd. pose proof Ht as [Hs Hnd].
  split; [apply iter_descendants_rec_ok; [done|lia]|].
  split; [done|]. split; [by destruct t|]. split; [done|].
  split; [by rewrite length_refs; apply tree_size_ok|].
  split; [apply iter_edges_rec_ok; [done|lia]|].
  split; [apply edges_snd|].
  intros x n c Hx Hn Hc.
  pose proof (edges_complete _ _ _ _ _ Hs Hx Hn Hc) as He.
  apply elem_of_tail. rewrite <- edges_snd.
  apply list_elem_of_fmap. by exists (x, c).
Qed.

(** X2: on a tree, [iter_leafs] yields the nodes of [iter_descendants]
    that have no children, in the same order; [n_leafs] is their number,
    which is at least 1 and at most [tree_size]. *)
Theorem n_leafs_tree h t :
  is_tree h t →
  ∃ ls ds,
    iter_leafs h (root t) = Ok ls ∧ iter_descendants h (root t) = Ok ds ∧
    ls = filter (λ x, leaf_at h x = true) ds ∧
    n_leafs h (root t) = Ok (length ls) ∧
    1 ≤ length ls ∧
    ∃ sz, tree_size h (root t) = Ok sz ∧ length ls ≤ sz.
Proof.
  intros Ht. exists (leaves t), (refs t).
  pose proof (depth_lt_heap _ _ Ht) as Hd. pose proof Ht as [Hs Hnd].
  split; [apply iter_leafs_rec_ok; [done|lia]|].
  split; [apply iter_descendants_rec_ok; [done|lia]|].
  split; [by apply leaves_filter|].
  split; [apply n_leafs_rec_ok; [done|lia]|].
  split; [apply leaves_nonempty|].
  exists (size t). split; [by apply tree_size_ok|].
  rewrite (leaves_filter h t Ht), <- length_refs. apply length_filter.
Qed.

(** *** [height] *)

Lemma height_rec_mono h f f' x v :
  f ≤ f' → height_rec f h x = Ok v → height_rec f' h x = Ok v.
Proof.
  revert f' x v. induction f as [|f IH]; intros f' x v Hle; [done|].
  destruct f' as [|f']; [lia|]. simpl.
  destruct (node_at h x) as [n|]; simpl; [|done].
  destruct (Tree.parent n) as [p|]; [|done].
  destruct (height_rec f h p) as [hp|] eqn:Hp; simpl; [|done].
  rewrite (IH f' p hp); [done|lia|done].
Qed.

Lemma height_rec_tree h t :
  shape h t → parents_ok h t →
  ∀ f v, height_rec f h (root t) = Ok v →
  ∀ x, x ∈ refs t → ∃ v', height_rec (f + depth t) h x = Ok v'.
Proof.
  induction t as [r cs IH] using rtree_ind'. intros Hs Hp f v Hr x Hx.
  apply shape_subtrees in Hs. simpl in Hs.
  inversion Hp as [? ? Hpar Hpcs]; subst.
  rewrite Forall_forall in IH, Hs, Hpar, Hpcs.
  cbn [refs] in Hx. apply elem_of_cons in Hx as [->|Hx].
  { exists v. apply (height_rec_mono _ f); [lia|done]. }
  apply elem_of_concat in Hx as (l & Hx & (c & -> & Hc)%list_elem_of_fmap).
  destruct (Hpar c Hc) as (n & Hn & Hparent).
  assert (height_rec (S f) h (root c) = Ok (num_add v (Tree.length n))) as Hc'.
  { simpl. unfold node_at. rewrite Hn. simpl. rewrite Hparent.
    simpl in Hr. by rewrite Hr. }
  destruct (IH c Hc (Hs c Hc) (Hpcs c Hc) _ _ Hc' x Hx) as (v' & Hv').
  exists v'. apply (height_rec_mono _ (S f + depth c)); [|done].
  pose proof (depth_subtree _ _ Hc). simpl. lia.
Qed.

Lemma parent_in_tree h t x :
  shape h t → parents_ok h t → x ∈ tail (refs t) →
  ∃ nx p, h !! x = Some nx ∧ Tree.parent nx = Some p ∧ p ∈ refs t.
Proof.
  induction t as [r cs IH] using rtree_ind'. intros Hs Hp Hx.
  apply shape_subtrees in Hs. simpl in Hs.
  inversion Hp as [? ? Hpar Hpcs]; subst.
  rewrite Forall_forall in IH, Hs, Hpar, Hpcs.
  cbn [refs tail] in Hx.
  apply elem_of_concat in Hx as (l & Hx & (c & -> & Hc)%list_elem_of_fmap).
  rewrite (refs_root_tail c) in Hx. apply elem_of_cons in Hx as [->|Hx].
  - destruct (Hpar c Hc) as (n & Hn & Hparent).
    exists n, r. split; [done|]. split; [done|]. by left.
  - destruct (IH c Hc (Hs c Hc) (Hpcs c Hc) Hx) as (nx & p & Hnx & Hpx & Hin).
    exists nx, p. split; [done|]. split; [done|]. right.
    by apply (refs_subtree c).
Qed.

Lemma height_defined h t n :
  is_tree h t → parents_ok h t → h !! root t = Some n → Tree.parent n = None →
  ∀ x, x ∈ refs t → ∃ v, height h x = Ok v.
Proof.
  intros Ht Hp Hn Hroot x Hx.
  assert (height_rec 1 h (root t) = Ok (Tree.length n)) as H1.
  { simpl. unfold node_at. rewrite Hn. simpl. by rewrite Hroot. }
  destruct (height_rec_tree h t (proj1 Ht) Hp _ _ H1 x Hx) as (v & Hv).
  exists v. apply (height_rec_mono _ (1 + depth t)); [|done].
  pose proof (depth_lt_heap _ _ Ht). lia.
Qed.

(** X3: in a tree whose nodes have their parent set and whose root has
    none, [height] returns at every node: the length of the root at the
    root, and at any other node the height of its parent, which is a
    node of the tree, plus its own length. *)
Theorem height_tree h t n :
  is_tree h t → parents_ok h t → h !! root t = Some n → Tree.parent n = None →
  height h (root t) = Ok (Tree.length n) ∧
  ∀ x, x ∈ tail (refs t) →
    ∃ nx p hp, h !! x = Some nx ∧ Tree.parent nx = Some p ∧ p ∈ refs t ∧
      height h p = Ok hp ∧ height h x = Ok (num_add hp (Tree.length nx)).
Proof.
  intros Ht Hp Hn Hroot. split.
  { unfold height. simpl. unfold node_at. rewrite Hn. simpl. by rewrite Hroot. }
  intros x Hx.
  destruct (parent_in_tree h t x (proj1 Ht) Hp Hx) as (nx & p & Hnx & Hpx & Hin).
  destruct (height_defined h t n Ht Hp Hn Hroot x) as (v & Hv);
    [by apply elem_of_tail|].
  exists nx, p. unfold height in Hv. simpl in Hv. unfold node_at in Hv.
  rewrite Hnx in Hv. simpl in Hv. rewrite Hpx in Hv.
  destruct (height_rec (length h) h p) as [hp|] eqn:Hhp; [|done].
  simpl in Hv. exists hp. repeat split; try done.
  - apply (height_rec_mono _ (length h)); [lia|done].
  - unfold height. simpl. unfold node_at. rewrite Hnx. simpl. rewrite Hpx.
    by rewrite Hhp.
Qed.

Lemma height_rec_self_parent h r n f :
  h !! r = Some n → Tree.parent n = Some r →
  height_rec f h r = Raise RecursionError.
Proof.
  intros Hn Hp. induction f as [|f IH]; [done|].
  simpl. unfold node_at. rewrite Hn. simpl. rewrite Hp. by rewrite IH.
Qed.

(** *** [add_child] and [copy_other_node] *)

Lemma add_child_spec h self child n :
  h !! self = Some n → child < length h → self ≠ child →
  ∃ h', add_child self child h = Ok (tt, h') ∧ length h' = length h ∧
    h' !! self = Some (set_children (Tree.children n ++ [child]) n) ∧
    h' !! child = set_parent (Some self) <$> h !! child ∧
    ∀ x, x ≠ self → x ≠ child → h' !! x = h !! x.
Proof.
  intros Hn Hc Hne. apply lookup_lt_is_Some in Hc as Hm. destruct Hm as [m Hm].
  unfold add_child.
  rewrite (bind_ok _ _ _ _ _ (get_ok _ _ _ Hn)).
  rewrite (bind_ok _ _ _ _ _ (modify_ok _ _ _ _ Hn)).
  assert (<[self:=set_children (Tree.children n ++ [child]) n]> h !! child
          = Some m) as Hm'.
  { by rewrite list_lookup_insert_ne. }
  rewrite (modify_ok _ _ _ _ Hm'). eexists. split; [done|].
  split; [by rewrite !length_insert|].
  split.
  { rewrite list_lookup_insert_ne by done.
    apply list_lookup_insert_eq. by eapply lookup_lt_Some. }
  split.
  { rewrite Hm. simpl. apply list_lookup_insert_eq.
    by rewrite length_insert. }
  intros x Hx1 Hx2. by rewrite !list_lookup_insert_ne.
Qed.

Lemma set_parent_idemp p (n : Tree.t) :
  set_parent p (set_parent p n) = set_parent p n.
Proof. done. Qed.

Lemma for_each_add_child cs h self n :
  h !! self = Some n → Forall (λ c, c < length h) cs → self ∉ cs →
  ∃ h', for_each cs (add_child self) h = Ok (tt, h') ∧ length h' = length h ∧
    h' !! self = Some (set_children (Tree.children n ++ cs) n) ∧
    (∀ c, c ∈ cs → h' !! c = set_parent (Some self) <$> h !! c) ∧
    (∀ x, x ≠ self → x ∉ cs → h' !! x = h !! x).
Proof.
  revert h n. induction cs as [|c cs IH]; intros h n Hn Hcs Hself.
  { exists h. split; [done|]. split; [done|]. split.
    - rewrite app_nil_r. rewrite Hn. by destruct n.
    - split; [by intros ? ?%elem_of_nil|done]. }
  apply Forall_cons in Hcs as [Hc Hcs].
  apply not_elem_of_cons in Hself as [Hne Hself].
  destruct (add_child_spec h self c n Hn Hc Hne)
    as (h1 & Hrun & Hlen & Hs1 & Hc1 & Hx1).
  destruct (IH h1 _ Hs1) as (h' & Hrun' & Hlen' & Hs' & Hcs' & Hx');
    [by rewrite Hlen|done|].
  exists h'. split.
  { simpl. by rewrite (bind_ok _ _ _ _ _ Hrun). }
  split; [congruence|]. split.
  { rewrite Hs'. f_equal. simpl. by rewrite <- app_assoc. }
  split.
  - intros c' Hc'. destruct (decide (c' ∈ cs)) as [Hin|Hout].
    + rewrite (Hcs' c' Hin). destruct (decide (c' = c)) as [->|Hne'].
      * rewrite Hc1. by destruct (h !! c).
      * rewrite Hx1; [done|set_solver|done].
    + apply elem_of_cons in Hc' as [->|?]; [|done].
      rewrite Hx'; [done..|]. done.
  - intros x Hxs Hx. apply not_elem_of_cons in Hx as [Hxc Hx].
    rewrite Hx' by done. by apply Hx1.
Qed.

Lemma copy_other_node_ok h self other s o :
  h !! self = Some s → h !! other = Some o → self ≠ other →
  Forall (λ c, c < length h) (Tree.children o) → self ∉ Tree.children o →
  ∃ h', copy_other_node self other h = Ok (tt, h') ∧ length h' = length h ∧
    h' !! self = Some o ∧
    (∀ c, c ∈ Tree.children o → h' !! c = set_parent (Some self) <$> h !! c) ∧
    (∀ x, x ≠ self → x ∉ Tree.children o → h' !! x = h !! x).
Proof.
  intros Hs Ho Hne Hcs Hself. unfold copy_other_node.
  rewrite (bind_ok _ _ _ _ _ (get_ok _ _ _ Ho)).
  rewrite (bind_ok _ _ _ _ _ (modify_ok _ _ _ _ Hs)).
  set (s1 := Tree.Node _ _ _ _ _ _ _).
  assert (<[self:=s1]> h !! self = Some s1) as Hs1.
  { apply list_lookup_insert_eq. by eapply lookup_lt_Some. }
  rewrite (bind_ok _ _ _ _ _ (modify_ok _ _ _ _ Hs1)).
  rewrite list_insert_insert_eq.
  set (h2 := <[self:=set_children [] s1]> h).
  assert (h2 !! self = Some (set_children [] s1)) as Hs2.
  { apply list_lookup_insert_eq. by eapply lookup_lt_Some. }
  assert (h2 !! other = Some o) as Ho2.
  { unfold h2. by rewrite list_lookup_insert_ne. }
  rewrite (bind_ok _ _ _ _ _ (get_ok _ _ _ Ho2)).
  destruct (for_each_add_child (Tree.children o) h2 self _ Hs2)
    as (h' & Hrun & Hlen & Hs' & Hcs' & Hx');
    [by unfold h2; rewrite length_insert|done|].
  exists h'. split; [done|].
  split; [by rewrite Hlen; unfold h2; rewrite length_insert|].
  split; [rewrite Hs'; by destruct o|].
  split.
  - intros c Hc. rewrite (Hcs' c Hc). unfold h2.
    rewrite list_lookup_insert_ne; [done|]. intros ->. done.
  - intros x Hx1 Hx2. rewrite Hx' by done. unfold h2.
    by rewrite list_lookup_insert_ne.
Qed.

(** X5: [copy_other_node], called with another node whose children do not
    include the node itself, leaves the node with every attribute of the
    other one, its parent and its list of children included, and makes
    the node the parent of each of these children; no other object
    changes. *)
Theorem copy_other_node_spec h self other s o :
  h !! self = Some s → h !! other = Some o → self ≠ other →
  Forall (λ c, c < length h) (Tree.children o) → self ∉ Tree.children o →
  ∃ h', copy_other_node self other h = Ok (tt, h') ∧ length h' = length h ∧
    h' !! self = Some o ∧
    (∀ c, c ∈ Tree.children o → h' !! c = set_parent (Some self) <$> h !! c) ∧
    (∀ x, x ≠ self → x ∉ Tree.children o → h' !! x = h !! x).
Proof. apply copy_other_node_ok. Qed.

(** X4: a node that is its own parent has no height: the recursion along
    the parents does not end. [copy_other_node] called on a node with one
    of its children, whose parent it is, leaves the node in that state,
    and its new children with it. *)
Theorem height_after_copy h self other s o :
  h !! self = Some s → h !! other = Some o → self ≠ other →
  Forall (λ c, c < length h) (Tree.children o) → self ∉ Tree.children o →
  Tree.parent o = Some self →
  ∃ h' n', copy_other_node self other h = Ok (tt, h') ∧
    h' !! self = Some n' ∧ Tree.parent n' = Some self ∧
    height h' self = Raise RecursionError ∧
    ∀ c, c ∈ Tree.children n' → height h' c = Raise RecursionError.
Proof.
  intros Hs Ho Hne Hcs Hself Hpar.
  destruct (copy_other_node_ok h self other s o Hs Ho Hne Hcs Hself)
    as (h' & Hrun & Hlen & Hs' & Hcs' & _).
  exists h', o. split; [done|]. split; [done|]. split; [done|].
  split; [by eapply height_rec_self_parent|].
  intros c Hc. rewrite Forall_forall in Hcs.
  pose proof (Hcs c Hc) as Hlt. apply lookup_lt_is_Some in Hlt as [m Hm].
  unfold height. simpl. unfold node_at. rewrite (Hcs' c Hc), Hm. simpl.
  by rewrite (height_rec_self_parent h' self o).
Qed.

Lemma NoDup_snd_inj {A B} (l : list (A * B)) a b c :
  NoDup l.*2 → (a, c) ∈ l → (b, c) ∈ l → a = b.
Proof.
  induction l as [|[a' c'] l IH]; [by intros _ ?%elem_of_nil|].
  csimpl. intros [Hout Hnd]%NoDup_cons Ha Hb.
  apply elem_of_cons in Ha as [Ha|Ha];
    apply elem_of_cons in Hb as [Hb|Hb]; simplify_eq; try done.
  - destruct Hout. apply list_elem_of_fmap. by exists (b, c').
  - destruct Hout. apply list_elem_of_fmap. by exists (a, c').
  - by apply IH.
Qed.

Lemma one_parent h t p1 p2 n1 n2 c :
  is_tree h t → p1 ∈ refs t → p2 ∈ refs t →
  h !! p1 = Some n1 → h !! p2 = Some n2 →
  c ∈ Tree.children n1 → c ∈ Tree.children n2 → p1 = p2.
Proof.
  intros [Hs Hnd] Hp1 Hp2 Hn1 Hn2 Hc1 Hc2.
  apply (NoDup_snd_inj (edges t) p1 p2 c).
  - rewrite edges_snd. rewrite refs_root_tail in Hnd.
    by apply NoDup_cons in Hnd as [_ ?].
  - by eapply edges_complete.
  - by eapply edges_complete.
Qed.

(** X6: [add_child] with the root of a second tree, which shares no node
    with the first, makes the second tree the last subtree of the first:
    the result is a tree, the nodes have their parent set if they had in
    both trees, [tree_size] is the sum of the two sizes, and only the two
    roots change. *)
Theorem add_child_tree h t c :
  is_tree h t → is_tree h c → (∀ x, x ∈ refs t → x ∉ refs c) →
  ∃ h', add_child (root t) (root c) h = Ok (tt, h') ∧
    is_tree h' (RT (root t) (subtrees t ++ [c])) ∧
    (parents_ok h t → parents_ok h c →
       parents_ok h' (RT (root t) (subtrees t ++ [c]))) ∧
    tree_size h' (root t) = Ok (size t + size c) ∧
    (∀ x, x ≠ root t → x ≠ root c → h' !! x = h !! x).
Proof.
  intros Ht Hc Hdis. destruct t as [r cs]. cbn [root subtrees].
  pose proof Ht as [Hst Hndt]. pose proof Hc as [Hsc Hndc].
  destruct (shape_lookup _ _ Hst) as (n & Hn & Hncs). cbn [root subtrees] in *.
  destruct (shape_lookup _ _ Hsc) as (m & Hm & Hmcs).
  assert (r ≠ root c) as Hne.
  { intros ->. apply (Hdis (root c)); [by left|apply root_in_refs]. }
  destruct (add_child_spec h r (root c) n Hn) as (h' & Hrun & Hlen & Hr' & Hc' & Hx');
    [by eapply lookup_lt_Some|done|].
  exists h'. split; [done|].
  assert (∀ x, x ∈ concat (refs <$> cs) → x ≠ r) as Hcs_r.
  { intros x Hx ->. cbn [refs] in Hndt. by apply NoDup_cons in Hndt as [? _]. }
  assert (∀ x, x ∈ concat (refs <$> cs) → x ∉ refs c) as Hcs_c.
  { intros x Hx. apply Hdis. by right. }
  assert (∀ x, x ∈ refs c → x ≠ r) as Hc_r.
  { intros x Hx ->. apply (Hdis r); [by left|done]. }
  assert (is_tree h' (RT r (cs ++ [c]))) as Ht'.
  { split.
    - eapply shape_node; [exact Hr'| |].
      + simpl. by rewrite Hncs, fmap_app.
      + apply Forall_app. split.
        * apply shape_subtrees in Hst. cbn [subtrees] in Hst.
          rewrite Forall_forall in *. intros c' Hc'in.
          apply (shape_ext h); [|by apply Hst].
          intros x nx Hx Hnx. exists nx. split; [|done].
          assert (x ∈ concat (refs <$> cs)) as Hxin by by apply (refs_subtree c').
          rewrite Hx'; [done|by apply Hcs_r|].
          intros ->. apply (Hcs_c _ Hxin), root_in_refs.
        * apply Forall_singleton. apply (shape_ext h); [|done].
          intros x nx Hx Hnx. destruct (decide (x = root c)) as [->|Hxc].
          -- rewrite Hc', Hnx. simpl. eexists. split; [done|]. done.
          -- exists nx. split; [|done]. rewrite Hx'; [done|by apply Hc_r|done].
    - cbn [refs]. rewrite fmap_app, concat_app. csimpl. rewrite app_nil_r.
      cbn [refs] in Hndt. apply NoDup_cons in Hndt as [Hr Hnd].
      apply NoDup_cons. split.
      + rewrite elem_of_app. intros [?|Hin]; [done|]. by apply (Hc_r r).
      + apply NoDup_app3; [done|done|]. intros x Hx. by apply Hcs_c. }
  split; [done|]. split.
  { intros Hpt Hpc. inversion Hpt as [? ? Hpar Hpcs]; subst.
    constructor.
    - apply Forall_app. split.
      + rewrite Forall_forall in *. intros c' Hc'in.
        destruct (Hpar c' Hc'in) as (nc & Hnc & Hp). exists nc. split; [|done].
        assert (root c' ∈ concat (refs <$> cs)) as Hxin
          by (apply (refs_subtree c'); [done|apply root_in_refs]).
        rewrite Hx'; [done|by apply Hcs_r|].
        intros Heq. apply (Hcs_c _ Hxin). rewrite Heq. apply root_in_refs.
      + apply Forall_singleton. rewrite Hc', Hm. simpl. eexists. split; [done|].
        done.
    - apply Forall_app. split.
      + rewrite Forall_forall in *. intros c' Hc'in.
        apply (parents_ok_ext h); [|by apply Hpcs].
        intros x nx Hx Hnx. exists nx. split; [|done].
        assert (x ∈ concat (refs <$> cs)) as Hxin
          by (apply (refs_subtree c'); [done|by apply elem_of_tail]).
        rewrite Hx'; [done|by apply Hcs_r|].
        intros ->. apply (Hcs_c _ Hxin), root_in_refs.
      + apply Forall_singleton. apply (parents_ok_ext h); [|done].
        intros x nx Hx Hnx. exists nx. split; [|done].
        rewrite Hx'; [done|by apply Hc_r, elem_of_tail|].
        intros ->. rewrite refs_root_tail in Hndc.
        by apply NoDup_cons in Hndc as [? _]. }
  split; [|done].
  pose proof (tree_size_ok h' (RT r (cs ++ [c])) Ht') as Hsz.
  cbn [root] in Hsz. rewrite Hsz. f_equal. simpl.
  rewrite fmap_app, sum_list_with_app. simpl. lia.
Qed.

(** X7: [add_child] does not take the child from the children of the node
    that lists it: the child is then among the children of two nodes, and
    no tree of the store holds both of them. *)
Theorem add_child_keeps_old_parent h self p child n pn :
  h !! self = Some n → h !! p = Some pn → child ∈ Tree.children pn →
  child < length h → p ≠ self → p ≠ child → self ≠ child →
  ∃ h' n' nc, add_child self child h = Ok (tt, h') ∧
    h' !! self = Some n' ∧ child ∈ Tree.children n' ∧
    h' !! p = Some pn ∧
    h' !! child = Some nc ∧ Tree.parent nc = Some self ∧
    ∀ t, is_tree h' t → ¬ (self ∈ refs t ∧ p ∈ refs t).
Proof.
  intros Hn Hpn Hin Hlt Hps Hpc Hsc.
  destruct (add_child_spec h self child n Hn Hlt Hsc)
    as (h' & Hrun & Hlen & Hs' & Hc' & Hx').
  apply lookup_lt_is_Some in Hlt as [m Hm]. rewrite Hm in Hc'. simpl in Hc'.
  assert (h' !! p = Some pn) as Hp' by by rewrite Hx'.
  eexists h', _, _. split; [done|]. split; [done|].
  split; [simpl; set_solver|]. split; [done|]. split; [done|]. split; [done|].
  intros t Ht [Hself Hp]. apply Hps. symmetry.
  apply (one_parent h' t self p _ pn child Ht Hself Hp Hs' Hp');
    [simpl; set_solver|done].
Qed.

(** *** [small_child] and [big_child] *)

Lemma min_by_sizes (key : ref → result nat) cs best kbest :
  Forall (λ c, key (root c) = Ok (size c)) cs →
  ∃ m, min_by key best kbest (root <$> cs) = Ok m ∧
    ((m = best ∧ ∀ c, c ∈ cs → kbest ≤ size c) ∨
     (∃ i ci, cs !! i = Some ci ∧ m = root ci ∧ size ci < kbest ∧
        ∀ k c, cs !! k = Some c → size ci ≤ size c ∧ (k < i → size ci < size c))).
Proof.
  intros Hcs. revert best kbest.
  induction Hcs as [|c cs Hc _ IH]; intros best kbest.
  { exists best. split; [done|]. left. split; [done|]. by intros ? ?%elem_of_nil. }
  csimpl. rewrite Hc. simpl. case_bool_decide as Hlt.
  - destruct (IH (root c) (size c)) as (m & Hrun & [[-> Hall]|Hlater]).
    + exists (root c). split; [done|]. right. exists 0, c.
      split; [done|]. split; [done|]. split; [done|].
      intros [|k] c'; simpl.
      * intros [= <-]. split; [lia|lia].
      * intros Hk%list_elem_of_lookup_2. split; [by apply Hall|lia].
    + destruct Hlater as (i & ci & Hi & -> & Hlt' & Hmin).
      exists (root ci). split; [done|]. right. exists (S i), ci.
      split; [done|]. split; [done|]. split; [lia|].
      intros [|k] c'; simpl.
      * intros [= <-]. split; [lia|]. intros _. lia.
      * intros Hk. destruct (Hmin k c' Hk) as [? Hk']. split; [done|].
        intros ?. apply Hk'. lia.
  - destruct (IH best kbest) as (m & Hrun & [[-> Hall]|Hlater]).
    + exists best. split; [done|]. left. split; [done|].
      intros c' [->|?]%elem_of_cons; [lia|by apply Hall].
    + destruct Hlater as (i & ci & Hi & -> & Hlt' & Hmin).
      exists (root ci). split; [done|]. right. exists (S i), ci.
      split; [done|]. split; [done|]. split; [lia|].
      intros [|k] c'; simpl.
      * intros [= <-]. split; [lia|]. intros _. lia.
      * intros Hk. destruct (Hmin k c' Hk) as [? Hk']. split; [done|].
        intros ?. apply Hk'. lia.
Qed.

Lemma max_by_sizes (key : ref → result nat) cs best kbest :
  Forall (λ c, key (root c) = Ok (size c)) cs →
  ∃ m, max_by key best kbest (root <$> cs) = Ok m ∧
    ((m = best ∧ ∀ c, c ∈ cs → size c ≤ kbest) ∨
     (∃ i ci, cs !! i = Some ci ∧ m = root ci ∧ kbest < size ci ∧
        ∀ k c, cs !! k = Some c → size c ≤ size ci ∧ (k < i → size c < size ci))).
Proof.
  intros Hcs. revert best kbest.
  induction Hcs as [|c cs Hc _ IH]; intros best kbest.
  { exists best. split; [done|]. left. split; [done|]. by intros ? ?%elem_of_nil. }
  csimpl. rewrite Hc. simpl. case_bool_decide as Hlt.
  - destruct (IH (root c) (size c)) as (m & Hrun & [[-> Hall]|Hlater]).
    + exists (root c). split; [done|]. right. exists 0, c.
      split; [done|]. split; [done|]. split; [done|].
      intros [|k] c'; simpl.
      * intros [= <-]. split; [lia|lia].
      * intros Hk%list_elem_of_lookup_2. split; [by apply Hall|lia].
    + destruct Hlater as (i & ci & Hi & -> & Hlt' & Hmin).
      exists (root ci). split; [done|]. right. exists (S i), ci.
      split; [done|]. split; [done|]. split; [lia|].
      intros [|k] c'; simpl.
      * intros [= <-]. split; [lia|]. intros _. lia.
      * intros Hk. destruct (Hmin k c' Hk) as [? Hk']. split; [done|].
        intros ?. apply Hk'. lia.
  - destruct (IH best kbest) as (m & Hrun & [[-> Hall]|Hlater]).
    + exists best. split; [done|]. left. split; [done|].
      intros c' [->|?]%elem_of_cons; [lia|by apply Hall].
    + destruct Hlater as (i & ci & Hi & -> & Hlt' & Hmin).
      exists (root ci). split; [done|]. right. exists (S i), ci.
      split; [done|]. split; [done|]. split; [lia|].
      intros [|k] c'; simpl.
      * intros [= <-]. split; [lia|]. intros _. lia.
      * intros Hk. destruct (Hmin k c' Hk) as [? Hk']. split; [done|].
        intros ?. apply Hk'. lia.
Qed.

Lemma min_child (key : ref → result nat) c0 rest :
  Forall (λ c, key (root c) = Ok (size c)) rest →
  ∃ i ci, (c0 :: rest) !! i = Some ci ∧
    min_by key (root c0) (size c0) (root <$> rest) = Ok (root ci) ∧
    ∀ k c, (c0 :: rest) !! k = Some c →
      size ci ≤ size c ∧ (k < i → size ci < size c).
Proof.
  intros Hk.
  destruct (min_by_sizes key rest (root c0) (size c0) Hk)
    as (m & Hrun & [[-> Hall]|(i & ci & Hi & -> & Hlt & Hmin)]).
  - exists 0, c0. split; [done|]. split; [done|]. intros [|k] c; simpl.
    + intros [= <-]. lia.
    + intros Hc%list_elem_of_lookup_2. split; [by apply Hall|lia].
  - exists (S i), ci. split; [done|]. split; [done|]. intros [|k] c; simpl.
    + intros [= <-]. lia.
    + intros Hc. destruct (Hmin k c Hc) as [? Hk']. split; [done|].
      intros ?. apply Hk'. lia.
Qed.

Lemma max_child (key : ref → result nat) c0 rest :
  Forall (λ c, key (root c) = Ok (size c)) rest →
  ∃ i ci, (c0 :: rest) !! i = Some ci ∧
    max_by key (root c0) (size c0) (root <$> rest) = Ok (root ci) ∧
    ∀ k c, (c0 :: rest) !! k = Some c →
      size c ≤ size ci ∧ (k < i → size c < size ci).
Proof.
  intros Hk.
  destruct (max_by_sizes key rest (root c0) (size c0) Hk)
    as (m & Hrun & [[-> Hall]|(i & ci & Hi & -> & Hlt & Hmin)]).
  - exists 0, c0. split; [done|]. split; [done|]. intros [|k] c; simpl.
    + intros [= <-]. lia.
    + intros Hc%list_elem_of_lookup_2. split; [by apply Hall|lia].
  - exists (S i), ci. split; [done|]. split; [done|]. intros [|k] c; simpl.
    + intros [= <-]. lia.
    + intros Hc. destruct (Hmin k c Hc) as [? Hk']. split; [done|].
      intros ?. apply Hk'. lia.
Qed.

(** X8: at a node without children [small_child] and [big_child] raise
    [ValueError]. At any other node of a tree they return children of the
    node: [small_child] the first child, in the order of the list, whose
    [tree_size] is the least, and [big_child] the first one whose
    [tree_size] is the greatest. *)
Theorem small_big_child_tree h t n :
  is_tree h t → h !! root t = Some n →
  (Tree.children n = [] →
     small_child h (root t) = Raise ValueError ∧
     big_child h (root t) = Raise ValueError) ∧
  (Tree.children n ≠ [] →
     ∃ i j small big s b,
       Tree.children n !! i = Some small ∧ Tree.children n !! j = Some big ∧
       small_child h (root t) = Ok small ∧ big_child h (root t) = Ok big ∧
       tree_size h small = Ok s ∧ tree_size h big = Ok b ∧
       ∀ k c, Tree.children n !! k = Some c →
         ∃ sc, tree_size h c = Ok sc ∧ s ≤ sc ∧ sc ≤ b ∧
           (k < i → s < sc) ∧ (k < j → sc < b)).
Proof.
  intros Ht Hn. pose proof Ht as [(n' & Hn' & Hcs)%shape_lookup _].
  assert (n' = n) as -> by congruence. clear Hn'.
  unfold small_child, big_child, node_at. rewrite Hn. simpl.
  split; [by intros ->|]. intros Hne.
  destruct t as [r [|c0 rest]]; simpl in Hcs; [done|]. clear Hne.
  assert (∀ c, c ∈ c0 :: rest → tree_size h (root c) = Ok (size c)) as Hsz.
  { intros c Hc. by apply (tree_size_child h (RT r (c0 :: rest))). }
  assert (Forall (λ c, tree_size h (root c) = Ok (size c)) rest) as Hrest.
  { apply Forall_forall. intros c Hc. apply Hsz. by right. }
  destruct (min_child (tree_size h) c0 rest Hrest) as (i & ci & Hi & Hmin & Hi').
  destruct (max_child (tree_size h) c0 rest Hrest) as (j & cj & Hj & Hmax & Hj').
  exists i, j, (root ci), (root cj), (size ci), (size cj).
  rewrite Hcs. rewrite <- fmap_cons, !list_lookup_fmap, Hi, Hj.
  split; [done|]. split; [done|]. rewrite fmap_cons.
  rewrite (Hsz c0) by by left. simpl.
  split; [done|]. split; [done|].
  split; [by apply Hsz; eapply list_elem_of_lookup_2|].
  split; [by apply Hsz; eapply list_elem_of_lookup_2|].
  intros k c. rewrite <- fmap_cons, list_lookup_fmap.
  destruct ((c0 :: rest) !! k) as [tc|] eqn:Hk; [|done]. intros [= <-].
  exists (size tc). split; [by apply Hsz; eapply list_elem_of_lookup_2|].
  destruct (Hi' k tc Hk), (Hj' k tc Hk). auto.
Qed.

(** *** [get_subtree] along a path in two parts *)

(** X19: [get_subtree] of a path [p ++ q] is [get_subtree] of [q] at the
    node that [get_subtree] of [p] returns, and raises what that call
    raises; on a tree every node it returns is one of those that
    [iter_descendants] yields. *)
Theorem get_subtree_app h n p q :
  get_subtree h n (p ++ q) = (m ← get_subtree h n p; get_subtree h m q) ∧
  ∀ t r, shape h t → n = root t → get_subtree h n p = Ok r → r ∈ refs t.
Proof.
  split.
  - revert n. induction p as [|i p IH]; intros n; [done|].
    simpl. destruct (node_at h n) as [node|]; simpl; [|done].
    destruct (py_index (Tree.children node) i) as [c|]; simpl; [|done].
    apply IH.
  - intros t r Hs -> Hr. revert t Hs Hr.
    induction p as [|i p IH]; intros t Hs Hr.
    + injection Hr as <-. apply root_in_refs.
    + simpl in Hr. destruct (node_at_shape _ _ Hs) as (node & Hnode & Hcs).
      rewrite Hnode in Hr. simpl in Hr.
      destruct (py_index (Tree.children node) i) as [c|] eqn:Hi; [|done].
      simpl in Hr. apply py_index_ok in Hi as [_ Hc].
      apply list_elem_of_lookup_2 in Hc. rewrite Hcs in Hc.
      apply list_elem_of_fmap in Hc as (tc & -> & Htc).
      apply shape_subtrees in Hs as Hsub. rewrite Forall_forall in Hsub.
      destruct t as [r0 cs]. simpl in Htc. cbn [refs]. right.
      apply (refs_subtree tc); [done|]. apply IH; [by apply Hsub|done].
Qed.

(** *** [tree_imbalance] *)

Lemma binary_Forall r cs : binary (RT r cs) ↔ length cs ≤ 2 ∧ Forall binary cs.
Proof.
  cbn [binary]. assert (foldr (λ c P, binary c ∧ P) True cs ↔ Forall binary cs)
    as ->; [|done].
  induction cs as [|c cs IH]; simpl.
  - split; [constructor|done].
  - rewrite IH, Forall_cons. done.
Qed.

Lemma binary_dec t : binary t ∨ ¬ binary t.
Proof.
  induction t as [r cs IH] using rtree_ind'.
  assert (Forall binary cs ∨ Exists (λ c, ¬ binary c) cs) as [Hall|Hex].
  { induction IH as [|c cs [Hc|Hc] _ [IHcs|IHcs]]; auto. }
  - destruct (decide (length cs ≤ 2)) as [Hl|Hl].
    + left. by apply binary_Forall.
    + right. intros [? _]%binary_Forall. done.
  - right. intros [_ Hall]%binary_Forall.
    apply Exists_exists in Hex as (c & Hc & Hn).
    rewrite Forall_forall in Hall. by apply Hn, Hall.
Qed.

Lemma node_imbalance_few h t :
  is_tree h t → length (subtrees t) ≤ 2 →
  ∃ q, node_imbalance h (root t) = Ok q ∧ (-1 <= q ∧ q <= 1)%Q.
Proof.
  intros Ht Hl. pose proof Ht as [(n & Hn & Hcs)%shape_lookup _].
  pose proof (tree_size_ok _ _ Ht) as Hsz.
  destruct t as [r cs]. cbn [root subtrees] in *.
  destruct (decide (length cs = 2 ∧ 4 ≤ size (RT r cs))) as [[H2 H4]|Hsmall].
  - destruct cs as [|t1 [|t2 [|t3 cs]]]; try done.
    rewrite (node_imbalance_two h r t1 t2 Ht H4). eexists. split; [done|].
    apply imbalance_bounds; [simpl; lia|apply size_pos..|done].
  - exists 0%Q. split; [|done].
    unfold node_imbalance, node_at. rewrite Hn. simpl.
    rewrite Hcs, length_fmap. rewrite bool_decide_false by lia.
    case_bool_decide; [done|]. rewrite Hsz. simpl.
    rewrite bool_decide_true; [done|]. simpl in Hsmall |- *. lia.
Qed.

Lemma node_imbalance_many h t :
  shape h t → 2 < length (subtrees t) →
  node_imbalance h (root t) = Raise AssertionError.
Proof.
  intros (n & Hn & Hcs)%shape_lookup Hl.
  unfold node_imbalance, node_at. rewrite Hn. simpl.
  rewrite Hcs, length_fmap. by rewrite bool_decide_true.
Qed.

Lemma foldM_app_raise {A} (g : ref → result (list A)) e cs acc :
  Forall (λ c, (∃ v, g (root c) = Ok v) ∨ g (root c) = Raise e) cs →
  Exists (λ c, g (root c) = Raise e) cs →
  foldM (λ acc c, ds ← g c; Ok (acc ++ ds)) acc (root <$> cs) = Raise e.
Proof.
  intros Hall Hex. revert acc.
  induction Hall as [|c cs Hc _ IH]; intros acc; [by apply Exists_nil in Hex|].
  csimpl. destruct Hc as [[v Hv]|Hc].
  - rewrite Hv. simpl. apply IH. apply Exists_cons in Hex as [?|?]; [|done].
    congruence.
  - by rewrite Hc.
Qed.

Lemma mapM_result_app {A B} (F : A → result B) l1 l2 v1 v2 :
  mapM F l1 = Ok v1 → mapM F l2 = Ok v2 → mapM F (l1 ++ l2) = Ok (v1 ++ v2).
Proof.
  revert v1. induction l1 as [|x l1 IH]; intros v1; simpl.
  - by intros [= <-].
  - destruct (F x) as [y|]; simpl; [|done].
    destruct (mapM F l1) as [k|] eqn:Hk; simpl; [|done].
    intros [= <-] H2. by rewrite (IH k eq_refl H2).
Qed.

Lemma mapM_result_concat {A B} (F : A → result B) (fr : rtree → list A)
    (fv : rtree → list B) cs :
  Forall (λ c, mapM F (fr c) = Ok (fv c)) cs →
  mapM F (concat (fr <$> cs)) = Ok (concat (fv <$> cs)).
Proof.
  induction 1 as [|c cs Hc _ IH]; [done|]. csimpl.
  by apply mapM_result_app.
Qed.

Lemma mapM_result_length {A B} (F : A → result B) l v :
  mapM F l = Ok v → length v = length l.
Proof.
  revert v. induction l as [|x l IH]; intros v; simpl.
  - by intros [= <-].
  - destruct (F x) as [y|]; simpl; [|done].
    destruct (mapM F l) as [k|] eqn:Hk; simpl; [|done].
    intros [= <-]. simpl. f_equal. by apply IH.
Qed.

Lemma node_imbalances_rec_spec h t f :
  is_tree h t → depth t ≤ f →
  (binary t →
     ∃ qs, node_imbalances_rec f h (root t) = Ok qs ∧
       mapM (node_imbalance h) (refs t) = Ok qs ∧
       Forall (λ q, (-1 <= q ∧ q <= 1)%Q) qs) ∧
  (¬ binary t → node_imbalances_rec f h (root t) = Raise AssertionError).
Proof.
  revert f. induction t as [r cs IH] using rtree_ind'. intros f Ht Hd.
  destruct f as [|f]; [simpl in Hd; lia|]. simpl in Hd. apply le_S_n in Hd.
  pose proof Ht as [Hs _].
  destruct (node_at_shape _ _ Hs) as (n & Hn & Hcs). cbn [root subtrees] in *.
  assert (∀ c, c ∈ cs →
    (binary c →
       ∃ qs, node_imbalances_rec f h (root c) = Ok qs ∧
         mapM (node_imbalance h) (refs c) = Ok qs ∧
         Forall (λ q, (-1 <= q ∧ q <= 1)%Q) qs) ∧
    (¬ binary c → node_imbalances_rec f h (root c) = Raise AssertionError))
    as IH'.
  { rewrite Forall_forall in IH. intros c Hc. apply IH; [done| |].
    - by apply (is_tree_subtree h (RT r cs)).
    - pose proof (depth_subtree _ _ Hc). lia. }
  clear IH.
  destruct (decide (length cs ≤ 2)) as [Hl|Hl].
  2:{ split; [intros [? _]%(binary_Forall r); lia|]. intros _.
      cbn [node_imbalances_rec].
      pose proof (node_imbalance_many h (RT r cs) Hs) as Hmany.
      cbn [root subtrees] in Hmany. rewrite Hmany; [done|lia]. }
  destruct (node_imbalance_few h (RT r cs) Ht Hl) as (q & Hq & Hqb).
  cbn [root] in Hq. cbn [node_imbalances_rec]. rewrite Hq, Hn. simpl.
  rewrite Hcs. split.
  - intros [_ Hbin]%(binary_Forall r).
    set (F := λ c : rtree,
           match mapM (node_imbalance h) (refs c) with
           | Ok qs => qs
           | Raise _ => []
           end).
    assert (∀ c, c ∈ cs →
      node_imbalances_rec f h (root c) = Ok (F c) ∧
      mapM (node_imbalance h) (refs c) = Ok (F c) ∧
      Forall (λ q, (-1 <= q ∧ q <= 1)%Q) (F c)) as HF.
    { intros c Hc. rewrite Forall_forall in Hbin.
      destruct (proj1 (IH' c Hc) (Hbin c Hc)) as (qs & H1 & H2 & H3).
      unfold F. rewrite H2. done. }
    exists (q :: concat (F <$> cs)). split; [|split].
    + rewrite (foldM_app _ F); [done|]. apply Forall_forall.
      intros c Hc. by apply HF.
    + cbn [refs]. simpl. rewrite Hq. simpl.
      rewrite (mapM_result_concat _ refs F); [done|]. apply Forall_forall.
      intros c Hc. by apply HF.
    + constructor; [done|]. apply Forall_concat, Forall_fmap, Forall_forall.
      intros c Hc. by apply HF.
  - intros Hnb. apply foldM_app_raise.
    + apply Forall_forall. intros c Hc. destruct (binary_dec c) as [Hb|Hb].
      * left. destruct (proj1 (IH' c Hc) Hb) as (qs & H1 & _). eauto.
      * right. by apply IH'.
    + assert (¬ Forall binary cs) as Hex.
      { intros ?. apply Hnb. by apply (binary_Forall r). }
      clear -Hex IH'. induction cs as [|c cs IHcs]; [by destruct Hex|].
      destruct (binary_dec c) as [Hb|Hb].
      * apply Exists_cons_tl. apply IHcs.
        -- intros c' Hc'. apply IH'. by right.
        -- intros ?. apply Hex. by constructor.
      * apply Exists_cons_hd. apply IH'; [by left|done].
Qed.

Lemma Qsum_bounds qs :
  Forall (λ q, (-1 <= q ∧ q <= 1)%Q) qs →
  (- inject_Z (Z.of_nat (length qs)) <= Qsum qs
   ∧ Qsum qs <= inject_Z (Z.of_nat (length qs)))%Q.
Proof.
  induction 1 as [|q qs [Hq1 Hq2] _ [IH1 IH2]]; [done|].
  cbn [Qsum foldr length]. fold (Qsum qs).
  rewrite Nat2Z.inj_succ, <- Z.add_1_l, inject_Z_plus.
  change (inject_Z 1) with 1%Q. split.
  - setoid_replace (- (1 + inject_Z (Z.of_nat (length qs))))%Q
      with (-1 + - inject_Z (Z.of_nat (length qs)))%Q using relation Qeq by ring.
    by apply Qplus_le_compat.
  - by apply Qplus_le_compat.
Qed.

(** X9: on a tree in which every node has at most two children,
    [tree_imbalance] is the mean of the values of [node_imbalance] at the
    nodes, in the order of [iter_descendants], and it lies between -1 and
    1; on a tree with a node of more than two children it raises the
    [AssertionError] of [node_imbalance]. *)
Theorem tree_imbalance_tree h t :
  is_tree h t →
  (binary t →
     ∃ ds qs q,
       iter_descendants h (root t) = Ok ds ∧
       mapM (node_imbalance h) ds = Ok qs ∧
       tree_imbalance h (root t) = Ok q ∧
       q = (Qsum qs / inject_Z (Z.of_nat (length ds)))%Q ∧
       (-1 <= q ∧ q <= 1)%Q) ∧
  (¬ binary t → tree_imbalance h (root t) = Raise AssertionError).
Proof.
  intros Ht. pose proof (depth_lt_heap _ _ Ht) as Hd.
  destruct (node_imbalances_rec_spec h t (S (length h)) Ht) as [Hbin Hnb];
    [lia|].
  split.
  - intros Hb. destruct (Hbin Hb) as (qs & Hrun & Hmap & Hqs).
    exists (refs t), qs. eexists.
    split; [apply iter_descendants_rec_ok; [apply Ht|lia]|].
    split; [done|]. unfold tree_imbalance. rewrite Hrun. simpl.
    pose proof (mapM_result_length _ _ _ Hmap) as Hlen. rewrite Hlen.
    split; [done|]. split; [done|].
    destruct (Qsum_bounds qs Hqs) as [Hlo Hhi]. rewrite Hlen in Hlo, Hhi.
    assert (0 < inject_Z (Z.of_nat (length (refs t))))%Q as Hpos.
    { change 0%Q with (inject_Z 0). rewrite <- Zlt_Qlt, length_refs.
      pose proof (size_pos t). lia. }
    split.
    + apply Qle_shift_div_l; [done|].
      by setoid_replace (-1 * inject_Z (Z.of_nat (length (refs t))))%Q
        with (- inject_Z (Z.of_nat (length (refs t))))%Q using relation Qeq
        by ring.
    + apply Qle_shift_div_r; [done|]. by rewrite Qmult_1_l.
  - intros Hb. unfold tree_imbalance. by rewrite (Hnb Hb).
Qed.

(** *** [binarize], then the functions that read the tree *)

Lemma subtrees_leaves r cs :
  cs ≠ [] → leaves (RT r cs) = concat (leaves <$> cs).
Proof. by destruct cs. Qed.

Lemma Bin_leaves n t t' n' :
  Bin n t t' n' → leaves t' = leaves t ∧ size t' + n = size t + n'.
Proof.
  induction 1 as
    [r n|r c c' n n' HB [IHl IHs]
    |r c1 c2 c1' c2' n n1 n2 HB1 [IH1l IH1s] HB2 [IH2l IH2s]
    |r c0 rest c0' s' n n1 n2 Hlen HB0 [IH0l IH0s] HBs [IHsl IHss]].
  - done.
  - simpl. rewrite IHl. split; [done|lia].
  - simpl. rewrite IH1l, IH2l. split; [done|lia].
  - apply Bin_next in HB0 as ?. apply Bin_next in HBs as ?.
    rewrite !subtrees_leaves by done. csimpl. rewrite IH0l, IHsl.
    rewrite subtrees_leaves by (intros ->; simpl in Hlen; lia).
    rewrite app_nil_r.
    split; [done|]. simpl in IHss |- *. lia.
Qed.

Lemma binarize_tree h t :
  is_tree h t → locs_ok h t →
  ∃ h' t', binarize (root t) h = Ok (tt, h') ∧ is_tree h' t' ∧
    root t' = root t ∧ Bin (length h) t t' (length h').
Proof.
  intros Ht Hloc. pose proof (size_le_heap _ _ Ht) as Hsz.
  destruct Ht as [Hsh Hnd]. pose proof (refs_lt _ _ Hsh) as Hlt.
  destruct (binarize_rec_spec (S (length h)) t h)
    as (h' & t' & Hrun & HB & Hsh' & _); [lia|done..|].
  pose proof (Bin_NoDup _ _ _ _ HB Hlt Hnd) as Hnd'.
  exists h', t'. split; [done|]. split; [done|]. split; [by eapply Bin_root|done].
Qed.

(** X10: [binarize] keeps the leaves: after it [iter_leafs] yields the
    same nodes in the same order and [n_leafs] is the same number;
    [tree_size] grows by the number of nodes [binarize] has created. *)
Theorem binarize_leaves h t :
  is_tree h t → locs_ok h t →
  ∃ h' ls sz,
    binarize (root t) h = Ok (tt, h') ∧
    iter_leafs h (root t) = Ok ls ∧ iter_leafs h' (root t) = Ok ls ∧
    n_leafs h (root t) = Ok (length ls) ∧
    n_leafs h' (root t) = Ok (length ls) ∧
    tree_size h (root t) = Ok sz ∧ length h ≤ length h' ∧
    tree_size h' (root t) = Ok (sz + (length h' - length h)).
Proof.
  intros Ht Hloc.
  destruct (binarize_tree h t Ht Hloc) as (h' & t' & Hrun & Ht' & Hroot & HB).
  destruct (Bin_leaves _ _ _ _ HB) as [Hl Hs]. apply Bin_next in HB as Hle.
  pose proof (depth_lt_heap _ _ Ht) as Hd.
  pose proof (depth_lt_heap _ _ Ht') as Hd'.
  exists h', (leaves t), (size t). split; [done|]. rewrite <- Hroot at 2 4 6.
  split; [apply iter_leafs_rec_ok; [apply Ht|lia]|].
  split; [rewrite <- Hl; apply iter_leafs_rec_ok; [apply Ht'|lia]|].
  split; [apply n_leafs_rec_ok; [apply Ht|lia]|].
  split; [rewrite <- Hl; apply n_leafs_rec_ok; [apply Ht'|lia]|].
  split; [by apply tree_size_ok|]. split; [done|].
  rewrite (tree_size_ok _ _ Ht'). f_equal. lia.
Qed.

(** X11: after [binarize], [tree_imbalance] returns: no assertion of
    [node_imbalance] fails, and the mean lies between -1 and 1. *)
Theorem binarize_tree_imbalance h t :
  is_tree h t → locs_ok h t →
  ∃ h' q,
    binarize (root t) h = Ok (tt, h') ∧
    tree_imbalance h' (root t) = Ok q ∧ (-1 <= q ∧ q <= 1)%Q.
Proof.
  intros Ht Hloc.
  destruct (binarize_tree h t Ht Hloc) as (h' & t' & Hrun & Ht' & Hroot & HB).
  destruct (node_imbalances_rec_spec h' t' (S (length h')) Ht') as [Hbin _].
  { pose proof (depth_lt_heap _ _ Ht'). lia. }
  destruct (Hbin (Bin_binary _ _ _ _ HB)) as (qs & Hqs & Hmap & Hall).
  exists h'. eexists. split; [done|]. rewrite <- Hroot.
  unfold tree_imbalance. rewrite Hqs. simpl. split; [done|].
  destruct (Qsum_bounds qs Hall) as [Hlo Hhi].
  assert (0 < inject_Z (Z.of_nat (length qs)))%Q as Hpos.
  { change 0%Q with (inject_Z 0). rewrite <- Zlt_Qlt.
    rewrite (mapM_result_length _ _ _ Hmap), length_refs.
    pose proof (size_pos t'). lia. }
  split.
  - apply Qle_shift_div_l; [done|].
    by setoid_replace (-1 * inject_Z (Z.of_nat (length qs)))%Q
      with (- inject_Z (Z.of_nat (length qs)))%Q using relation Qeq by ring.
  - apply Qle_shift_div_r; [done|]. by rewrite Qmult_1_l.
Qed.

(** *** [Tree.__init__] over trees *)

(** X12: [Tree(length, name, children, ...)] with the roots of trees that
    share no node is the root of a tree over them: its size is one more
    than the sum of theirs; every given root has the new node as its
    parent and is otherwise as it was, whatever its parent was before;
    the other nodes are as they were, so that parents that were in line
    with the children below the roots still are; and an empty alignment
    is replaced by [[0]]. *)
Theorem Tree_init_tree l nm cs p attrs loc al h :
  Forall (is_tree h) cs → NoDup (concat (refs <$> cs)) →
  ∃ h', Tree_init l nm (root <$> cs) p attrs loc al h = Ok (length h, h') ∧
    h' !! length h
    = Some (Tree.Node l nm (root <$> cs) p attrs loc
              (match al with [] => [0%Z] | _ => al end)) ∧
    is_tree h' (RT (length h) cs) ∧
    (∀ x, x ∈ root <$> cs →
       h' !! x = set_parent (Some (length h)) <$> h !! x) ∧
    (∀ c, c ∈ cs →
       ∃ n, h' !! root c = Some n ∧ Tree.parent n = Some (length h)) ∧
    (Forall (parents_ok h) cs → parents_ok h' (RT (length h) cs)) ∧
    tree_size h' (length h) = Ok (S (sum_list (size <$> cs))) ∧
    (∀ x, x < length h → x ∉ root <$> cs → h' !! x = h !! x).
Proof.
  intros Hcs Hnd. rewrite Forall_forall in Hcs.
  assert (∀ c x, c ∈ cs → x ∈ refs c → x < length h) as Hlt.
  { intros c x Hc Hx. pose proof (refs_lt h c (proj1 (Hcs c Hc))) as Hall.
    rewrite Forall_forall in Hall. by apply Hall. }
  destruct (Tree_init_ok l nm (root <$> cs) p attrs loc al h)
    as (h' & Hrun & Hlen & Hnew & Hold & Hroots).
  { apply Forall_fmap, Forall_forall. intros c Hc. apply (Hlt c); [done|].
    apply root_in_refs. }
  exists h'. split; [done|]. split; [done|].
  assert (is_tree h' (RT (length h) cs)) as Ht'.
  { split.
    - eapply shape_node; [exact Hnew|done|]. apply Forall_forall. intros c Hc.
      apply (shape_ext h); [|apply (Hcs c Hc)].
      intros x n Hx Hn. destruct (decide (x ∈ root <$> cs)) as [Hin|Hout].
      + rewrite (Hroots x Hin), Hn. simpl. eexists. split; [done|]. done.
      + exists n. split; [|done]. rewrite Hold; [done| |done]. by apply (Hlt c).
    - cbn [refs]. apply NoDup_cons. split; [|done].
      intros (l' & Hx & (c & -> & Hc)%list_elem_of_fmap)%elem_of_concat.
      pose proof (Hlt c _ Hc Hx). lia. }
  split; [done|]. split; [done|]. split.
  { intros c Hc. destruct (shape_lookup _ _ (proj1 (Hcs c Hc))) as (n & Hn & _).
    rewrite (Hroots (root c)) by by apply list_elem_of_fmap_2.
    rewrite Hn. simpl. eexists. split; [done|]. done. }
  split.
  { intros Hp. rewrite Forall_forall in Hp. constructor.
    - apply Forall_forall. intros c Hc.
      destruct (shape_lookup _ _ (proj1 (Hcs c Hc))) as (n & Hn & _).
      rewrite (Hroots (root c)) by by apply list_elem_of_fmap_2.
      rewrite Hn. simpl. eexists. split; [done|]. done.
    - apply Forall_forall. intros c Hc.
      apply (parents_ok_ext h); [|by apply Hp].
      intros x n Hx Hn. exists n. split; [|done].
      rewrite Hold; [done|apply (Hlt c); [done|by apply elem_of_tail]|].
      by apply (tail_not_root cs c). }
  split; [|done]. apply (tree_size_ok h' (RT (length h) cs) Ht').
Qed.

(** *** [remove_nodes_by_name] at its edges *)

Lemma for_each_noop {A} (body : A → M unit) l (h : heap) :
  Forall (λ x, body x h = Ok (tt, h)) l → for_each l body h = Ok (tt, h).
Proof.
  induction 1 as [|x l Hx _ IH]; [done|]. simpl.
  by rewrite (bind_ok _ _ _ _ _ Hx).
Qed.

Lemma remove_nodes_by_name_rec_absent h t names f :
  shape h t → depth t ≤ f →
  (∀ x n, x ∈ tail (refs t) → h !! x = Some n → Tree.name n ∉ names) →
  (∀ x n, x ∈ refs t → h !! x = Some n → length (Tree.children n) ≠ 1) →
  remove_nodes_by_name_rec f (root t) names h = Ok (tt, h).
Proof.
  revert f. induction t as [r cs IH] using rtree_ind'.
  intros [|f] Hs Hd Hnames Hone; [simpl in Hd; lia|].
  simpl in Hd. apply le_S_n in Hd.
  destruct (shape_lookup _ _ Hs) as (n & Hn & Hcs).
  apply shape_subtrees in Hs. cbn [root subtrees] in *.
  rewrite Forall_forall in IH, Hs.
  cbn [remove_nodes_by_name_rec].
  rewrite (bind_ok _ _ _ _ _ (get_ok _ _ _ Hn)).
  assert (for_each (Tree.children n) (λ c,
            cn ← get c;
            if bool_decide (Tree.name cn ∈ names) then
              s ← get r;
              cs ← lift (of_option ValueError (list_remove (Tree.children s) c));
              modify r (set_children cs)
            else remove_nodes_by_name_rec f c names) h = Ok (tt, h)) as Hloop.
  { apply for_each_noop. rewrite Hcs. apply Forall_fmap, Forall_forall.
    intros c Hc. simpl.
    destruct (shape_lookup _ _ (Hs c Hc)) as (cn & Hcn & _).
    rewrite (bind_ok _ _ _ _ _ (get_ok _ _ _ Hcn)).
    assert (root c ∈ concat (refs <$> cs)) as Hin.
    { apply (refs_subtree c); [done|apply root_in_refs]. }
    rewrite bool_decide_false by by apply (Hnames (root c)).
    apply IH; [done|by apply Hs| | |].
    - pose proof (depth_subtree _ _ Hc). lia.
    - intros x nx Hx. apply Hnames. cbn [refs tail].
      apply (refs_subtree c); [done|by apply elem_of_tail].
    - intros x nx Hx. apply Hone. cbn [refs]. right.
      by apply (refs_subtree c). }
  rewrite (bind_ok _ _ _ _ _ Hloop).
  case_bool_decide as Hleaf; [done|].
  rewrite (bind_ok _ _ _ _ _ (get_ok _ _ _ Hn)).
  pose proof (Hone r n (root_in_refs (RT r cs)) Hn) as H1.
  by destruct (Tree.children n) as [|? [|? ?]].
Qed.

(** X13: on a tree in which no node has exactly one child and no node
    other than the root has one of the names, [remove_nodes_by_name]
    returns and changes nothing; the node it is called on is never
    removed, whatever its name. *)
Theorem remove_nodes_by_name_absent h t names :
  is_tree h t →
  (∀ x n, x ∈ tail (refs t) → h !! x = Some n → Tree.name n ∉ names) →
  (∀ x n, x ∈ refs t → h !! x = Some n → length (Tree.children n) ≠ 1) →
  remove_nodes_by_name (root t) names h = Ok (tt, h).
Proof.
  intros Ht Hnames Hone. unfold remove_nodes_by_name.
  apply remove_nodes_by_name_rec_absent; [apply Ht| |done..].
  pose proof (depth_lt_heap _ _ Ht). lia.
Qed.

Lemma for_each_remove_all (l : list ref) r (names : list str) h n :
  h !! r = Some n → Tree.children n = l → r ∉ l →
  (∀ c, c ∈ l → ∃ cn, h !! c = Some cn ∧ Tree.name cn ∈ names) →
  ∀ g : ref → M unit,
  for_each l (λ c,
    cn ← get c;
    if bool_decide (Tree.name cn ∈ names) then
      s ← get r;
      cs ← lift (of_option ValueError (list_remove (Tree.children s) c));
      modify r (set_children cs)
    else g c) h
  = Ok (tt, <[r := set_children [] n]> h).
Proof.
  intros Hn Hl Hr Hall g. revert h n Hn Hl Hall.
  induction l as [|c l IH]; intros h n Hn Hl Hall.
  { simpl. unfold mret, M_ret. rewrite list_insert_id; [done|].
    rewrite Hn. f_equal. destruct n. simpl in Hl. by subst. }
  apply not_elem_of_cons in Hr as [Hrc Hr].
  destruct (Hall c) as (cn & Hcn & Hname); [by left|].
  cbn [for_each].
  set (h1 := <[r := set_children l n]> h).
  assert ((cn ← get c;
           if bool_decide (Tree.name cn ∈ names) then
             s ← get r;
             cs ← lift (of_option ValueError (list_remove (Tree.children s) c));
             modify r (set_children cs)
           else g c) h = Ok (tt, h1)) as Hstep.
  { rewrite (bind_ok _ _ _ _ _ (get_ok _ _ _ Hcn)).
    rewrite bool_decide_true by done.
    rewrite (bind_ok _ _ _ _ _ (get_ok _ _ _ Hn)).
    rewrite Hl. simpl. rewrite decide_True by done. simpl.
    unfold mbind, M_bind, lift. simpl. by rewrite (modify_ok _ _ _ _ Hn). }
  rewrite (bind_ok _ _ _ _ _ Hstep).
  rewrite (IH Hr h1 (set_children l n)).
  - unfold h1. by rewrite list_insert_insert_eq.
  - unfold h1. apply list_lookup_insert_eq. by eapply lookup_lt_Some.
  - done.
  - intros c' Hc'. destruct (Hall c') as (cn' & Hcn' & Hname'); [by right|].
    exists cn'. split; [|done]. unfold h1. rewrite list_lookup_insert_ne; [done|].
    intros ->. done.
Qed.

(** X14: when every child of the node has one of the names,
    [remove_nodes_by_name] removes them all; the node, left without
    children, is then taken from the children of its parent, and where it
    has no parent, as the root of a tree, the call raises
    [AttributeError]. *)
Theorem remove_nodes_by_name_all h r n names :
  h !! r = Some n → Tree.children n ≠ [] → r ∉ Tree.children n →
  (∀ c, c ∈ Tree.children n → ∃ cn, h !! c = Some cn ∧ Tree.name cn ∈ names) →
  (Tree.parent n = None →
     remove_nodes_by_name r names h = Raise AttributeError) ∧
  (∀ p pn, Tree.parent n = Some p → p ≠ r → h !! p = Some pn →
     r ∈ Tree.children pn →
     ∃ cs, list_remove (Tree.children pn) r = Some cs ∧
       remove_nodes_by_name r names h
       = Ok (tt, <[p := set_children cs pn]> (<[r := set_children [] n]> h))).
Proof.
  intros Hn Hne Hr Hall. unfold remove_nodes_by_name.
  cbn [remove_nodes_by_name_rec].
  rewrite (bind_ok _ _ _ _ _ (get_ok _ _ _ Hn)).
  rewrite (bind_ok _ _ _ _ _
             (for_each_remove_all _ r names h n Hn eq_refl Hr Hall _)).
  rewrite bool_decide_false by by destruct (Tree.children n).
  assert (<[r := set_children [] n]> h !! r = Some (set_children [] n)) as Hr'.
  { apply list_lookup_insert_eq. by eapply lookup_lt_Some. }
  rewrite (bind_ok _ _ _ _ _ (get_ok _ _ _ Hr')). cbn [set_children Tree.children].
  split.
  - intros Hp. simpl. by rewrite Hp.
  - intros p pn Hp Hpr Hpn Hin. simpl Tree.parent. rewrite Hp.
    assert (∃ cs, list_remove (Tree.children pn) r = Some cs) as [cs Hcs].
    { clear -Hin. induction (Tree.children pn) as [|y l IH];
        [by apply elem_of_nil in Hin|].
      simpl. case_decide; [eauto|].
      apply elem_of_cons in Hin as [->|Hin]; [done|].
      destruct (IH Hin) as [cs ->]. simpl. eauto. }
    exists cs. split; [done|].
    assert (<[r := set_children [] n]> h !! p = Some pn) as Hpn'.
    { by rewrite list_lookup_insert_ne. }
    rewrite (bind_ok _ _ _ p _ (lift_ok _ p _ eq_refl)).
    rewrite (bind_ok _ _ _ _ _ (get_ok _ _ _ Hpn')).
    rewrite (bind_ok _ _ _ cs _ (lift_ok _ cs _ (f_equal _ Hcs))).
    by rewrite (modify_ok _ _ _ _ Hpn').
Qed.

(** *** [parse_attributes] *)

Lemma dict_set_nonempty (d : dict) k v : dict_set d k v ≠ [].
Proof. destruct d as [|[k' v'] d]; simpl; [done|]. by case_decide. Qed.

Lemma parse_attributes_loop_ok fuel (attrs : dict) (k s : str) :
  length s < fuel →
  ∃ attrs' k' s', parse_attributes_loop fuel attrs k s = Ok (attrs', k', s') ∧
    s' `suffix_of` s.
Proof.
  revert attrs k s. induction fuel as [|f IH]; intros attrs k s Hlen; [lia|].
  simpl. case_bool_decide as Hlt.
  - unfold str_partition.
    destruct (str_rpartition (take (find s "=") s) ",") as [v1 k2].
    destruct (IH (dict_set attrs k (parse_value v1)) k2 (drop (S (find s "=")) s))
      as (attrs' & k' & s' & Hrun & Hsuf).
    { rewrite length_drop. pose proof (find_le s "]"). lia. }
    exists attrs', k', s'. split; [done|].
    etrans; [done|]. apply suffix_drop.
  - by exists attrs, k, s.
Qed.

Lemma parse_attributes_returns (s : str) :
  ∃ attrs rest, parse_attributes s = Ok (attrs, rest) ∧
    rest `suffix_of` s ∧
    (startswith s (lit "[&") = false → attrs = [] ∧ rest = s) ∧
    (startswith s (lit "[&") = true →
       attrs ≠ [] ∧ length rest + 2 ≤ length s).
Proof.
  unfold parse_attributes. destruct (startswith s (lit "[&")) eqn:Hstart;
    cbn [negb].
  2:{ exists [], s. done. }
  unfold str_partition at 1. cbv beta iota zeta.
  destruct (parse_attributes_loop_ok
              (S (length (drop (S (find (drop 2 s) "=")) (drop 2 s)))) []
              (take (find (drop 2 s) "=") (drop 2 s))
              (drop (S (find (drop 2 s) "=")) (drop 2 s)))
    as (attrs' & k' & s' & Hrun & Hsuf); [lia|].
  rewrite Hrun. unfold str_partition. cbn [mbind result_bind].
  eexists _, _. split; [done|].
  assert (drop (S (find s' "]")) s' `suffix_of` drop 2 s) as Hsuf2.
  { etrans; [apply suffix_drop|]. etrans; [done|]. apply suffix_drop. }
  split; [|split; [done|]].
  - etrans; [done|]. apply suffix_drop.
  - intros _. split; [apply dict_set_nonempty|].
    apply suffix_length in Hsuf2. rewrite length_drop in Hsuf2.
    destruct s as [|a [|b s]]; simpl in Hstart |- *; [done| |].
    + by rewrite andb_false_r in Hstart.
    + rewrite length_drop. change (drop 2 (a :: b :: s)) with s in Hsuf2. lia.
Qed.

(** X15: [parse_attributes] returns for every text, with a rest that is
    an end of the text. Unless the text starts with ['[&'] there are no
    attributes and the rest is the text; if it does, there is at least
    one attribute and the rest is shorter by two characters or more. *)
Theorem parse_attributes_total (s : str) :
  ∃ attrs rest, parse_attributes s = Ok (attrs, rest) ∧
    rest `suffix_of` s ∧
    (startswith s (lit "[&") = false → attrs = [] ∧ rest = s) ∧
    (startswith s (lit "[&") = true →
       attrs ≠ [] ∧ length rest + 2 ≤ length s).
Proof. apply parse_attributes_returns. Qed.

Lemma find_app (w r : str) c : c ∉ w → find (w ++ r) c = length w + find r c.
Proof.
  induction w as [|a w IH]; simpl; [done|].
  intros [Hne Hw]%not_elem_of_cons.
  rewrite bool_decide_false by done. by rewrite IH.
Qed.

Lemma str_partition_app (w r : str) c :
  c ∉ w → str_partition (w ++ c :: r) c = (w, r).
Proof.
  intros Hw. unfold str_partition. rewrite find_app_cons by done.
  rewrite take_app_length. f_equal.
  replace (S (length w)) with (length w + 1) by lia.
  by rewrite <- drop_drop, drop_app_length.
Qed.

Lemma str_rpartition_app (v k : str) c :
  c ∉ k → str_rpartition (v ++ c :: k) c = (v, k).
Proof.
  intros Hk. induction v as [|a v IH]; simpl.
  - unfold contains. rewrite bool_decide_false by done.
    by rewrite bool_decide_true.
  - unfold contains. rewrite bool_decide_true by set_solver. by rewrite IH.
Qed.

(** The text of the pairs after the first one. *)
Lemma str_join_items (w : str) ws :
  str_join (lit ",") (w :: ws) = w ++ concat ((λ x, "," :: x) <$> ws).
Proof.
  revert w. induction ws as [|w2 ws IH]; intros w.
  - simpl. by rewrite app_nil_r.
  - rewrite str_join_cons, IH. done.
Qed.

Lemma parse_attributes_loop_items (kvs : dict) fuel (attrs : dict) k1 v1
    (rest : str) :
  length kvs < fuel →
  "=" ∉ str_of_value v1 → "]" ∉ str_of_value v1 →
  Forall key_ok kvs.*1 → Forall value_ok kvs.*2 →
  (x ← parse_attributes_loop fuel attrs k1
         (str_of_value v1
          ++ concat ((λ kv, "," :: kv.1 ++ lit "=" ++ str_of_value kv.2) <$> kvs)
          ++ "]" :: rest);
   let '(attrs, k1, s) := x in
   let '(v1, s) := str_partition s "]" in
   Ok (dict_set attrs k1 (parse_value v1), s))
  = Ok (foldl (λ d kv, dict_set d kv.1 (parse_value (str_of_value kv.2)))
          attrs ((k1, v1) :: kvs), rest).
Proof.
  revert fuel attrs k1 v1.
  induction kvs as [|[k2 v2] kvs IH]; intros fuel attrs k1 v1 Hfuel He Hb Hks Hvs.
  - destruct fuel as [|f]; [lia|]. cbn [fmap list_fmap concat app].
    cbn [parse_attributes_loop].
    rewrite (find_app _ _ "=") by done. rewrite find_app_cons by done.
    cbn [find]. rewrite (bool_decide_false ("]" = "=")) by done.
    rewrite bool_decide_false by lia. cbn [mbind result_bind].
    by rewrite str_partition_app.
  - destruct fuel as [|f]; [simpl in Hfuel; lia|].
    rewrite fmap_cons in Hks. rewrite fmap_cons in Hvs.
    apply Forall_cons in Hks as [(Hk2e & Hk2b & Hk2c) Hks].
    apply Forall_cons in Hvs as [(Hv2e & Hv2b & Hv2p) Hvs].
    cbn [fst snd] in Hk2e, Hk2b, Hk2c, Hv2e, Hv2b, Hv2p.
    rewrite fmap_cons. cbn [concat fst snd].
    match goal with
    | |- context [concat (?G <$> kvs)] => set (tl := concat (G <$> kvs)) in *
    end.
    assert (str_of_value v1
            ++ (("," :: k2 ++ lit "=" ++ str_of_value v2) ++ tl)
            ++ "]" :: rest
            = (str_of_value v1 ++ "," :: k2)
              ++ "=" :: (str_of_value v2 ++ tl ++ "]" :: rest))
      as ->.
    { simpl. by rewrite <- !app_assoc. }
    assert ("=" ∉ str_of_value v1 ++ "," :: k2) as Hwe.
    { rewrite elem_of_app, elem_of_cons. intros [?|[?|?]]; done. }
    assert ("]" ∉ str_of_value v1 ++ "," :: k2) as Hwb.
    { rewrite elem_of_app, elem_of_cons. intros [?|[?|?]]; done. }
    cbn [parse_attributes_loop].
    rewrite find_app_cons by done. rewrite (find_app _ _ "]") by done.
    cbn [find]. rewrite (bool_decide_false ("=" = "]")) by done.
    rewrite bool_decide_true by lia.
    rewrite str_partition_app by done. rewrite str_rpartition_app by done.
    rewrite IH; [done|simpl in Hfuel; lia|done..].
Qed.

Lemma foldl_dict_set_fresh (kvs acc : dict) :
  NoDup (acc.*1 ++ kvs.*1) →
  foldl (λ d kv, dict_set d kv.1 kv.2) acc kvs = acc ++ kvs.
Proof.
  revert acc. induction kvs as [|[k v] kvs IH]; intros acc Hnd.
  { by rewrite app_nil_r. }
  simpl. assert (dict_set acc k v = acc ++ [(k, v)]) as ->.
  { assert (k ∉ acc.*1) as Hk.
    { apply NoDup_app in Hnd as (_ & Hdis & _). intros Hin.
      apply (Hdis k Hin). by left. }
    clear -Hk. induction acc as [|[k' v'] acc IHa]; [done|].
    simpl in Hk |- *. apply not_elem_of_cons in Hk as [Hne Hk].
    rewrite decide_False by done. by rewrite IHa. }
  rewrite IH.
  - by rewrite <- app_assoc.
  - rewrite fmap_app. simpl. by rewrite <- app_assoc.
Qed.

Lemma map_fmap {A B} (f : A → B) l : map f l = f <$> l.
Proof. induction l as [|x l IH]; [done|]. simpl. by rewrite IH. Qed.

Lemma result_bind_ext {A B} (m : result A) (f g : A → result B) :
  (∀ a, f a = g a) → m ≫= f = m ≫= g.
Proof. intros Hfg. destruct m as [a|e]; [apply Hfg|done]. Qed.

Lemma foldl_parse_value (kvs acc : dict) :
  Forall value_ok kvs.*2 →
  foldl (λ (d : dict) kv, dict_set d kv.1 (parse_value (str_of_value kv.2)))
    acc kvs
  = foldl (λ (d : dict) kv, dict_set d kv.1 kv.2) acc kvs.
Proof.
  revert acc. induction kvs as [|[k v] kvs IH]; intros acc Hall; [done|].
  rewrite fmap_cons in Hall. apply Forall_cons in Hall as [(_ & _ & Hv) Hall].
  cbn [foldl fst snd] in *. rewrite Hv. by apply IH.
Qed.

Lemma parse_attributes_attr_str (kvs : dict) (rest : str) :
  kvs ≠ [] → attrs_ok kvs →
  parse_attributes (attr_str kvs ++ rest) = Ok (kvs, rest).
Proof.
  intros Hne (Hnd & Hks & Hvs). destruct kvs as [|[k1 v1] kvs]; [done|].
  pose proof Hvs as Hvs'.
  rewrite fmap_cons in Hks. rewrite fmap_cons in Hvs.
  apply Forall_cons in Hks as [(Hk1e & Hk1b & Hk1c) Hks].
  apply Forall_cons in Hvs as [(Hv1e & Hv1b & Hv1p) Hvs].
  cbn [fst snd] in Hk1e, Hk1b, Hk1c, Hv1e, Hv1b, Hv1p.
  pose proof (λ fuel, parse_attributes_loop_items kvs fuel [] k1 v1 rest)
    as Hloop.
  match type of Hloop with
  | context [concat ?X] => set (tl := concat X) in *
  end.
  assert (attr_str ((k1, v1) :: kvs) ++ rest
          = "[" :: "&" :: k1 ++ "=" :: (str_of_value v1 ++ tl ++ "]" :: rest))
    as ->.
  { unfold attr_str. rewrite map_fmap, fmap_cons, str_join_items.
    rewrite <- list_fmap_compose. simpl. by rewrite <- !app_assoc. }
  unfold parse_attributes.
  change (startswith ("[" :: "&" :: ?x) (lit "[&")) with true.
  change (negb true) with false. cbv iota.
  change (drop 2 ("[" :: "&" :: ?x)) with x.
  rewrite str_partition_app by done.
  erewrite result_bind_ext; [rewrite Hloop|]; try done.
  - rewrite foldl_parse_value by done.
    rewrite foldl_dict_set_fresh by done. done.
  - rewrite !length_app. assert (length kvs ≤ length tl) as Hle; [|simpl; lia].
    unfold tl. clear. induction kvs as [|kv kvs IH]; [done|].
    rewrite fmap_cons. cbn [concat]. rewrite length_app. cbn [length]. lia.
Qed.

(** X16: [parse_attributes] reads back the attributes that [to_newick]
    writes for a node, whatever follows them in the text, when the keys
    are distinct and hold none of ['='], [']'] and [','], and every value
    has a text without ['='] and [']'] that [parse_value] reads back as
    the value; a value may hold commas, as the polygons of an HPD do. *)
Theorem parse_attributes_to_newick h r n s :
  h !! r = Some n → attrs_ok (Tree.attributes n) →
  to_newick h r true = Ok s →
  ∃ core,
    s = core ++ attr_str (Tree.attributes n)
        ++ lit ":" ++ str_of_num (Tree.length n) ∧
    parse_attributes (attr_str (Tree.attributes n)
                      ++ lit ":" ++ str_of_num (Tree.length n))
    = Ok (Tree.attributes n, lit ":" ++ str_of_num (Tree.length n)).
Proof.
  intros Hn Hok Hrun. unfold to_newick in Hrun. cbn [to_newick_rec] in Hrun.
  unfold node_at in Hrun. rewrite Hn in Hrun. cbn [of_option mbind result_bind] in Hrun.
  match type of Hrun with
  | ?c ≫= _ = _ => destruct c as [core|] eqn:Hcore; [|done]
  end.
  injection Hrun as <-. exists core. split.
  - unfold attr_str. by destruct (Tree.attributes n).
  - destruct (Tree.attributes n) as [|kv kvs] eqn:Hattrs.
    + apply parse_attributes_none.
    + by apply parse_attributes_attr_str.
Qed.

(** *** [parse_tree] on any text *)

Lemma bind_inv {A B} (m : M A) (f : A → M B) h b h2 :
  (m ≫= f) h = Ok (b, h2) → ∃ a h1, m h = Ok (a, h1) ∧ f a h1 = Ok (b, h2).
Proof.
  unfold mbind, M_bind. destruct (m h) as [[a h1]|e]; [|done]. eauto.
Qed.

Lemma lift_inv {A} (r : result A) h a h' :
  lift r h = Ok (a, h') → r = Ok a ∧ h' = h.
Proof. unfold lift. destruct r; [|done]. by intros [= -> ->]. Qed.

Lemma get_inv r h n h' : get r h = Ok (n, h') → h !! r = Some n ∧ h' = h.
Proof. unfold get. destruct (h !! r); [|done]. by intros [= -> ->]. Qed.

Lemma modify_inv r f h h' :
  modify r f h = Ok (tt, h') → ∃ n, h !! r = Some n ∧ h' = <[r := f n]> h.
Proof. unfold modify. destruct (h !! r) as [n|]; [|done]. intros [= <-]. eauto. Qed.

Lemma mret_inv {A} (a b : A) (h h' : heap) :
  (mret a : M A) h = Ok (b, h') → b = a ∧ h' = h.
Proof. by intros [= -> ->]. Qed.

Lemma parse_length_suffix (s : str) l rest :
  parse_length s = Ok (l, rest) → rest `suffix_of` s.
Proof.
  unfold parse_length. destruct (startswith s (lit ";")); [by intros [= _ <-]|].
  destruct (startswith s (lit ":")); simpl; [|done].
  destruct (float _); simpl; [|done]. intros [= _ <-].
  etrans; apply suffix_drop.
Qed.

Lemma location_attributes (n n' : Tree.t) key :
  Tree.attributes n' = Tree.attributes n →
  get_location_from_attributes n' key = get_location_from_attributes n key.
Proof.
  intros Heq. unfold get_location_from_attributes, getitem. by rewrite Heq.
Qed.

Lemma node_parsed_fields key swap wa (n n' : Tree.t) :
  Tree.attributes n' = Tree.attributes n →
  Tree._location n' = Tree._location n →
  Tree.alignment n' = Tree.alignment n →
  node_parsed key swap wa n → node_parsed key swap wa n'.
Proof.
  intros Ha Hl Hal (H1 & H2 & loc & H3 & H4 & H5).
  split; [congruence|]. split; [intros ?; rewrite Ha; auto|].
  exists loc. rewrite (location_attributes n n') by done.
  split; [done|]. split; [congruence|done].
Qed.

Lemma parsed_frame key swap wa h0 h1 h2 t :
  parsed key swap wa h0 h1 t →
  (∀ x, x < length h1 → h2 !! x = h1 !! x) → length h1 ≤ length h2 →
  parsed key swap wa h0 h2 t.
Proof.
  intros (Hold & Hs & Hnd & Hr & Hp & Hn) Hfr Hlen.
  assert (∀ x, x ∈ refs t → h2 !! x = h1 !! x) as Hsame.
  { intros x Hx. apply Hfr. rewrite Forall_forall in Hr. apply Hr in Hx. lia. }
  split; [|split; [|split; [done|split; [|split]]]].
  - intros x Hx. rewrite Hfr; [by apply Hold|].
    rewrite Forall_forall in Hr. pose proof (Hr _ (root_in_refs t)). lia.
  - apply (shape_ext h1); [|done]. intros x n Hx Hxn. exists n.
    by rewrite Hsame.
  - eapply Forall_impl; [done|]. simpl. lia.
  - apply (parents_ok_ext h1); [|done]. intros x n Hx Hxn. exists n.
    rewrite Hsame; [done|by apply elem_of_tail].
  - intros x n Hx Hxn. apply (Hn x); [done|]. by rewrite <- Hsame.
Qed.

Lemma build_node_inv name rs (s : str) key swap wa h1 r rest h2 :
  Forall (λ c, c < length h1) rs →
  build_node name rs s key swap wa h1 = Ok ((r, rest), h2) →
  r = length h1 ∧ length h2 = S (length h1) ∧
  (∃ n, h2 !! r = Some n ∧ Tree.name n = name ∧ Tree.children n = rs ∧
     Tree.parent n = None ∧ node_parsed key swap wa n) ∧
  (∀ y, y < length h1 → y ∉ rs → h2 !! y = h1 !! y) ∧
  (∀ y, y ∈ rs → h2 !! y = set_parent (Some (length h1)) <$> h1 !! y) ∧
  rest `suffix_of` s.
Proof.
  intros Hrs Hrun. unfold build_node in Hrun.
  apply bind_inv in Hrun as ([attrs s1] & ha & Hattrs & Hrun).
  assert (ha = h1 ∧ s1 `suffix_of` s ∧ (wa = false → attrs = []))
    as (-> & Hs1 & Hwa).
  { destruct wa.
    - apply lift_inv in Hattrs as [Hpa ->].
      destruct (parse_attributes_returns s) as (a' & r' & Hpa' & Hsuf & _).
      rewrite Hpa' in Hpa. injection Hpa as -> ->. done.
    - apply mret_inv in Hattrs as [[= -> ->] ->]. done. }
  apply bind_inv in Hrun as ([len s2] & hb & Hlen & Hrun).
  apply lift_inv in Hlen as [Hlen ->].
  apply parse_length_suffix in Hlen as Hs2.
  apply bind_inv in Hrun as (tree & hc & Hinit & Hrun).
  destruct (Tree_init_ok len name rs None attrs None [] h1 Hrs)
    as (hc' & Hinit' & Hlc & Hnew & Hold & Hch).
  rewrite Hinit' in Hinit. injection Hinit as <- <-.
  apply bind_inv in Hrun as (n0 & hd & Hget & Hrun).
  apply get_inv in Hget as [Hn0 ->]. rewrite Hnew in Hn0. injection Hn0 as <-.
  apply bind_inv in Hrun as (loc & he & Hloc & Hrun).
  apply lift_inv in Hloc as [Hloc ->].
  apply bind_inv in Hrun as ([] & hf & Hmod & Hrun).
  apply modify_inv in Hmod as (n1 & Hn1 & ->).
  rewrite Hnew in Hn1. injection Hn1 as <-.
  apply bind_inv in Hrun as ([] & hg & Hswap & Hret).
  apply mret_inv in Hret as [[= -> ->] ->].
  set (node := Tree.Node len name rs None attrs None [0%Z]) in *.
  set (hf := <[length h1 := set_location loc node]> hc') in *.
  assert (hf !! length h1 = Some (set_location loc node)) as Hf.
  { apply list_lookup_insert_eq. lia. }
  assert (∃ n, hg = <[length h1 := n]> hf ∧ Tree.name n = name ∧
            Tree.children n = rs ∧ Tree.parent n = None ∧
            node_parsed key swap wa n) as (n & -> & Hname & Hcs & Hpar & Hnp).
  { destruct swap.
    - apply bind_inv in Hswap as (n2 & hh & Hget & Hswap).
      apply get_inv in Hget as [Hn2 ->]. rewrite Hf in Hn2. injection Hn2 as <-.
      cbn [set_location Tree._location] in Hswap.
      destruct loc as [[x y]|]; [|done].
      apply modify_inv in Hswap as (n3 & Hn3 & ->).
      rewrite Hf in Hn3. injection Hn3 as <-.
      eexists. split; [done|]. do 3 (split; [done|]).
      split; [done|]. split; [done|]. exists (Some (x, y)).
      split; [|done]. rewrite <- Hloc. by apply location_attributes.
    - apply mret_inv in Hswap as [_ ->].
      exists (set_location loc node). split; [by rewrite list_insert_id|].
      do 3 (split; [done|]). split; [done|]. split; [done|]. exists loc.
      split; [|done]. rewrite <- Hloc. by apply location_attributes. }
  split; [done|]. split; [by unfold hf; rewrite !length_insert|].
  split.
  { exists n. split; [|done]. apply list_lookup_insert_eq.
    unfold hf. rewrite length_insert. lia. }
  split; [|split; [|by etrans]].
  - intros y Hy Hyrs. unfold hf. rewrite !list_lookup_insert_ne by lia.
    by apply Hold.
  - intros y Hy. rewrite Forall_forall in Hrs. pose proof (Hrs y Hy).
    unfold hf. rewrite !list_lookup_insert_ne by lia. by apply Hch.
Qed.

Lemma children_loop_parsed key swap wa (P : str → M (ref * str)) :
  (∀ s h r rest h', P s h = Ok ((r, rest), h') →
     ∃ t, root t = r ∧ parsed key swap wa h h' t ∧ rest `suffix_of` s) →
  ∀ k (s : str) acc h0 children s1 h1,
  children_loop P k s acc h0 = Ok ((children, s1), h1) →
  ∃ cs, children = acc ++ (root <$> cs) ∧
    (∀ x, x < length h0 → h1 !! x = h0 !! x) ∧ length h0 ≤ length h1 ∧
    Forall (shape h1) cs ∧ NoDup (concat (refs <$> cs)) ∧
    Forall (λ x, length h0 ≤ x < length h1) (concat (refs <$> cs)) ∧
    Forall (parents_ok h1) cs ∧
    (∀ x n, x ∈ concat (refs <$> cs) → h1 !! x = Some n →
       node_parsed key swap wa n) ∧
    s1 `suffix_of` s.
Proof.
  intros HP. induction k as [|k IH]; intros s acc h0 children s1 h1 Hrun;
    [done|].
  rewrite children_loop_step in Hrun.
  destruct (startswith s (lit "(") || startswith s (lit ",")).
  2:{ apply mret_inv in Hrun as [[= -> ->] ->]. exists [].
      rewrite app_nil_r. csimpl. split; [done|]. split; [done|].
      split; [done|]. do 4 (split; [constructor|]).
      split; [by intros ?? ?%elem_of_nil|done]. }
  apply bind_inv in Hrun as ([child s'] & ha & Hchild & Hrun).
  destruct (HP _ _ _ _ _ Hchild) as (t & <- & Ht & Hs').
  destruct (IH _ _ _ _ _ _ Hrun)
    as (cs & -> & Hfr & Hlen & Hsh & Hnd & Hrg & Hpa & Hnp & Hs1).
  pose proof (parsed_frame _ _ _ _ _ _ _ Ht Hfr Hlen)
    as (Hold & Hts & Htnd & Htr & Htp & Htn).
  destruct Ht as (Hold0 & _ & _ & Htr0 & _).
  assert (length h0 ≤ length ha) as Hle0.
  { destruct t as [r0 cs0]. apply Forall_cons in Htr0 as [? _]. lia. }
  exists (t :: cs). split; [by rewrite <- app_assoc|].
  split; [done|]. split; [lia|]. split; [by constructor|].
  split.
  { csimpl. apply NoDup_app3; [done|done|]. intros x Hx Hx'.
    rewrite Forall_forall in Htr0, Hrg. apply Htr0 in Hx. apply Hrg in Hx'. lia. }
  split.
  { csimpl. apply Forall_app. split; [done|].
    eapply Forall_impl; [done|]. simpl. lia. }
  split; [by constructor|]. split.
  { intros x n. csimpl. rewrite elem_of_app. intros [Hx|Hx]; eauto. }
  etrans; [done|]. etrans; [done|]. apply suffix_drop.
Qed.

Lemma parse_tree_rec_parsed key swap wa f :
  ∀ (s : str) h0 r rest h0',
  parse_tree_rec f s key swap wa h0 = Ok ((r, rest), h0') →
  ∃ t, root t = r ∧ parsed key swap wa h0 h0' t ∧ rest `suffix_of` s ∧
    r = length h0' - 1 ∧ ∃ n, h0' !! r = Some n ∧ Tree.parent n = None.
Proof.
  induction f as [|f IH]; intros s h0 r rest h0' Hrun; [done|].
  cbn [parse_tree_rec] in Hrun.
  apply bind_inv in Hrun as ([[name children] s2] & h1 & Hpre & Hbuild).
  assert (∃ cs, children = root <$> cs ∧
    (∀ x, x < length h0 → h1 !! x = h0 !! x) ∧ length h0 ≤ length h1 ∧
    Forall (shape h1) cs ∧ NoDup (concat (refs <$> cs)) ∧
    Forall (λ x, length h0 ≤ x < length h1) (concat (refs <$> cs)) ∧
    Forall (parents_ok h1) cs ∧
    (∀ x n, x ∈ concat (refs <$> cs) → h1 !! x = Some n →
       node_parsed key swap wa n) ∧
    s2 `suffix_of` s)
    as (cs & -> & Hfr & Hlen & Hsh & Hnd & Hrg & Hpa & Hnp & Hs2).
  { destruct (startswith s (lit "(")).
    - apply bind_inv in Hpre as ([children' s1] & ha & Hloop & Hpre).
      apply (children_loop_parsed key swap wa) in Hloop
        as (cs & -> & Hfr & Hlen & Hsh & Hnd & Hrg & Hpa & Hnp & Hs1).
      2:{ intros s' h r' rest' h' Hp.
          destruct (IH _ _ _ _ _ Hp) as (t & ? & ? & ? & _). eauto. }
      destruct (startswith s1 (lit ")")); [|done]. cbn [negb] in Hpre.
      assert (children = root <$> cs ∧ h1 = ha ∧ s2 `suffix_of` drop 1 s1)
        as (-> & -> & Hs2).
      { destruct (drop 1 s1) as [|c rest1]; [done|].
        destruct (contains (lit ":[);") c).
        - apply mret_inv in Hpre as [[= -> -> ->] ->]. done.
        - apply mret_inv in Hpre as [[= -> -> ->] ->].
          split; [done|]. split; [done|]. apply suffix_drop. }
      exists cs. do 8 (split; [done|]).
      etrans; [done|]. etrans; [apply suffix_drop|done].
    - apply mret_inv in Hpre as [[= -> -> ->] ->]. exists [].
      csimpl. split; [done|]. split; [done|].
      split; [done|]. do 4 (split; [constructor|]).
      split; [by intros ?? ?%elem_of_nil|apply suffix_drop]. }
  assert (Forall (λ c, c < length h1) (root <$> cs)) as Hroots.
  { apply Forall_fmap, Forall_forall. intros c Hc.
    rewrite Forall_forall in Hrg.
    destruct (Hrg (root c)); [|done].
    apply (refs_subtree c); [done|apply root_in_refs]. }
  destruct (build_node_inv _ _ _ _ _ _ _ _ _ _ Hroots Hbuild)
    as (-> & Hlen' & (n & Hn & Hname & Hcs & Hpar & Hnode) & Hold & Hch & Hrest).
  assert (∀ x, x ∈ concat (refs <$> cs) → x < length h1) as Hlt.
  { intros x Hx. rewrite Forall_forall in Hrg. by destruct (Hrg x Hx). }
  assert (∀ c x, c ∈ cs → x ∈ refs c → x ∈ concat (refs <$> cs)) as Hin.
  { intros c x Hc Hx. by apply (refs_subtree c). }
  exists (RT (length h1) cs). split; [done|]. split; [|split; [by etrans|]].
  2:{ split; [lia|]. eauto. }
  split; [|split; [|split; [|split; [|split]]]].
  - intros x Hx. rewrite Hold; [by apply Hfr|lia|].
    intros Hxr. rewrite Forall_forall in Hrg.
    apply list_elem_of_fmap in Hxr as (c & -> & Hc).
    destruct (Hrg (root c)); [|lia].
    apply (Hin c); [done|apply root_in_refs].
  - eapply shape_node; [exact Hn|done|]. rewrite Forall_forall in Hsh.
    apply Forall_forall. intros c Hc. apply (shape_ext h1); [|by apply Hsh].
    intros x nx Hx Hnx. destruct (decide (x ∈ root <$> cs)) as [Hr|Hr].
    + rewrite (Hch x Hr), Hnx. simpl. eexists. split; [done|]. done.
    + exists nx. split; [|done]. rewrite Hold; [done| |done].
      apply Hlt. by apply (Hin c).
  - cbn [refs]. apply NoDup_cons. split; [|done].
    intros Hx%Hlt. lia.
  - cbn [refs]. constructor; [lia|]. eapply Forall_impl; [done|]. simpl. lia.
  - rewrite Forall_forall in Hpa, Hsh. constructor.
    + apply Forall_forall. intros c Hc.
      destruct (shape_lookup _ _ (Hsh c Hc)) as (nc & Hnc & _).
      rewrite (Hch (root c)) by by apply list_elem_of_fmap_2.
      rewrite Hnc. simpl. eexists. split; [done|]. done.
    + apply Forall_forall. intros c Hc.
      apply (parents_ok_ext h1); [|by apply Hpa].
      intros x nx Hx Hnx. exists nx. split; [|done].
      rewrite Hold; [done| |].
      * apply Hlt, (Hin c); [done|by apply elem_of_tail].
      * by apply (tail_not_root cs c).
  - intros x nx. cbn [refs]. intros [->|Hx]%elem_of_cons Hnx.
    + by assert (nx = n) as -> by congruence.
    + destruct (decide (x ∈ root <$> cs)) as [Hr|Hr].
      * rewrite (Hch x Hr) in Hnx.
        destruct (h1 !! x) as [n1|] eqn:Hn1; [|done]. injection Hnx as <-.
        apply (node_parsed_fields _ _ _ n1); [done..|]. by apply (Hnp x).
      * rewrite Hold in Hnx; [by apply (Hnp x)|by apply Hlt|done].
Qed.


Lemma build_node_swap_no_attributes name rs (s : str) key h1 x :
  Forall (λ c, c < length h1) rs →
  build_node name rs s key false false h1 = Ok x →
  build_node name rs s key true false h1 = Raise TypeError.
Proof.
  intros Hrs Hrun. destruct x as [[r rest] h2]. unfold build_node in *.
  apply bind_inv in Hrun as ([attrs s1] & ha & Hattrs & Hrun).
  apply mret_inv in Hattrs as [[= -> ->] ->].
  apply bind_inv in Hrun as ([len s2] & hb & Hlen & Hrun).
  apply lift_inv in Hlen as [Hlen ->].
  rewrite (bind_ok _ _ _ (([] : dict), s) h1 eq_refl). cbv beta iota.
  rewrite (bind_ok _ _ _ (len, s2) h1 (lift_ok _ _ _ Hlen)). cbv beta iota.
  destruct (Tree_init_ok len name rs None [] None [] h1 Hrs)
    as (hc & Hinit & Hlc & Hnew & Hold & Hch).
  rewrite (bind_ok _ _ _ _ _ Hinit).
  rewrite (bind_ok _ _ _ _ _ (get_ok _ _ _ Hnew)).
  rewrite location_no_attributes by done.
  rewrite (bind_ok _ _ _ None hc eq_refl).
  rewrite (bind_ok _ _ _ _ _ (modify_ok _ _ _ _ Hnew)).
  assert (<[length h1 := set_location None
                           (Tree.Node len name rs None [] None [0%Z])]> hc
          !! length h1
          = Some (set_location None (Tree.Node len name rs None [] None [0%Z])))
    as Hf.
  { apply list_lookup_insert_eq. lia. }
  unfold mbind at 1, M_bind at 1.
  by rewrite (bind_ok _ _ _ _ _ (get_ok _ _ _ Hf)).
Qed.

Lemma bind_raise {A B} (m : M A) (f : A → M B) h e :
  m h = Raise e → (m ≫= f) h = Raise e.
Proof. unfold mbind, M_bind. by intros ->. Qed.

Lemma parse_tree_rec_swap_no_attributes key f :
  ∀ (s : str) h0 x,
  parse_tree_rec f s key false false h0 = Ok x →
  parse_tree_rec f s key true false h0 = Raise TypeError.
Proof.
  induction f as [|f IH]; intros s h0 x Hrun; [done|].
  destruct x as [[r rest] h0']. cbn [parse_tree_rec] in *.
  apply bind_inv in Hrun as ([[name children] s2] & h1 & Hpre & Hbuild).
  destruct (startswith s (lit "(")) eqn:Hstart.
  - apply bind_raise. apply bind_raise.
    apply bind_inv in Hpre as ([children' s1] & ha & Hloop & _).
    destruct f as [|k]; [done|].
    rewrite children_loop_step in Hloop |- *.
    assert (startswith s (lit "(") || startswith s (lit ",") = true) as Hor
      by by rewrite Hstart.
    rewrite Hor in Hloop |- *.
    apply bind_inv in Hloop as ([child s'] & hb & Hchild & _).
    apply bind_raise. by eapply IH.
  - apply mret_inv in Hpre as [[= -> -> ->] ->].
    rewrite (bind_ok _ _ _ (take (name_stop s false) s, ([] : list ref),
                            drop (name_stop s false) s) h0 eq_refl).
    cbv beta iota. by eapply build_node_swap_no_attributes.
Qed.

(** X18: with [swap_xy] and without attributes ([with_attributes=False])
    [parse_tree] never returns a tree: a node then has no location, whose
    axes cannot be exchanged. A text that is parsed without [swap_xy]
    raises [TypeError] with it. *)
Theorem parse_tree_swap_no_attributes (s : str) key h0 :
  (∀ x, parse_tree s key true false h0 ≠ Ok x) ∧
  (∀ x, parse_tree s key false false h0 = Ok x →
     parse_tree s key true false h0 = Raise TypeError).
Proof.
  split.
  - intros [[r rest] h0'] Hrun.
    destruct (parse_tree_rec_parsed _ _ _ _ _ _ _ _ _ Hrun)
      as (t & <- & (_ & _ & _ & _ & _ & Hnode) & _ & _ & n & Hn & _).
    destruct (Hnode (root t) n (root_in_refs t) Hn)
      as (_ & Hattrs & loc & Hloc & _ & Hsome).
    rewrite location_no_attributes in Hloc by auto.
    injection Hloc as <-. by apply Hsome.
  - intros x. apply parse_tree_rec_swap_no_attributes.
Qed.

(** *** [remove_nodes_by_name]: the subtrees it removes *)

Lemma prune_filter (keep : ref → bool) (cs : list rtree) :
  omap (λ c, if keep (root c) then Some (prune keep c) else None) cs
  = prune keep <$> filter (λ c, keep (root c) = true) cs.
Proof.
  induction cs as [|c cs IH]; [done|]. rewrite filter_cons.
  change (omap ?f (c :: cs))
    with (match f c with Some y => y :: omap f cs | None => omap f cs end).
  cbv beta. destruct (keep (root c)) eqn:Hk.
  - rewrite decide_True by done. rewrite fmap_cons. by rewrite IH.
  - rewrite decide_False by done. by rewrite IH.
Qed.

Lemma root_prune keep t : root (prune keep t) = root t.
Proof. by destruct t. Qed.

Lemma prune_subtrees keep r cs :
  prune keep (RT r cs)
  = RT r (prune keep <$> filter (λ c, keep (root c) = true) cs).
Proof. simpl. by rewrite prune_filter. Qed.

Lemma prune_refs keep t x : x ∈ refs (prune keep t) → x ∈ refs t.
Proof.
  induction t as [r cs IH] using rtree_ind'. rewrite prune_subtrees.
  cbn [refs]. rewrite !elem_of_cons. intros [->|Hx]; [by left|]. right.
  apply elem_of_concat in Hx as (l & Hx & Hl).
  apply list_elem_of_fmap in Hl as (c' & -> & Hc').
  apply list_elem_of_fmap in Hc' as (c & -> & Hc).
  apply list_elem_of_filter in Hc as [_ Hc].
  rewrite Forall_forall in IH. apply (refs_subtree c); [done|]. by apply IH.
Qed.

Lemma pruned_lookup keep X (h : heap) x :
  pruned keep X h !! x
  = (λ n, if bool_decide (x ∈ X)
          then set_children (filter (λ c, keep c = true) (Tree.children n)) n
          else n) <$> h !! x.
Proof. unfold pruned. by rewrite list_lookup_imap. Qed.

Lemma pruned_lookup_out keep X (h : heap) x :
  x ∉ X → pruned keep X h !! x = h !! x.
Proof.
  intros Hx. rewrite pruned_lookup, bool_decide_false by done.
  by destruct (h !! x).
Qed.

Lemma list_remove_app (l1 l2 : list ref) x :
  x ∉ l1 → list_remove (l1 ++ x :: l2) x = Some (l1 ++ l2).
Proof.
  induction l1 as [|y l1 IH]; simpl.
  - intros _. by rewrite decide_True.
  - intros [Hne Hx]%not_elem_of_cons. rewrite decide_False by done.
    by rewrite IH.
Qed.

Lemma filter_root (keep : ref → bool) (cs : list rtree) :
  filter (λ c, keep c = true) (root <$> cs)
  = root <$> filter (λ c, keep (root c) = true) cs.
Proof.
  induction cs as [|c cs IH]; [done|]. rewrite fmap_cons, !filter_cons.
  destruct (keep (root c)) eqn:Hk.
  - rewrite !decide_True by done. rewrite fmap_cons. by rewrite IH.
  - rewrite !decide_False by done. done.
Qed.

Lemma prunable_child keep r cs c :
  prunable keep (RT r cs) → c ∈ cs → keep (root c) = true → prunable keep c.
Proof.
  intros [_ Hcs] Hc Hk. induction cs as [|c' cs IH]; [by apply elem_of_nil in Hc|].
  destruct Hcs as [Hc' Hcs]. apply elem_of_cons in Hc as [->|Hc]; auto.
Qed.

Lemma set_children_twice a b (n : Tree.t) :
  set_children a (set_children b n) = set_children a n.
Proof. done. Qed.

Lemma set_children_same (n : Tree.t) cs :
  Tree.children n = cs → set_children cs n = n.
Proof. intros <-. by destruct n. Qed.

Lemma remove_loop (keep : ref → bool) (names : list str) (g : ref → M unit)
    r nr0 (h0 : heap) cs :
  NoDup (r :: concat (refs <$> cs)) →
  Forall (shape h0) cs →
  (∀ x n, x ∈ concat (refs <$> cs) → h0 !! x = Some n →
     bool_decide (Tree.name n ∈ names) = negb (keep x)) →
  (∀ c hi, c ∈ cs → keep (root c) = true →
     (∀ x, x ∈ refs c → hi !! x = h0 !! x) →
     g (root c) hi = Ok (tt, pruned keep (refs (prune keep c)) hi)) →
  ∀ q p hi, cs = p ++ q →
    hi !! r
    = Some (set_children
              ((root <$> filter (λ c, keep (root c) = true) p) ++ (root <$> q))
              nr0) →
    (∀ x, x ≠ r →
       hi !! x
       = pruned keep
           (concat (refs <$> (prune keep
                               <$> filter (λ c, keep (root c) = true) p)))
           h0 !! x) →
    ∃ hL,
      for_each (root <$> q) (λ c,
        cn ← get c;
        if bool_decide (Tree.name cn ∈ names) then
          s ← get r;
          cs ← lift (of_option ValueError (list_remove (Tree.children s) c));
          modify r (set_children cs)
        else g c) hi = Ok (tt, hL) ∧
      hL !! r
      = Some (set_children
                (root <$> filter (λ c, keep (root c) = true) cs) nr0) ∧
      (∀ x, x ≠ r →
         hL !! x
         = pruned keep
             (concat (refs <$> (prune keep
                                 <$> filter (λ c, keep (root c) = true) cs)))
             h0 !! x).
Proof.
  intros Hnd Hsh Hco Hg. apply NoDup_cons in Hnd as [Hr Hnd].
  induction q as [|c q IH]; intros p hi Hcs Hir Hio.
  { rewrite app_nil_r in Hcs. subst p. exists hi. split; [done|].
    rewrite fmap_nil, app_nil_r in Hir. done. }
  assert (c ∈ cs) as Hc by (subst cs; set_solver).
  assert (∀ x, x ∈ refs c → x ∈ concat (refs <$> cs)) as Hcin.
  { intros x Hx. by apply (refs_subtree c). }
  assert (∀ x, x ∈ refs c → x ≠ r) as Hcr.
  { intros x Hx ->. by apply Hr, Hcin. }
  set (Xp := concat (refs <$> (prune keep
                                <$> filter (λ c, keep (root c) = true) p))) in *.
  assert (∀ x, x ∈ Xp → x ∈ concat (refs <$> p)) as HXp.
  { intros x (l & Hx & Hl)%elem_of_concat.
    apply list_elem_of_fmap in Hl as (c' & -> & Hc').
    apply list_elem_of_fmap in Hc' as (c0 & -> & Hc0).
    apply list_elem_of_filter in Hc0 as [_ Hc0].
    apply (refs_subtree c0); [done|]. by apply prune_refs in Hx. }
  assert (∀ x, x ∈ refs c → x ∉ Xp) as Hdis.
  { intros x Hx Hx'%HXp. subst cs.
    rewrite fmap_app, concat_app in Hnd. apply NoDup_app in Hnd as (_ & Hd & _).
    apply (Hd x Hx'). csimpl. apply elem_of_app. by left. }
  assert (∀ x, x ∈ refs c → hi !! x = h0 !! x) as Hsame.
  { intros x Hx. rewrite Hio by by apply Hcr.
    apply pruned_lookup_out. by apply Hdis. }
  rewrite Forall_forall in Hsh.
  destruct (shape_lookup _ _ (Hsh c Hc)) as (nc & Hnc & _).
  assert (hi !! root c = Some nc) as Hnc'.
  { rewrite Hsame; [done|apply root_in_refs]. }
  pose proof (Hco (root c) nc (Hcin _ (root_in_refs c)) Hnc) as Hname.
  rewrite fmap_cons. cbn [for_each].
  destruct (keep (root c)) eqn:Hk; simpl in Hname.
  - set (hi' := pruned keep (refs (prune keep c)) hi).
    destruct (IH (p ++ [c]) hi') as (hL & Hrun & HLr & HLo).
    + by rewrite <- app_assoc.
    + unfold hi'. rewrite pruned_lookup_out.
      * rewrite Hir. f_equal. f_equal.
        rewrite filter_app, filter_cons_True by done.
        rewrite filter_nil, fmap_app, <- app_assoc. done.
      * intros Hx%prune_refs. by apply (Hcr r).
    + intros x Hx. unfold hi'. rewrite pruned_lookup, (Hio x Hx).
      rewrite !pruned_lookup. destruct (h0 !! x) as [n|]; [|done]. simpl.
      f_equal. rewrite filter_app, filter_cons_True, filter_nil by done.
      rewrite !fmap_app, concat_app. csimpl. rewrite app_nil_r. fold Xp.
      destruct (decide (x ∈ refs (prune keep c))) as [Hxc|Hxc].
      * rewrite (bool_decide_true (x ∈ refs (prune keep c))) by done.
        rewrite (bool_decide_false (x ∈ Xp))
          by (apply Hdis; by apply prune_refs in Hxc).
        rewrite bool_decide_true by (apply elem_of_app; by right). done.
      * rewrite (bool_decide_false (x ∈ refs (prune keep c))) by done.
        destruct (decide (x ∈ Xp)) as [Hxp|Hxp].
        -- rewrite !bool_decide_true; [done|apply elem_of_app; by left|done].
        -- rewrite !bool_decide_false; [done| |done].
           rewrite elem_of_app. by intros [?|?].
    + exists hL. split; [|done].
      assert ((cn ← get (root c);
               if bool_decide (Tree.name cn ∈ names) then
                 s ← get r;
                 cs ← lift (of_option ValueError
                              (list_remove (Tree.children s) (root c)));
                 modify r (set_children cs)
               else g (root c)) hi = Ok (tt, hi')) as Hstep.
      { rewrite (bind_ok _ _ _ _ _ (get_ok _ _ _ Hnc')). rewrite Hname.
        by apply Hg. }
      by rewrite (bind_ok _ _ _ _ _ Hstep).
  - set (hi' := <[r := set_children
                         ((root <$> filter (λ c, keep (root c) = true) p)
                          ++ (root <$> q)) nr0]> hi).
    destruct (IH (p ++ [c]) hi') as (hL & Hrun & HLr & HLo).
    + by rewrite <- app_assoc.
    + unfold hi'. rewrite list_lookup_insert_eq by by eapply lookup_lt_Some.
      f_equal. f_equal. rewrite filter_app, filter_cons_False by by rewrite Hk.
      by rewrite filter_nil, app_nil_r.
    + intros x Hx. unfold hi'. rewrite list_lookup_insert_ne by done.
      rewrite (Hio x Hx). rewrite filter_app, filter_cons_False by by rewrite Hk.
      by rewrite filter_nil, app_nil_r.
    + exists hL. split; [|done].
      assert ((cn ← get (root c);
               if bool_decide (Tree.name cn ∈ names) then
                 s ← get r;
                 cs ← lift (of_option ValueError
                              (list_remove (Tree.children s) (root c)));
                 modify r (set_children cs)
               else g (root c)) hi = Ok (tt, hi')) as Hstep.
      { rewrite (bind_ok _ _ _ _ _ (get_ok _ _ _ Hnc')). rewrite Hname.
        rewrite (bind_ok _ _ _ _ _ (get_ok _ _ _ Hir)).
        cbn [set_children Tree.children]. rewrite fmap_cons.
        rewrite list_remove_app.
        2:{ intros (c0 & Heq & Hc0)%list_elem_of_fmap.
            apply list_elem_of_filter in Hc0 as [_ Hc0].
            subst cs. rewrite fmap_app, concat_app in Hnd.
            apply NoDup_app in Hnd as (_ & Hd & _).
            apply (Hd (root c)).
            - rewrite Heq. apply (refs_subtree c0); [done|apply root_in_refs].
            - csimpl. apply elem_of_app. left. apply root_in_refs. }
        cbn [of_option]. rewrite (bind_ok _ _ _ _ _ (lift_ok _ _ _ eq_refl)).
        rewrite (modify_ok _ _ _ _ Hir). done. }
      by rewrite (bind_ok _ _ _ _ _ Hstep).
Qed.

Lemma remove_rec_prune (keep : ref → bool) (names : list str) f :
  ∀ t (h0 : heap),
  depth t ≤ f → shape h0 t → NoDup (refs t) →
  (∀ x n, x ∈ refs t → h0 !! x = Some n →
     bool_decide (Tree.name n ∈ names) = negb (keep x)) →
  prunable keep t →
  remove_nodes_by_name_rec f (root t) names h0
  = Ok (tt, pruned keep (refs (prune keep t)) h0).
Proof.
  induction f as [|f IHf]; intros [r cs] h0 Hd Hs Hnd Hco Hpr;
    [simpl in Hd; lia|].
  simpl in Hd. apply le_S_n in Hd.
  destruct (shape_lookup _ _ Hs) as (nr & Hnr & Hcs).
  apply shape_subtrees in Hs as Hsub. cbn [root subtrees] in *.
  cbn [remove_nodes_by_name_rec].
  rewrite (bind_ok _ _ _ _ _ (get_ok _ _ _ Hnr)).
  destruct (remove_loop keep names (λ c, remove_nodes_by_name_rec f c names)
              r nr h0 cs Hnd Hsub) with (q := cs) (p := @nil rtree) (hi := h0)
    as (hL & Hloop & HLr & HLo).
  { intros x n Hx. apply Hco. by right. }
  { intros c hi Hc Hk Hsame. apply IHf.
    - pose proof (depth_subtree _ _ Hc). lia.
    - rewrite Forall_forall in Hsub. apply (shape_ext h0); [|by apply Hsub].
      intros x n Hx Hn. exists n. by rewrite Hsame.
    - cbn [refs] in Hnd. apply NoDup_cons in Hnd as [_ Hnd].
      clear -Hnd Hc. induction cs as [|c' cs IH]; [by apply elem_of_nil in Hc|].
      csimpl in Hnd. apply NoDup_app in Hnd as (? & _ & ?).
      apply elem_of_cons in Hc as [->|Hc]; auto.
    - intros x n Hx Hn. apply Hco; [right; by apply (refs_subtree c)|].
      by rewrite <- Hsame.
    - by apply (prunable_child keep r cs). }
  { done. }
  { rewrite filter_nil, fmap_nil, app_nil_l, Hnr. f_equal.
    symmetry. by apply set_children_same. }
  { intros x _. by rewrite filter_nil, pruned_lookup_out by apply not_elem_of_nil. }
  rewrite Hcs. rewrite (bind_ok _ _ _ _ _ Hloop).
  assert (hL = pruned keep (refs (prune keep (RT r cs))) h0) as <-.
  { apply list_eq. intros x. rewrite prune_subtrees. cbn [refs].
    rewrite pruned_lookup. destruct (decide (x = r)) as [->|Hx].
    - rewrite HLr, Hnr. simpl. rewrite bool_decide_true by by left.
      by rewrite Hcs, filter_root.
    - rewrite (HLo x Hx), pruned_lookup. destruct (h0 !! x) as [n|]; [|done].
      simpl. f_equal.
      destruct (decide (x ∈ concat (refs <$> (prune keep
                   <$> filter (λ c, keep (root c) = true) cs)))) as [Hin|Hout].
      + rewrite !bool_decide_true; [done|by right|done].
      + rewrite !bool_decide_false; [done| |done].
        by intros [?|?]%elem_of_cons. }
  rewrite length_fmap. case_bool_decide as Hleaf; [done|].
  rewrite (bind_ok _ _ _ _ _ (get_ok _ _ _ HLr)).
  cbn [set_children Tree.children].
  destruct Hpr as [[->|Hlen] _]; [done|].
  destruct (filter _ cs) as [|a [|b l]]; simpl in Hlen; try lia. done.
Qed.

Lemma shape_pruned keep X (h : heap) t :
  shape h t → (∀ x, x ∈ refs (prune keep t) → x ∈ X) →
  shape (pruned keep X h) (prune keep t).
Proof.
  induction t as [r cs IH] using rtree_ind'. intros Hs HX.
  destruct (shape_lookup _ _ Hs) as (n & Hn & Hcs).
  apply shape_subtrees in Hs. cbn [root subtrees] in *.
  rewrite prune_subtrees in HX |- *. eapply shape_node.
  - rewrite pruned_lookup, Hn. simpl. rewrite bool_decide_true; [done|].
    apply HX. by left.
  - simpl. rewrite Hcs, filter_root, <- list_fmap_compose.
    apply list_fmap_ext. intros i c _. simpl. by rewrite root_prune.
  - rewrite Forall_forall in IH, Hs. apply Forall_fmap, Forall_forall.
    intros c [Hk Hc]%list_elem_of_filter. simpl. apply IH; [done|by apply Hs|].
    intros x Hx. apply HX. cbn [refs]. right.
    apply elem_of_concat. exists (refs (prune keep c)). split; [done|].
    apply list_elem_of_fmap_2, list_elem_of_fmap_2.
    by apply list_elem_of_filter.
Qed.

Lemma prune_sublist keep t : refs (prune keep t) `sublist_of` refs t.
Proof.
  induction t as [r cs IH] using rtree_ind'. rewrite prune_subtrees.
  cbn [refs]. apply sublist_skip.
  induction IH as [|c cs Hc _ IHcs]; [done|].
  rewrite filter_cons. csimpl. case_decide.
  - csimpl. by apply sublist_app.
  - by apply sublist_inserts_l.
Qed.

Lemma parents_ok_prune keep (h : heap) t :
  parents_ok h t → parents_ok h (prune keep t).
Proof.
  induction t as [r cs IH] using rtree_ind'.
  inversion 1 as [? ? Hpar Hcs]; subst. rewrite prune_subtrees.
  rewrite Forall_forall in IH, Hpar, Hcs. constructor.
  - apply Forall_fmap, Forall_forall.
    intros c [_ Hc]%list_elem_of_filter. simpl. rewrite root_prune. auto.
  - apply Forall_fmap, Forall_forall.
    intros c [_ Hc]%list_elem_of_filter. simpl. auto.
Qed.

Lemma tail_prune_kept keep t x :
  x ∈ tail (refs (prune keep t)) → keep x = true.
Proof.
  induction t as [r cs IH] using rtree_ind'. rewrite prune_subtrees.
  cbn [refs tail]. intros (l & Hx & Hl)%elem_of_concat.
  apply list_elem_of_fmap in Hl as (c' & -> & Hc').
  apply list_elem_of_fmap in Hc' as (c & -> & Hc).
  apply list_elem_of_filter in Hc as [Hk Hc].
  rewrite refs_root_tail in Hx. apply elem_of_cons in Hx as [->|Hx].
  - by rewrite root_prune.
  - rewrite Forall_forall in IH. by apply (IH c).
Qed.

(** X20: on a tree in which the removal leaves no kept node with one
    child or, having had children, without any, [remove_nodes_by_name]
    removes exactly the subtrees whose root has one of the names (the
    node it is called on apart): the result is the tree without them,
    with the parents as they were; every object keeps its data and its
    parent, and a node of the result keeps, in their order, its children
    whose name is not one of the names. *)
Theorem remove_nodes_by_name_prune h t (names : list str) :
  is_tree h t → prunable (kept names h) t →
  ∃ h', remove_nodes_by_name (root t) names h = Ok (tt, h') ∧
    is_tree h' (prune (kept names h) t) ∧
    (parents_ok h t → parents_ok h' (prune (kept names h) t)) ∧
    (∀ x n', x ∈ tail (refs (prune (kept names h) t)) →
       h' !! x = Some n' → Tree.name n' ∉ names) ∧
    (∀ x n, h !! x = Some n →
       ∃ n', h' !! x = Some n' ∧ same_data n n' ∧
         Tree.parent n' = Tree.parent n ∧
         Tree.children n'
         = if bool_decide (x ∈ refs (prune (kept names h) t))
           then filter (λ c, kept names h c = true) (Tree.children n)
           else Tree.children n).
Proof.
  intros Ht Hpr. pose proof (depth_lt_heap _ _ Ht) as Hd.
  destruct Ht as [Hs Hnd].
  exists (pruned (kept names h) (refs (prune (kept names h) t)) h).
  split.
  { unfold remove_nodes_by_name. apply remove_rec_prune; [lia|done..| |done].
    intros x n Hx Hn. unfold kept. rewrite Hn. by rewrite negb_involutive. }
  assert (∀ x n, h !! x = Some n →
    ∃ n', pruned (kept names h) (refs (prune (kept names h) t)) h !! x = Some n' ∧
      same_data n n' ∧ Tree.parent n' = Tree.parent n ∧
      Tree.children n'
      = if bool_decide (x ∈ refs (prune (kept names h) t))
        then filter (λ c, kept names h c = true) (Tree.children n)
        else Tree.children n) as Hobj.
  { intros x n Hn. rewrite pruned_lookup, Hn. simpl. eexists. split; [done|].
    case_bool_decide; [|done]. split; [apply same_data_set_children|done]. }
  split; [split|].
  - by apply shape_pruned.
  - eapply sublist_NoDup; [done|apply prune_sublist].
  - split; [|split; [|done]].
    + intros Hp. apply (parents_ok_ext h); [|by apply parents_ok_prune].
      intros x n _ Hn. destruct (Hobj x n Hn) as (n' & Hn' & _ & Hpar & _).
      eauto.
    + intros x n' Hx Hn'. pose proof (tail_prune_kept _ _ _ Hx) as Hk.
      unfold kept in Hk. destruct (h !! x) as [n|] eqn:Hn; [|done].
      destruct (Hobj x n Hn) as (n'' & Hn'' & Hsd & _).
      assert (n'' = n') as -> by congruence.
      apply same_data_fields in Hsd as (_ & -> & _).
      apply negb_true_iff, bool_decide_eq_false in Hk. done.
Qed.

(** *** [to_newick] with attributes and [parse_tree] *)
















(** *** A text that ends after the last parenthesis *)

Lemma build_node_semicolon name rs (rest : str) key wa h1 :
  Forall (λ c, c < length h1) rs →
  ∃ h2,
    build_node name rs (";" :: rest) key false wa h1
    = Ok ((length h1, ";" :: rest), h2) ∧
    length h2 = S (length h1) ∧
    h2 !! length h1 = Some (Tree.Node num_zero name rs None [] None [0%Z]) ∧
    (∀ y, y < length h1 → y ∉ rs → h2 !! y = h1 !! y) ∧
    (∀ y, y ∈ rs → h2 !! y = set_parent (Some (length h1)) <$> h1 !! y).
Proof.
  intros Hlt.
  destruct (Tree_init_ok num_zero name rs None [] None [] h1 Hlt)
    as (h2 & Hinit & Hlen & Hnew & Hout & Hin).
  exists h2. split; [|done].
  unfold build_node.
  rewrite (bind_ok _ _ _ (([] : dict), ";" :: rest) h1) by by destruct wa.
  cbn beta iota.
  rewrite (bind_ok _ _ _ (num_zero, ";" :: rest) h1) by done.
  cbn beta iota. rewrite (bind_ok _ _ _ (length h1) h2) by done.
  rewrite (bind_ok _ _ _ _ h2) by (apply get_ok; exact Hnew).
  rewrite (bind_ok _ _ _ None h2) by by apply lift_ok, location_no_attributes.
  rewrite (bind_ok _ _ _ tt h2).
  2:{ rewrite (modify_ok _ _ _ _ Hnew). f_equal. f_equal.
      by apply list_insert_id. }
  by rewrite (bind_ok _ _ _ tt h2).
Qed.

(** X22: the text of an inner node that ends with its closing
    parenthesis, the children written by [to_newick] without attributes,
    cannot be parsed: reading the character after the parenthesis raises
    [IndexError]. With [';'] after the parenthesis it is parsed: the root
    has the length 0, no name and the children of the text, and [';'] is
    the rest. The location key holds no ['%'], as the keys do for which
    [get_location_from_attributes] is modelled: the code formats the key
    with ['%'] at every node, with or without attributes. *)
Theorem parse_tree_semicolon h cs (key : str) wa h0 :
  "%" ∉ key →
  cs ≠ [] → Forall (shape h) cs →
  Forall (names_ok h) cs → Forall (nums_ok h) cs →
  parse_tree (lit "(" ++ str_join (lit ",") (render h <$> cs) ++ lit ")")
    key false wa h0 = Raise IndexError ∧
  ∃ h0' cs',
    parse_tree (lit "(" ++ str_join (lit ",") (render h <$> cs) ++ lit ");")
      key false wa h0 = Ok ((length h0' - 1, lit ";"), h0') ∧
    h0' !! (length h0' - 1)
    = Some (Tree.Node num_zero [] (root <$> cs') None [] None [0%Z]) ∧
    is_tree h0' (RT (length h0' - 1) cs') ∧
    Forall2 (mirrors h h0') cs cs' ∧
    parents_ok h0' (RT (length h0' - 1) cs') ∧
    (∀ x, x < length h0 → h0' !! x = h0 !! x).
Proof.
  intros _ Hne Hsh Hnames Hnums.
  assert (∀ (tail : str) f, length (str_join (lit ",") (render h <$> cs)) < f →
    ∃ h1 cs',
      children_loop (λ s, parse_tree_rec f s key false wa) f
        ("(" :: str_join (lit ",") (render h <$> cs) ++ ")" :: tail) [] h0
      = Ok ((root <$> cs', ")" :: tail), h1) ∧
      (∀ x, x < length h0 → h1 !! x = h0 !! x) ∧ length h0 ≤ length h1 ∧
      Forall (shape h1) cs' ∧ NoDup (concat (refs <$> cs')) ∧
      Forall (λ x, length h0 ≤ x < length h1) (concat (refs <$> cs')) ∧
      Forall2 (mirrors h h1) cs cs' ∧ Forall (parents_ok h1) cs') as Hloop.
  { intros tail f Hf.
    pose proof (length_str_join [","] (render h <$> cs)) as Hj.
    change (lit ",") with [","] in Hf.
    assert (sum_list (size <$> cs)
            ≤ sum_list (length <$> (render h <$> cs))) as Hle.
    { clear -Hsh. induction Hsh as [|c cs Hc _ IH]; [done|]. csimpl.
      pose proof (length_render h c Hc). lia. }
    destruct (children_loop_render
                (λ s, parse_tree_rec f s key false wa) h cs) with
      (k := f) (sep := "(") (acc := @nil ref) (tail := tail) (h0 := h0)
      as (h1 & cs' & Hrun & Hrest);
      [done| |by left|pose proof (length_le_sizes cs); lia|].
    { rewrite Forall_forall in Hsh, Hnames, Hnums. apply Forall_forall.
      intros c Hc rest' h0' Hrest'. apply parse_render; auto.
      pose proof (size_subtree _ _ Hc). lia. }
    exists h1, cs'. done. }
  split.
  - unfold parse_tree.
    set (f := length (lit "(" ++ str_join (lit ",") (render h <$> cs) ++ lit ")")).
    destruct (Hloop [] f) as (h1 & cs' & Hrun & _).
    { unfold f. rewrite !length_app. simpl. lia. }
    cbn [parse_tree_rec lit list_ascii_of_string app startswith].
    rewrite bool_decide_true by done. cbn [andb].
    apply bind_raise.
    change ([")"]) with (lit ")") in Hrun.
    rewrite (bind_ok _ _ _ _ h1) by exact Hrun.
    cbn beta iota. cbn [startswith lit list_ascii_of_string].
    rewrite bool_decide_true by done. done.
  - unfold parse_tree.
    set (f := length (lit "(" ++ str_join (lit ",") (render h <$> cs) ++ lit ");")).
    destruct (Hloop [";"] f)
      as (h1 & cs' & Hrun & Hfr & Hlen & Hshs' & Hnds & Hbds & Hms & Hps).
    { unfold f. rewrite !length_app. simpl. lia. }
    assert (Forall (λ x, x < length h1) (root <$> cs')) as Hroots.
    { apply Forall_forall. intros x (c' & -> & Hc')%list_elem_of_fmap.
      rewrite Forall_forall in Hbds.
      assert (root c' ∈ concat (refs <$> cs')) as Hin%Hbds; [|lia].
      eapply refs_subtree; [done|apply root_in_refs]. }
    destruct (build_node_semicolon [] (root <$> cs') [] key wa h1 Hroots)
      as (h2 & Hrun2 & Hlen2 & Hnew & Hout & Hin).
    exists h2, cs'. rewrite Hlen2. replace (S (length h1) - 1) with (length h1) by lia.
    assert (∀ y m, h1 !! y = Some m →
              ∃ m', h2 !! y = Some m' ∧ same_data m m' ∧
                Tree.children m' = Tree.children m ∧
                (y ∉ root <$> cs' → m' = m)) as Hstep.
    { intros y m Hm. destruct (decide (y ∈ root <$> cs')) as [Hy|Hy].
      - exists (set_parent (Some (length h1)) m). rewrite Hin, Hm by done.
        done.
      - exists m. rewrite Hout; [done|by eapply lookup_lt_Some|done]. }
    rewrite Forall_forall in Hbds.
    split; [|split; [done|split; [split|split; [|split]]]].
    + cbn [parse_tree_rec lit list_ascii_of_string app startswith].
      rewrite bool_decide_true by done. cbn [andb].
      rewrite (bind_ok _ _ _ (([] : str), root <$> cs', [";"]) h1).
      2:{ change (lit ");") with (")" :: [";"]).
          rewrite (bind_ok _ _ _ _ h1) by exact Hrun.
          cbn beta iota. cbn [startswith lit list_ascii_of_string].
          rewrite bool_decide_true by done. done. }
      cbn beta iota. exact Hrun2.
    + eapply shape_node; [done..|].
      eapply Forall_impl; [exact Hshs'|]. intros c'. apply shape_ext.
      intros x m _ Hm. destruct (Hstep x m Hm) as (m' & ? & _ & ? & _). eauto.
    + simpl. apply NoDup_cons. split; [|done]. intros ?%Hbds. lia.
    + eapply Forall2_impl; [exact Hms|]. intros c0 c'. apply mirrors_ext.
      intros x m _ Hm. destruct (Hstep x m Hm) as (m' & ? & ? & _). eauto.
    + constructor.
      * apply Forall_forall. intros c' Hc'.
        rewrite Forall_forall in Hshs'.
        destruct (shape_lookup _ _ (Hshs' c' Hc')) as (m & Hm & _).
        exists (set_parent (Some (length h1)) m).
        rewrite Hin by by apply list_elem_of_fmap_2. by rewrite Hm.
      * rewrite Forall_forall in Hps. apply Forall_forall. intros c' Hc'.
        eapply parents_ok_ext; [|by apply Hps]. intros x m Hx Hm.
        destruct (Hstep x m Hm) as (m' & Hm' & _ & _ & Heq).
        exists m'. split; [done|]. rewrite Heq; [done|].
        by eapply tail_not_root.
    + intros x Hx. rewrite Hout; [by apply Hfr|lia|].
      intros (c' & -> & Hc')%list_elem_of_fmap.
      assert (root c' ∈ concat (refs <$> cs')) as Hin'%Hbds; [|lia].
      eapply refs_subtree; [done|apply root_in_refs].
Qed.

End Properties.

(** ** Examples *)

Ltac shape_tac :=
  repeat first
    [ apply Forall_nil_2
    | apply Forall_cons_2
    | eapply shape_node; [reflexivity|reflexivity|] ].

Lemma balanced7_is_tree : is_tree balanced7 balanced7_shape.
Proof.
  split; [unfold balanced7_shape; shape_tac|].
  apply (bool_decide_unpack _). by vm_compute.
Qed.

(** C2, as stated, fails at the root of the perfectly balanced tree with
    seven nodes: its two children have subtrees of equal size, and the
    imbalance is -1/2, neither 0 nor in [0, 1]. *)
Lemma node_imbalance_balanced7 :
  is_tree balanced7 balanced7_shape ∧
  balanced7 !! 0 = Some (mk 0 "" [1; 4] None) ∧
  tree_size balanced7 0 = Ok 7 ∧
  tree_size balanced7 1 = Ok 3 ∧ tree_size balanced7 4 = Ok 3 ∧
  ∃ q, node_imbalance balanced7 0 = Ok q ∧ (q == -1 # 2)%Q ∧ ¬ (0 <= q)%Q.
Proof.
  split; [apply balanced7_is_tree|]. do 4 (split; [reflexivity|]).
  eexists. split; [reflexivity|]. split; by vm_compute.
Qed.

Ltac parents_tac :=
  repeat first
    [ apply Forall_nil_2
    | apply Forall_cons_2
    | eexists; split; reflexivity
    | apply parents_ok_node ].

Lemma prune_inner_is_tree :
  is_tree prune_inner prune_inner_shape ∧ parents_ok prune_inner prune_inner_shape.
Proof.
  split; [split|].
  - unfold prune_inner_shape; shape_tac.
  - apply (bool_decide_unpack _). by vm_compute.
  - unfold prune_inner_shape; parents_tac.
Qed.

(** C1 at [prune_inner]: removing the leaf [d] leaves the inner node with
    the single child [c], which takes its place among the children of
    the root and its length, and keeps the removed node as its parent. *)
Lemma remove_nodes_by_name_parent :
  is_tree prune_inner prune_inner_shape ∧
  parents_ok prune_inner prune_inner_shape ∧
  remove_nodes_by_name 0 [lit "d"] prune_inner
  = Ok (tt, [ mk 0 "" [1; 3] None;
              mk 1 "a" [] (Some 0);
              mk 2 "" [3] (Some 0); mk 5 "c" [] (Some 2); mk 4 "d" [] (Some 2) ]) ∧
  ∀ h', remove_nodes_by_name 0 [lit "d"] prune_inner = Ok (tt, h') →
    is_tree h' (RT 0 [RT 1 []; RT 3 []]) ∧
    ¬ parents_ok h' (RT 0 [RT 1 []; RT 3 []]).
Proof.
  split; [apply prune_inner_is_tree|]. split; [apply prune_inner_is_tree|].
  assert (remove_nodes_by_name 0 [lit "d"] prune_inner
          = Ok (tt, [ mk 0 "" [1; 3] None;
                      mk 1 "a" [] (Some 0);
                      mk 2 "" [3] (Some 0); mk 5 "c" [] (Some 2);
                      mk 4 "d" [] (Some 2) ])) as Heq by reflexivity.
  split; [exact Heq|].
  intros h' Hrun. rewrite Heq in Hrun. injection Hrun as <-. split; [split|].
  - shape_tac.
  - apply (bool_decide_unpack _). by vm_compute.
  - inversion 1 as [? ? Hp _]; subst.
    apply Forall_cons in Hp as [_ Hp]. apply Forall_cons in Hp as [(n & Hn & Hpar) _].
    change (Some (mk 5 "c" [] (Some 2)) = Some n) in Hn.
    injection Hn as <-. done.
Qed.

Lemma prune_root_is_tree : is_tree prune_root prune_root_shape.
Proof.
  split; [unfold prune_root_shape; shape_tac|].
  apply (bool_decide_unpack _). by vm_compute.
Qed.

(** C3 at [prune_root]: removing the leaf [b] leaves the root, of length
    5, with the single child [x] of length 3. The root takes the name,
    the length 3 and the children of [x]; the sum is stored in [x], which
    is no longer in the tree, after the root has taken the length of [x]:
    it is 3 + 3 there, and the root has 3, not 3 + 5. *)
Lemma remove_nodes_by_name_root :
  is_tree prune_root prune_root_shape ∧
  remove_nodes_by_name 0 [lit "b"] prune_root
  = Ok (tt, [ mk 3 "x" [3; 4] (Some 0);
              mk 6 "x" [3; 4] (Some 0); mk 1 "b" [] (Some 0);
              mk 1 "c" [] (Some 0); mk 1 "d" [] (Some 0) ]).
Proof. split; [apply prune_root_is_tree|]. reflexivity. Qed.

(** ** The theorems at concrete trees *)

Lemma iter_edges_tree_witness :
  is_tree balanced7 balanced7_shape ∧
  ∃ es sz,
    iter_edges balanced7 (root balanced7_shape) = Ok es ∧
    tree_size balanced7 (root balanced7_shape) = Ok sz ∧
    length es = sz - 1 ∧
    (∀ p c, (p, c) ∈ es →
       p ∈ refs balanced7_shape
       ∧ ∃ n, balanced7 !! p = Some n ∧ c ∈ Tree.children n) ∧
    es = edges balanced7_shape ∧ es.*2 = tail (refs balanced7_shape) ∧
    NoDup es.*2 ∧
    (∀ p n c, p ∈ refs balanced7_shape → balanced7 !! p = Some n →
       c ∈ Tree.children n → (p, c) ∈ es).
Proof.
  split; [|apply iter_edges_tree];
    (split; [unfold balanced7_shape; shape_tac
            |apply (bool_decide_unpack _); by vm_compute]).
Defined.

Lemma three_leaves_is_tree (h : list (Tree.t (E := decimal))) a b c d :
  h = [a; b; c; d] →
  Tree.children a = [1; 2; 3] → Tree.children b = [] →
  Tree.children c = [] → Tree.children d = [] →
  is_tree h three_leaves_shape.
Proof.
  intros -> Ha Hb Hc Hd. split.
  - unfold three_leaves_shape.
    repeat first
      [ apply Forall_nil_2 | apply Forall_cons_2
      | eapply shape_node; [reflexivity|eassumption|] ].
  - apply (bool_decide_unpack _). by vm_compute.
Qed.

(** C6, as stated, fails on a node with more than two children whose
    location cannot be read ([binarize] raises [KeyError] and the node
    keeps its three children), and on one whose alignment is empty (the
    new node has the alignment [[0]]). *)
Lemma binarize_not_always :
  is_tree half_located three_leaves_shape ∧
  binarize 0 half_located = Raise KeyError ∧
  is_tree unaligned three_leaves_shape ∧
  binarize 0 unaligned
  = Ok (tt, [ Tree.Node (E := decimal) 0 [] [1; 4] None [] None [];
              mk 1 "a" [] (Some 0); mk 1 "b" [] (Some 4); mk 1 "c" [] (Some 4);
              Tree.Node (E := decimal) 0 [] [2; 3] (Some 0) [] None [0%Z] ]).
Proof.
  split; [by eapply three_leaves_is_tree|]. split; [reflexivity|].
  split; [by eapply three_leaves_is_tree|]. reflexivity.
Qed.

(** C5, as stated, fails on a tree of one leaf whose name reads as a
    subtree: the text is that of a node with two leaves, and parsing it
    builds three nodes, the root with two children. *)
Lemma newick_round_trip_name :
  is_tree odd_name (RT 0 []) ∧
  to_newick odd_name 0 false = Ok (lit "(a:1,b:2):1") ∧
  parse_tree (lit "(a:1,b:2):1") (lit "location") false true
    (@nil (Tree.t (E := decimal)))
  = Ok ((2, []), [ mk 1 "a" [] (Some 2); mk 2 "b" [] (Some 2);
                   mk 1 "" [0; 1] None ]) ∧
  ∀ r' h' t',
    parse_tree (lit "(a:1,b:2):1") (lit "location") false true
      (@nil (Tree.t (E := decimal))) = Ok ((r', []), h') →
    root t' = r' → shape h' t' → ¬ mirrors odd_name h' (RT 0 []) t'.
Proof.
  split; [split; [shape_tac|apply (bool_decide_unpack _); by vm_compute]|].
  split; [reflexivity|].
  assert (parse_tree (lit "(a:1,b:2):1") (lit "location") false true
            (@nil (Tree.t (E := decimal)))
          = Ok ((2, []), [ mk 1 "a" [] (Some 2); mk 2 "b" [] (Some 2);
                           mk 1 "" [0; 1] None ])) as Heq by reflexivity.
  split; [exact Heq|].
  intros r' h' t' Hrun Hroot Hsh Hm. rewrite Heq in Hrun.
  injection Hrun as <- <-. destruct t' as [r' cs']. simpl in Hroot. subst r'.
  inversion Hsh as [? n ? Hn Hcs _]; subst.
  change (Some (mk 1 "" [0; 1] None) = Some n) in Hn. injection Hn as <-.
  inversion Hm as [? ? ? ? ? ? _ _ _ _ Hcs']; subst.
  inversion Hcs'; subst. done.
Qed.

Ltac tree_tac :=
  split; [shape_tac|apply (bool_decide_unpack _); by vm_compute].

Ltac each_ref Hx tac :=
  repeat (apply elem_of_cons in Hx as [->|Hx]; [tac|]);
  try by apply elem_of_nil in Hx.

Lemma node_imbalance_range_witness :
  is_tree balanced7 balanced7_shape ∧
  ∃ q s1 s2,
    node_imbalance balanced7 0 = Ok q ∧
    tree_size balanced7 1 = Ok s1 ∧ tree_size balanced7 4 = Ok s2 ∧
    (-1 <= q ∧ q <= 1)%Q ∧
    (s1 = s2 → (q == -1 / inject_Z (Z.of_nat s1 - 1))%Q ∧ (q < 0)%Q).
Proof.
  split; [unfold balanced7_shape; tree_tac|].
  apply (node_imbalance_range balanced7 balanced7_shape (mk 0 "" [1; 4] None) 1 4).
  - unfold balanced7_shape; tree_tac.
  - reflexivity.
  - reflexivity.
  - exists 7. split; [by vm_compute|lia].
Defined.

Lemma node_imbalance_spec_witness :
  is_tree balanced7 balanced7_shape ∧
  ∃ size,
    tree_size balanced7 0 = Ok size ∧
    (∀ c1 c2, [1; 4] = [c1; c2] → 4 ≤ size →
       ∃ s1 s2,
         tree_size balanced7 c1 = Ok s1 ∧ tree_size balanced7 c2 = Ok s2 ∧
         let bigger := Z.of_nat (s1 `max` s2) in
         let m := Qceiling (inject_Z (Z.of_nat size) / 2) in
         node_imbalance balanced7 0
         = Ok ((inject_Z bigger - inject_Z m)
               / (inject_Z (Z.of_nat size) - inject_Z m - 1))%Q).
Proof.
  split; [unfold balanced7_shape; tree_tac|].
  destruct (node_imbalance_spec balanced7 balanced7_shape (mk 0 "" [1; 4] None))
    as (size & Hsize & _ & Htwo & _).
  - unfold balanced7_shape; tree_tac.
  - reflexivity.
  - exists size. split; [exact Hsize|exact Htwo].
Defined.



Lemma four_leaves_locs : locs_ok four_leaves four_leaves_shape.
Proof.
  intros x n Hx Hn _. simpl in Hx.
  each_ref Hx ltac:(injection Hn as <-; by exists None).
Qed.

Lemma binarize_spec_witness :
  is_tree four_leaves four_leaves_shape ∧
  locs_ok four_leaves four_leaves_shape ∧
  ∃ h' t',
    binarize 0 four_leaves = Ok (tt, h') ∧
    is_tree h' t' ∧ root t' = 0 ∧ binary t' ∧
    contract 5 t' = four_leaves_shape.
Proof.
  split; [unfold four_leaves_shape; tree_tac|].
  split; [apply four_leaves_locs|].
  destruct (binarize_spec four_leaves four_leaves_shape)
    as (h' & t' & Hrun & Ht' & Hroot & Hbin & _ & Hcon & _).
  - unfold four_leaves_shape; tree_tac.
  - apply four_leaves_locs.
  - exists h', t'. repeat split; try done; apply Ht'.
Defined.

Lemma prune_inner_names : names_ok prune_inner prune_inner_shape.
Proof.
  intros s n Hs Hsub Hn. simpl in Hs.
  each_ref Hs ltac:(first [discriminate Hsub
                          |injection Hn as <-; repeat split;
                           [apply (bool_decide_unpack _); by vm_compute..
                           |by intros [? ?]]]).
Qed.

Lemma prune_inner_nums : nums_ok prune_inner prune_inner_shape.
Proof.
  intros x n Hx Hn. simpl in Hx.
  each_ref Hx ltac:(injection Hn as <-;
                    split; [reflexivity|];
                    split; apply (bool_decide_unpack _); by vm_compute).
Qed.

Lemma newick_round_trip_witness :
  ("%" ∉ lit "location") ∧
  is_tree prune_inner prune_inner_shape ∧
  names_ok prune_inner prune_inner_shape ∧
  nums_ok prune_inner prune_inner_shape ∧
  ∃ s r' h0' t',
    to_newick prune_inner 0 false = Ok s ∧
    parse_tree s (lit "location") false true (@nil (Tree.t (E := decimal)))
    = Ok ((r', []), h0') ∧
    root t' = r' ∧ is_tree h0' t' ∧ mirrors prune_inner h0' prune_inner_shape t'.
Proof.
  split; [apply (bool_decide_unpack _); by vm_compute|].
  split; [unfold prune_inner_shape; tree_tac|].
  split; [apply prune_inner_names|]. split; [apply prune_inner_nums|].
  destruct (newick_round_trip prune_inner prune_inner_shape (lit "location")
              true (@nil (Tree.t (E := decimal))))
    as (s & r' & h0' & t' & Hs & Hp & Hroot & Ht' & Hm & _).
  - apply (bool_decide_unpack _). by vm_compute.
  - unfold prune_inner_shape; tree_tac.
  - apply prune_inner_names.
  - apply prune_inner_nums.
  - exists s, r', h0', t'. done.
Defined.

(** ** The rest of the module at concrete trees *)

Lemma iter_descendants_tree_witness :
  is_tree balanced7 balanced7_shape ∧
  ∃ ds, iter_descendants balanced7 0 = Ok ds ∧ NoDup ds ∧
    tree_size balanced7 0 = Ok (length ds).
Proof.
  split; [unfold balanced7_shape; tree_tac|].
  destruct (iter_descendants_tree balanced7 balanced7_shape)
    as (ds & es & Hds & _ & _ & Hnd & Hsz & _).
  - unfold balanced7_shape; tree_tac.
  - exists ds. done.
Defined.

Lemma n_leafs_tree_witness :
  is_tree balanced7 balanced7_shape ∧
  ∃ ls, iter_leafs balanced7 0 = Ok ls ∧
    n_leafs balanced7 0 = Ok (length ls) ∧ 1 ≤ length ls.
Proof.
  split; [unfold balanced7_shape; tree_tac|].
  destruct (n_leafs_tree balanced7 balanced7_shape)
    as (ls & ds & Hls & _ & _ & Hn & Hpos & _).
  - unfold balanced7_shape; tree_tac.
  - exists ls. done.
Defined.

Lemma height_tree_witness :
  is_tree prune_inner prune_inner_shape ∧
  parents_ok prune_inner prune_inner_shape ∧
  prune_inner !! 0 = Some (mk 0 "" [1; 2] None) ∧
  height prune_inner 0 = Ok 0 ∧
  ∀ x, x ∈ [1; 2; 3; 4] →
    ∃ nx p hp, prune_inner !! x = Some nx ∧ Tree.parent nx = Some p ∧
      height prune_inner p = Ok hp ∧
      height prune_inner x = Ok (hp + Tree.length nx).
Proof.
  split; [apply prune_inner_is_tree|]. split; [apply prune_inner_is_tree|].
  split; [reflexivity|].
  destruct (height_tree prune_inner prune_inner_shape (mk 0 "" [1; 2] None))
    as [Hroot Hrest].
  - apply prune_inner_is_tree.
  - apply prune_inner_is_tree.
  - reflexivity.
  - reflexivity.
  - split; [exact Hroot|]. intros x Hx.
    destruct (Hrest x Hx) as (nx & p & hp & H1 & H2 & _ & H3 & H4).
    exists nx, p, hp. done.
Defined.

Lemma copy_other_node_spec_witness :
  prune_root !! 0 = Some (mk 5 "r" [1; 2] None) ∧
  prune_root !! 1 = Some (mk 3 "x" [3; 4] (Some 0)) ∧
  ∃ h', copy_other_node 0 1 prune_root = Ok (tt, h') ∧
    h' !! 0 = Some (mk 3 "x" [3; 4] (Some 0)).
Proof.
  split; [reflexivity|]. split; [reflexivity|].
  destruct (copy_other_node_spec prune_root 0 1
              (mk 5 "r" [1; 2] None) (mk 3 "x" [3; 4] (Some 0)))
    as (h' & Hrun & _ & Hself & _).
  - reflexivity.
  - reflexivity.
  - lia.
  - simpl. repeat constructor; lia.
  - simpl. apply (bool_decide_unpack _). by vm_compute.
  - exists h'. done.
Defined.

Lemma height_after_copy_witness :
  prune_root !! 0 = Some (mk 5 "r" [1; 2] None) ∧
  prune_root !! 1 = Some (mk 3 "x" [3; 4] (Some 0)) ∧
  ∃ h', copy_other_node 0 1 prune_root = Ok (tt, h') ∧
    height h' 0 = Raise RecursionError.
Proof.
  split; [reflexivity|]. split; [reflexivity|].
  destruct (height_after_copy prune_root 0 1
              (mk 5 "r" [1; 2] None) (mk 3 "x" [3; 4] (Some 0)))
    as (h' & n' & Hrun & _ & _ & Hheight & _).
  - reflexivity.
  - reflexivity.
  - lia.
  - simpl. repeat constructor; lia.
  - simpl. apply (bool_decide_unpack _). by vm_compute.
  - reflexivity.
  - exists h'. done.
Defined.

Lemma forest_trees :
  is_tree forest (RT 0 [RT 1 []]) ∧ is_tree forest (RT 2 [RT 3 []]).
Proof. split; tree_tac. Qed.

Lemma add_child_tree_witness :
  is_tree forest (RT 0 [RT 1 []]) ∧ is_tree forest (RT 2 [RT 3 []]) ∧
  ∃ h', add_child 0 2 forest = Ok (tt, h') ∧
    is_tree h' (RT 0 [RT 1 []; RT 2 [RT 3 []]]) ∧
    tree_size h' 0 = Ok 4.
Proof.
  split; [apply forest_trees|]. split; [apply forest_trees|].
  destruct (add_child_tree forest (RT 0 [RT 1 []]) (RT 2 [RT 3 []]))
    as (h' & Hrun & Ht & _ & Hsz & _).
  - apply forest_trees.
  - apply forest_trees.
  - intros x Hx. simpl in Hx |- *.
    each_ref Hx ltac:(apply (bool_decide_unpack _); by vm_compute).
  - exists h'. done.
Defined.

Lemma add_child_keeps_old_parent_witness :
  prune_inner !! 1 = Some (mk 1 "a" [] (Some 0)) ∧
  prune_inner !! 2 = Some (mk 2 "" [3; 4] (Some 0)) ∧
  ∃ h' n', add_child 1 3 prune_inner = Ok (tt, h') ∧
    h' !! 1 = Some n' ∧ 3 ∈ Tree.children n' ∧
    h' !! 2 = Some (mk 2 "" [3; 4] (Some 0)) ∧
    ∀ t, is_tree h' t → ¬ (1 ∈ refs t ∧ 2 ∈ refs t).
Proof.
  split; [reflexivity|]. split; [reflexivity|].
  destruct (add_child_keeps_old_parent prune_inner 1 2 3
              (mk 1 "a" [] (Some 0)) (mk 2 "" [3; 4] (Some 0)))
    as (h' & n' & nc & Hrun & Hself & Hin & Hp & _ & _ & Hno).
  - reflexivity.
  - reflexivity.
  - simpl. apply (bool_decide_unpack _). by vm_compute.
  - simpl. lia.
  - lia.
  - lia.
  - lia.
  - exists h', n'. done.
Defined.

Lemma small_big_child_tree_witness :
  is_tree prune_inner prune_inner_shape ∧
  prune_inner !! 0 = Some (mk 0 "" [1; 2] None) ∧
  ∃ small big,
    small_child prune_inner 0 = Ok small ∧ big_child prune_inner 0 = Ok big.
Proof.
  split; [apply prune_inner_is_tree|]. split; [reflexivity|].
  destruct (small_big_child_tree prune_inner prune_inner_shape
              (mk 0 "" [1; 2] None)) as [_ Hsome].
  - apply prune_inner_is_tree.
  - reflexivity.
  - destruct Hsome as (i & j & small & big & s & b & _ & _ & Hs & Hb & _);
      [done|].
    exists small, big. done.
Defined.

Lemma tree_imbalance_tree_witness :
  is_tree balanced7 balanced7_shape ∧ binary balanced7_shape ∧
  ∃ q, tree_imbalance balanced7 0 = Ok q ∧ (-1 <= q ∧ q <= 1)%Q.
Proof.
  split; [unfold balanced7_shape; tree_tac|].
  assert (binary balanced7_shape) as Hbin by (simpl; repeat split; lia).
  split; [exact Hbin|].
  destruct (tree_imbalance_tree balanced7 balanced7_shape) as [Hok _].
  - unfold balanced7_shape; tree_tac.
  - destruct (Hok Hbin) as (ds & qs & q & _ & _ & Hq & _ & Hrange).
    exists q. done.
Defined.

Lemma binarize_leaves_witness :
  is_tree four_leaves four_leaves_shape ∧
  locs_ok four_leaves four_leaves_shape ∧
  ∃ h' ls,
    binarize 0 four_leaves = Ok (tt, h') ∧
    iter_leafs four_leaves 0 = Ok ls ∧ iter_leafs h' 0 = Ok ls.
Proof.
  split; [unfold four_leaves_shape; tree_tac|].
  split; [apply four_leaves_locs|].
  destruct (binarize_leaves four_leaves four_leaves_shape)
    as (h' & ls & sz & Hrun & Hl & Hl' & _).
  - unfold four_leaves_shape; tree_tac.
  - apply four_leaves_locs.
  - exists h', ls. done.
Defined.

Lemma binarize_tree_imbalance_witness :
  is_tree four_leaves four_leaves_shape ∧
  locs_ok four_leaves four_leaves_shape ∧
  ∃ h' q,
    binarize 0 four_leaves = Ok (tt, h') ∧
    tree_imbalance h' 0 = Ok q ∧ (-1 <= q ∧ q <= 1)%Q.
Proof.
  split; [unfold four_leaves_shape; tree_tac|].
  split; [apply four_leaves_locs|].
  apply (binarize_tree_imbalance four_leaves four_leaves_shape).
  - unfold four_leaves_shape; tree_tac.
  - apply four_leaves_locs.
Defined.

Lemma Tree_init_tree_witness :
  Forall (is_tree forest) [RT 0 [RT 1 []]; RT 2 [RT 3 []]] ∧
  ∃ h', Tree_init (E := decimal) 7 (lit "top") [0; 2] None [] None [] forest
        = Ok (4, h') ∧
    is_tree h' (RT 4 [RT 0 [RT 1 []]; RT 2 [RT 3 []]]) ∧
    (∃ n, h' !! 0 = Some n ∧ Tree.parent n = Some 4) ∧
    (∃ n, h' !! 2 = Some n ∧ Tree.parent n = Some 4) ∧
    tree_size h' 4 = Ok 5.
Proof.
  assert (Forall (is_tree forest) [RT 0 [RT 1 []]; RT 2 [RT 3 []]]) as Hall.
  { constructor; [apply forest_trees|]. constructor; [apply forest_trees|].
    constructor. }
  split; [exact Hall|].
  destruct (Tree_init_tree (E := decimal) 7 (lit "top")
              [RT 0 [RT 1 []]; RT 2 [RT 3 []]]
              None [] None [] forest Hall)
    as (h' & Hrun & _ & Ht & _ & Hpar & _ & Hsz & _).
  - apply (bool_decide_unpack _). by vm_compute.
  - exists h'. split; [done|]. split; [done|].
    split; [apply (Hpar (RT 0 [RT 1 []])); by left|].
    split; [apply (Hpar (RT 2 [RT 3 []])); right; by left|]. done.
Defined.

Lemma remove_nodes_by_name_absent_witness :
  is_tree balanced7 balanced7_shape ∧
  remove_nodes_by_name 0 [lit "z"] balanced7 = Ok (tt, balanced7).
Proof.
  split; [unfold balanced7_shape; tree_tac|].
  apply (remove_nodes_by_name_absent balanced7 balanced7_shape [lit "z"]).
  - unfold balanced7_shape; tree_tac.
  - intros x n Hx Hn. simpl in Hx.
    each_ref Hx ltac:(injection Hn as <-; simpl;
                      apply (bool_decide_unpack _); by vm_compute).
  - intros x n Hx Hn. simpl in Hx.
    each_ref Hx ltac:(injection Hn as <-; simpl; lia).
Defined.

Lemma remove_nodes_by_name_all_witness :
  prune_inner !! 2 = Some (mk 2 "" [3; 4] (Some 0)) ∧
  ∃ cs, list_remove [1; 2] 2 = Some cs ∧
    remove_nodes_by_name 2 [lit "c"; lit "d"] prune_inner
    = Ok (tt, <[0 := set_children cs (mk 0 "" [1; 2] None)]>
                (<[2 := set_children [] (mk 2 "" [3; 4] (Some 0))]>
                   prune_inner)).
Proof.
  split; [reflexivity|].
  destruct (remove_nodes_by_name_all prune_inner 2 (mk 2 "" [3; 4] (Some 0))
              [lit "c"; lit "d"]) as [_ Hparent].
  - reflexivity.
  - simpl. discriminate.
  - simpl. apply (bool_decide_unpack _). by vm_compute.
  - intros c Hc. simpl in Hc.
    each_ref Hc ltac:(eexists; split; [reflexivity|]; simpl;
                      apply (bool_decide_unpack _); by vm_compute).
  - apply (Hparent 0 (mk 0 "" [1; 2] None)).
    + reflexivity.
    + lia.
    + reflexivity.
    + simpl. apply (bool_decide_unpack _). by vm_compute.
Defined.

Lemma with_hpd_attrs :
  attrs_ok
    [ (lit "location1_95%hpd_1", Text (E := decimal) (lit "{0,0,10,10}"));
      (lit "location2_95%hpd_1", Text (E := decimal) (lit "{0,10,10,0}")) ].
Proof.
  split; [|split].
  - simpl. apply (bool_decide_unpack _). by vm_compute.
  - simpl. repeat constructor; apply (bool_decide_unpack _); by vm_compute.
  - simpl. repeat constructor; try reflexivity;
      apply (bool_decide_unpack _); by vm_compute.
Qed.

Lemma parse_attributes_to_newick_witness :
  ∃ s core,
    to_newick with_hpd 0 true = Ok s ∧
    s = core ++ lit "[&location1_95%hpd_1={0,0,10,10},location2_95%hpd_1={0,10,10,0}]:0" ∧
    parse_attributes
      (lit "[&location1_95%hpd_1={0,0,10,10},location2_95%hpd_1={0,10,10,0}]:0")
    = Ok ([ (lit "location1_95%hpd_1", Text (E := decimal) (lit "{0,0,10,10}"));
            (lit "location2_95%hpd_1", Text (E := decimal) (lit "{0,10,10,0}")) ],
          lit ":0").
Proof.
  exists (lit "[&location1_95%hpd_1={0,0,10,10},location2_95%hpd_1={0,10,10,0}]:0").
  destruct (parse_attributes_to_newick with_hpd 0
              (Tree.Node (E := decimal) 0 [] [] None
                 [ (lit "location1_95%hpd_1",
                    Text (E := decimal) (lit "{0,0,10,10}"));
                   (lit "location2_95%hpd_1",
                    Text (E := decimal) (lit "{0,10,10,0}")) ]
                 None [0%Z])
              (lit "[&location1_95%hpd_1={0,0,10,10},location2_95%hpd_1={0,10,10,0}]:0"))
    as (core & Hs & Hparse).
  - reflexivity.
  - apply with_hpd_attrs.
  - reflexivity.
  - exists core. split; [reflexivity|]. split; [exact Hs|exact Hparse].
Defined.


Lemma four_leaves_prunable :
  prunable (kept [lit "b"] four_leaves) four_leaves_shape.
Proof.
  split.
  - right. apply (bool_decide_unpack _). by vm_compute.
  - simpl. repeat split; by left.
Qed.

Lemma remove_nodes_by_name_prune_witness :
  is_tree four_leaves four_leaves_shape ∧
  prunable (kept [lit "b"] four_leaves) four_leaves_shape ∧
  ∃ h', remove_nodes_by_name 0 [lit "b"] four_leaves = Ok (tt, h') ∧
    is_tree h' (prune (kept [lit "b"] four_leaves) four_leaves_shape) ∧
    prune (kept [lit "b"] four_leaves) four_leaves_shape
    = RT 0 [RT 1 []; RT 3 []; RT 4 []].
Proof.
  split; [unfold four_leaves_shape; tree_tac|].
  split; [apply four_leaves_prunable|].
  destruct (remove_nodes_by_name_prune four_leaves four_leaves_shape
              [lit "b"]) as (h' & Hrun & Ht & _).
  - unfold four_leaves_shape; tree_tac.
  - apply four_leaves_prunable.
  - exists h'. split; [exact Hrun|]. split; [exact Ht|]. reflexivity.
Defined.





Lemma prune_inner_leaves :
  Forall (shape prune_inner) [RT 3 []; RT 4 []] ∧
  Forall (names_ok prune_inner) [RT 3 []; RT 4 []] ∧
  Forall (nums_ok prune_inner) [RT 3 []; RT 4 []].
Proof.
  split; [shape_tac|]. split.
  - constructor; [|constructor; [|constructor]];
      intros s n Hs Hsub Hn; simpl in Hs;
      each_ref Hs ltac:(injection Hn as <-; repeat split;
                        [apply (bool_decide_unpack _); by vm_compute..
                        |by intros [? ?]]).
  - constructor; [|constructor; [|constructor]];
      intros x n Hx Hn; simpl in Hx;
      each_ref Hx ltac:(injection Hn as <-;
                        split; [reflexivity|];
                        split; apply (bool_decide_unpack _); by vm_compute).
Qed.

Lemma parse_tree_semicolon_witness :
  ("%" ∉ lit "location") ∧
  Forall (shape prune_inner) [RT 3 []; RT 4 []] ∧
  parse_tree (lit "(c:3,d:4)") (lit "location") false true
    (@nil (Tree.t (E := decimal))) = Raise IndexError ∧
  ∃ h0' cs',
    parse_tree (lit "(c:3,d:4);") (lit "location") false true
      (@nil (Tree.t (E := decimal))) = Ok ((length h0' - 1, lit ";"), h0') ∧
    is_tree h0' (RT (length h0' - 1) cs').
Proof.
  split; [apply (bool_decide_unpack _); by vm_compute|].
  split; [apply prune_inner_leaves|].
  destruct (parse_tree_semicolon prune_inner [RT 3 []; RT 4 []]
              (lit "location") true (@nil (Tree.t (E := decimal))))
    as (Herr & h0' & cs' & Hrun & _ & Ht & _).
  - apply (bool_decide_unpack _). by vm_compute.
  - discriminate.
  - apply prune_inner_leaves.
  - apply prune_inner_leaves.
  - apply prune_inner_leaves.
  - split; [exact Herr|]. exists h0', cs'. split; [exact Hrun|exact Ht].
Defined.
